(** * construct: the framed TCP/JSON transport and the cube handle

    A shallow embedding of package [construct] (construct.go, protocol.go,
    cube.go) and the properties of its framing, clamping and lifecycle code.

    - Go strings and byte slices are [string]s, sequences of 8-bit [ascii]
      values; [strings.Contains], [strings.ReplaceAll] and
      [strings.TrimSpace] are written out on them.
    - [float64] is [spec_float], the IEEE-754 model of the standard library,
      with its comparisons; no arithmetic on floats occurs in the package.
    - [interface{}] is the inductive type [any]; Go maps are [gmap]s.
    - A connection is read as the bytes it delivers before a read fails (end
      of stream or the 3-second deadline).  Code that talks to the network
      is a state transformer over the trace of network events; whether a
      dial or a write succeeds and what arrives is given by an
      [Environment].
    - A method on a [*Cube] takes the cube and hands back the cube it leaves
      behind.  A run-time panic is a result of its own.  [SpawnAll] goes
      through the pointers of [c.Cubes]; for it the cubes live in a heap.
    - [encoding/json] and PARAGON are parameters of the development: the text
      [json.Marshal] produces, [json.Unmarshal], and the network's [Forward]
      and [GetOutput].
    - Output on stdout ([fmt.Println], [fmt.Printf]) and [time.Sleep] leave
      no trace in the model, except that the [Printf] at the end of [Spawn]
      indexes the position and can panic. *)

From Stdlib Require Import Ascii String.
From Stdlib Require Import Floats.SpecFloat.
From stdpp Require Import gmap strings list fin_maps sorting pretty.
From Equations Require Import Equations.

Open Scope string_scope.

(* ===================================================================== *)
(** * Package [strings]: the three functions the transport uses           *)
(* ===================================================================== *)

Module Strings.

(** [s[n:]] *)
Fixpoint drop (n : nat) (s : string) : string :=
  match n, s with
  | O, _ => s
  | S _, "" => ""
  | S n', String _ t => drop n' t
  end.

(** [strings.HasPrefix(s, prefix)] *)
Definition HasPrefix (s pre : string) : bool := String.prefix pre s.

(** [strings.HasSuffix(s, suffix)] *)
Definition HasSuffix (s suf : string) : bool :=
  String.prefix (String.rev suf) (String.rev s).

(** [strings.Contains(s, substr)]: [substr] starts at some offset of [s]. *)
Fixpoint Contains (s substr : string) : bool :=
  HasPrefix s substr
  || match s with
     | "" => false
     | String _ t => Contains t substr
     end.

(** The scan of [strings.ReplaceAll(s, old, "")] for a non-empty [old]:
    the leftmost occurrence is cut out and the scan resumes after it, so
    the occurrences removed do not overlap.  [skip] is the number of bytes
    of the occurrence being cut that are still to be dropped. *)
Fixpoint cut (skip : nat) (s old : string) : string :=
  match s with
  | "" => ""
  | String c t =>
      match skip with
      | S k => cut k t old
      | O => if HasPrefix s old
             then cut (String.length old - 1) t old
             else String c (cut 0 t old)
      end
  end.

(** [strings.ReplaceAll(s, old, "")], the only form the package calls.
    With an empty [old] Go inserts the (empty) replacement between the
    runes of [s], which gives [s] back. *)
Definition ReplaceAll (s old : string) : string :=
  if decide (old = "") then s else cut 0 s old.

(** The UTF-8 encodings of the code points [unicode.IsSpace] accepts:
    the six ASCII ones, U+0085, U+00A0, U+1680, U+2000..U+200A, U+2028,
    U+2029, U+202F, U+205F and U+3000. *)
Definition utf8 (bs : list nat) : string :=
  string_of_list_ascii (ascii_of_nat <$> bs).

Definition whiteSpace : list string :=
  utf8 <$> [ [9]; [10]; [11]; [12]; [13]; [32];
             [194; 133]; [194; 160]; [225; 154; 128];
             [226; 128; 128]; [226; 128; 129]; [226; 128; 130];
             [226; 128; 131]; [226; 128; 132]; [226; 128; 133];
             [226; 128; 134]; [226; 128; 135]; [226; 128; 136];
             [226; 128; 137]; [226; 128; 138];
             [226; 128; 168]; [226; 128; 169]; [226; 128; 175];
             [226; 129; 159]; [227; 128; 128] ].

(** The white-space rune encoded at the head of [s], if any. *)
Definition leadingSpace (ws : list string) (s : string) : option string :=
  List.find (HasPrefix s) ws.

(** [strings.TrimLeftFunc(s, unicode.IsSpace)]: runes are stripped while
    they are white space.  Every rune is at least one byte long, so
    [String.length s] rounds are enough. *)
Fixpoint trimLeft (ws : list string) (rounds : nat) (s : string) : string :=
  match rounds with
  | O => s
  | S rounds' =>
      match leadingSpace ws s with
      | Some sp => trimLeft ws rounds' (drop (String.length sp) s)
      | None => s
      end
  end.

Definition TrimLeftSpace (s : string) : string :=
  trimLeft whiteSpace (String.length s) s.

(** [strings.TrimRightFunc(s, unicode.IsSpace)]: the same scan from the
    end of [s], on the reversed bytes. *)
Definition TrimRightSpace (s : string) : string :=
  String.rev (trimLeft (String.rev <$> whiteSpace) (String.length s) (String.rev s)).

(** [strings.TrimSpace(s)] *)
Definition TrimSpace (s : string) : string :=
  TrimRightSpace (TrimLeftSpace s).

End Strings.

Import Strings.
Global Arguments HasPrefix : simpl never.

(** Texts with double quotes in them are written with ['] in their place. *)
Definition json (s : string) : string :=
  string_of_list_ascii
    ((λ c, if decide (c = "'"%char) then "034"%char else c) <$> list_ascii_of_string s).

(* ===================================================================== *)
(** * protocol.go: reading one framed response                            *)
(* ===================================================================== *)

(** The error of a read on the connection: the stream ended, or the
    3-second deadline that [readResponse] sets has passed.  The code does
    not look at which it is. *)
Inductive ioError : Set := ReadError.

(** [reader.ReadString(delim)] on a [bufio.Reader] whose connection delivers
    the bytes [reader] and then fails: the bytes up to and including the
    first [delim], or everything that is left together with the error.  The
    third component is what remains to be read. *)
Fixpoint ReadString (reader : string) (delim : ascii) : string * option ioError * string :=
  match reader with
  | "" => ("", Some ReadError, "")
  | String c r =>
      if decide (c = delim) then (String c "", None, r)
      else let '(line, err, rest) := ReadString r delim in
           (String c line, err, rest)
  end.

(** Which of the two [break]s ended the read loop. *)
Inductive loopExit := ReadFailed | DelimiterSeen.

Definition inspect {A} (a : A) : {b | a = b} := exist _ a eq_refl.

(** The [for] loop of [readResponse]: [builder] is the [strings.Builder]. *)
Equations? readLoop (reader delimiter builder : string) : string * loopExit
  by wf (String.length reader) lt :=
  readLoop reader delimiter builder with inspect (ReadString reader "-") := {
    | exist _ (line, Some _, _) _ => (builder, ReadFailed)
    | exist _ (line, None, rest) _ =>
        if Contains line delimiter
        then (builder +:+ line, DelimiterSeen)
        else readLoop rest delimiter (builder +:+ line) }.
Proof.
  (* a successful read takes at least one byte *)
  clear -e. rename e into H. revert line rest H.
  induction reader as [|c r IH]; simpl; intros line rest H; [discriminate|].
  destruct (decide (c = "-"%char)).
  - inversion H; subst. lia.
  - destruct (ReadString r "-") as [[l e] rs] eqn:E. inversion H; subst.
    specialize (IH _ _ eq_refl). lia.
Qed.

(** [readResponse(conn, delimiter)], as a function of the bytes [incoming]
    that the connection delivers before a read fails.  The error result is
    the constant [nil]. *)
Definition readResponse (incoming delimiter : string) : string * option ioError :=
  let full := ReplaceAll (readLoop incoming delimiter "").1 delimiter in
  (TrimSpace full, None).


(** The delimiter has a ['-'] that is not its last byte. *)
Definition dashBeforeLast (delimiter : string) : Prop :=
  ∃ pre post, delimiter = pre +:+ "-" +:+ post ∧ post ≠ "".

(** What C2 states of a stream without the delimiter: the bytes that
    arrived come back, trimmed. *)
Definition partial_buffer_as_stated (incoming delimiter : string) : Prop :=
  Contains incoming delimiter = false →
  readResponse incoming delimiter = (TrimSpace (ReplaceAll incoming delimiter), None).

(** What C9 states of the string that is returned: no occurrence of the
    delimiter is left in it. *)
Definition delimiters_removed_as_stated (incoming delimiter : string) : Prop :=
  Contains (readResponse incoming delimiter).1 delimiter = false.

(** Responses on the wire, each followed by the delimiter, and the same
    responses one after the other. *)
Definition framed (delimiter : string) (rs : list string) : string :=
  foldr (λ r stream, r +:+ delimiter +:+ stream) "" rs.

Definition joined (rs : list string) : string := foldr String.app "" rs.


(* ===================================================================== *)
(** * The data model                                                      *)
(* ===================================================================== *)

#[local] Set Warnings "-register-all".

(** [float64].  The comparisons are those of IEEE 754: each of them is
    false as soon as one side is a NaN. *)
Definition float64 : Type := spec_float.

(** The float64 of an integer. *)
Definition ofZ (z : Z) : float64 := binary_normalize 53 1024 z 0 false.

Definition isNaN (f : float64) : bool :=
  match f with S754_nan => true | _ => false end.

Definition isInf (f : float64) : bool :=
  match f with S754_infinity _ => true | _ => false end.

(** Go's [interface{}], with the dynamic types that reach this package:
    what [json.Unmarshal] stores into an [interface{}] (nil, bool, float64,
    string, []interface{}, map[string]interface{}) and the [[]float64] of
    the outgoing messages. *)
Inductive any :=
| Nil
| Bool (b : bool)
| Float64 (f : float64)
| Str (s : string)
| Slice (l : list any)
| Map (m : gmap string any)
| Float64s (l : list float64).

(** [type Message map[string]interface{}] *)
Abbreviation Message := (gmap string any).

(** [m[key]] on a Go map: the zero value [nil] when the key is absent. *)
Definition index (m : gmap string any) (key : string) : any :=
  default Nil (m !! key).

(** The values [json.Marshal] rejects with an [UnsupportedValueError]:
    a NaN or an infinity anywhere in the value. *)
Definition unsupportedFloat (f : float64) : bool := isNaN f || isInf f.

Fixpoint unsupported (v : any) : bool :=
  match v with
  | Float64 f => unsupportedFloat f
  | Slice l => existsb unsupported l
  | Map m => map_fold (λ _ x acc, unsupported x || acc) false m
  | Float64s l => existsb unsupportedFloat l
  | Nil | Bool _ | Str _ => false
  end.

(** Errors.  The text of a Go error is not modelled; the error that
    [fmt.Errorf] builds around a cause keeps its kind and the cube name it
    was formatted with. *)
Inductive errorKind :=
| ConnectFailed | AuthFailed | SpawnFailed | SendFailed
| NoConnection | OutputTooShort | ApplyForceFailed
| StateRequestFailed | StateReadFailed | JSONParseError | InvalidPosition.

Inductive error :=
| NetError                                  (* an error of package [net] *)
| UnsupportedValue                          (* of [json.Marshal] *)
| CubeError (kind : errorKind) (name : string).

(** How a call ends: it returns its [error] result ([None] is [nil]), or a
    run-time panic (an index out of range, a nil pointer) unwinds it. *)
Inductive result :=
| Return (err : option error)
| Panic.

(** ** The network *)

(** A [net.Conn] is named by a number. *)
Abbreviation Conn := nat (only parsing).

(** What the program does on the network, newest event first. *)
Inductive Event :=
| Dialed (addr : string) (c : option Conn)   (* [net.Dial]; [None]: it failed *)
| Wrote (c : Conn) (data : string) (ok : bool)   (* [conn.Write(data)] *)
| Received (c : Conn) (data : string)   (* the bytes one [readResponse] got *)
| Closed (c : Conn).                    (* [conn.Close()] *)

Abbreviation World := (list Event).

#[global] Instance Event_eq_dec : EqDecision Event.
Proof. solve_decision. Defined.

(** The other side of the network: whether a dial or a write succeeds and
    which bytes a connection delivers to one [readResponse] before its
    deadline passes or the stream fails, each as a function of all that has
    happened so far. *)
Record Environment := {
  dial_ok : World → string → bool;
  write_ok : World → Conn → string → bool;
  delivers : World → Conn → string;
}.

Definition isClosed (w : World) (c : Conn) : bool := bool_decide (Closed c ∈ w).

(** The connections an event speaks of, and a number that no connection
    of the trace has. *)
Definition connOf (e : Event) : Conn :=
  match e with
  | Dialed _ c => default 0 c
  | Wrote c _ _ | Received c _ | Closed c => c
  end.

Definition fresh (w : World) : Conn := S (max_list (connOf <$> w)).

(** The number of responses read so far. *)
Definition reads (w : World) : nat :=
  length (List.filter (λ e, match e with Received _ _ => true | _ => false end) w).

(** Code with effects on the network. *)
Definition IO (A : Type) : Type := World → A * World.

#[global] Instance IO_ret : MRet IO := λ A (a : A) w, (a, w).
#[global] Instance IO_bind : MBind IO :=
  λ A B (f : A → IO B) (m : IO A) w, let '(a, w') := m w in f a w'.

(** [for _, x := range l { f(x) }] *)
Fixpoint forEach {A} (f : A → IO unit) (l : list A) : IO unit :=
  match l with
  | [] => mret tt
  | x :: l' => f x ≫= λ _, forEach f l'
  end.

(** [toStringArray] (protocol.go) *)
Definition toStringArray (v : any) : list string :=
  match v with
  | Slice vv => omap (λ item, match item with Str str => Some str | _ => None end) vv
  | _ => []
  end.

(** [clampAny] (protocol.go), at [T = float64] *)
Definition clampAny (value min max : float64) : float64 :=
  if SFltb max value then max
  else if SFltb value min then min
  else value.

(** The body of the clamping loop of [PulseWithModel]:
    [v := output[i]; if v > ClampMax {v = ClampMax}; if v < ClampMin {v = ClampMin}] *)
Definition clamp (ClampMin ClampMax v : float64) : float64 :=
  let v := if SFltb ClampMax v then ClampMax else v in
  let v := if SFltb v ClampMin then ClampMin else v in
  v.

(** The loop at the end of [RefreshPosition], from index [i] on:
    [if val, ok := pos[i].(float64); ok { c.Position[i] = val }].
    The flag is false when the store panics (index out of range). *)
Fixpoint storePosition (i : nat) (pos : list any) (Position : list float64)
  : list float64 * bool :=
  match pos with
  | [] => (Position, true)
  | item :: pos' =>
      match item with
      | Float64 val =>
          if decide (i < length Position)
          then storePosition (S i) pos' (<[i := val]> Position)
          else (Position, false)
      | _ => storePosition (S i) pos' Position
      end
  end.

(** How the retry loop of [DestroyAllCubes] ends. *)
Inductive loopEnd :=
| Aborted      (* a [return] on a send or parse failure *)
| Cleared      (* the [break] at an empty cube list *)
| Exhausted.   (* [attempt > maxRetries] *)

Definition maxRetries : nat := 5.

(** The dynamic type of a value is [string]. *)
Definition isStr (v : any) : bool :=
  match v with Str _ => true | _ => false end.

(** The frames handed to [conn.Write] so far, oldest first. *)
Definition written (w : World) : list string :=
  omap (λ e, match e with Wrote _ data _ => Some data | _ => None end) (reverse w).

(** What went over the connections so far, oldest first: the frames handed
    to [conn.Write] and the bytes each [readResponse] got. *)
Inductive Frame :=
| Sent (data : string)
| Got (data : string).

Definition exchange (w : World) : list Frame :=
  omap (λ e, match e with
             | Wrote _ data _ => Some (Sent data)
             | Received _ data => Some (Got data)
             | _ => None
             end) (reverse w).

(** The events of a trace that are dials. *)
Definition dials (w : World) : nat :=
  length (List.filter (λ e, match e with Dialed _ _ => true | _ => false end) w).

(** Events that are writes and reads on the connection [k]. *)
Definition onConn (k : Conn) (evs : World) : Prop :=
  Forall (λ e, match e with
               | Wrote k' _ _ | Received k' _ => k' = k
               | _ => False
               end) evs.

(** The errors of [GetAllCubeNames], by the text [fmt.Errorf] puts in
    front of the cause. *)
Inductive namesError :=
| NamesConnectFailed | NamesAuthFailed | NamesRequestFailed
| NamesReadFailed | NamesParseError.

(** [const maxRetries = 3] of [UnfreezeAll] *)
Definition unfreezeRetries : nat := 3.

(** [time.Second], in nanoseconds *)
Definition Second : Z := 1000000000.

(** The first statement of [StartPulsing],
    [time.NewTicker(time.Second / time.Duration(actionsPerSecond))]: the
    period of the ticker in nanoseconds, [None] when the statement panics.
    The division is that of [int64]; it panics on a zero divisor and
    truncates toward zero.  [time.NewTicker] panics on a period that is
    not positive. *)
Definition tickerPeriod (actionsPerSecond : Z) : option Z :=
  if decide (actionsPerSecond = 0%Z) then None
  else let period := (Second `quot` actionsPerSecond)%Z in
       if decide (period ≤ 0)%Z then None else Some period.

(* ===================================================================== *)
(** * construct.go: the types                                             *)
(* ===================================================================== *)

Record Cube (Network : Type) := {
  Name : string;
  Position : list float64;
  UnitName : string;
  Model : option Network;       (* [*paragon.Network[T]]; [None] is nil *)
  ServerAddr : string;
  AuthPass : string;
  Delimiter : string;
  ClampMin : float64;
  ClampMax : float64;
  Debug : bool;
  conn : option Conn;           (* [net.Conn]; [None] is nil *)
}.

Record Construct (Network : Type) := {
  cServerAddr : string;
  cAuthPass : string;
  cDelimiter : string;
  Cubes : list (Cube Network);
  cClampMin : float64;
  cClampMax : float64;
}.

Arguments Build_Cube {Network}.
Arguments Name {Network}.
Arguments Position {Network}.
Arguments UnitName {Network}.
Arguments Model {Network}.
Arguments ServerAddr {Network}.
Arguments AuthPass {Network}.
Arguments Delimiter {Network}.
Arguments ClampMin {Network}.
Arguments ClampMax {Network}.
Arguments Debug {Network}.
Arguments conn {Network}.
Arguments Build_Construct {Network}.
Arguments cServerAddr {Network}.
Arguments cAuthPass {Network}.
Arguments cDelimiter {Network}.
Arguments Cubes {Network}.
Arguments cClampMin {Network}.
Arguments cClampMax {Network}.

Definition zero : float64 := S754_zero false.

(** [NewCube] *)
Definition NewCube {Network : Type} (name unitName : string) (pos : list float64)
    (model : option Network) (server pass delim : string) : Cube Network :=
  {| Name := name; UnitName := unitName; Position := pos; Model := model;
     ServerAddr := server; AuthPass := pass; Delimiter := delim;
     ClampMin := zero; ClampMax := zero; Debug := false; conn := None |}.

Definition setConn {Network : Type} (c : Cube Network) (k : option Conn) : Cube Network :=
  {| Name := Name c; UnitName := UnitName c; Position := Position c;
     Model := Model c; ServerAddr := ServerAddr c; AuthPass := AuthPass c;
     Delimiter := Delimiter c; ClampMin := ClampMin c; ClampMax := ClampMax c;
     Debug := Debug c; conn := k |}.

Definition setName {Network : Type} (c : Cube Network) (name : string) : Cube Network :=
  {| Name := name; UnitName := UnitName c; Position := Position c;
     Model := Model c; ServerAddr := ServerAddr c; AuthPass := AuthPass c;
     Delimiter := Delimiter c; ClampMin := ClampMin c; ClampMax := ClampMax c;
     Debug := Debug c; conn := conn c |}.

Definition setPosition {Network : Type} (c : Cube Network) (pos : list float64) : Cube Network :=
  {| Name := Name c; UnitName := UnitName c; Position := pos;
     Model := Model c; ServerAddr := ServerAddr c; AuthPass := AuthPass c;
     Delimiter := Delimiter c; ClampMin := ClampMin c; ClampMax := ClampMax c;
     Debug := Debug c; conn := conn c |}.

Definition setModel {Network : Type} (c : Cube Network) (model : option Network) : Cube Network :=
  {| Name := Name c; UnitName := UnitName c; Position := Position c;
     Model := model; ServerAddr := ServerAddr c; AuthPass := AuthPass c;
     Delimiter := Delimiter c; ClampMin := ClampMin c; ClampMax := ClampMax c;
     Debug := Debug c; conn := conn c |}.

(* ===================================================================== *)
(** * Instances of the collaborators: a codec, a model, servers           *)
(* ===================================================================== *)

(** The delimiter of the example program. *)
Definition exDelimiter : string := "<???DONE???---".

(** ** Writing JSON: strings without escapes, integers *)

Definition quote (s : string) : string := json "'" +:+ s +:+ json "'".

Definition encodeFloat (f : float64) : string :=
  match f with
  | S754_finite s m e =>
      (if s then "-" else "") +:+ pretty (Z.to_N (Z.shiftl (Zpos m) e))
  | S754_zero true => "-0"
  | _ => "0"
  end.

Definition encodeObject (members : list (string * string)) : string :=
  "{" +:+ String.concat ","
            ((λ m, quote m.1 +:+ ":" +:+ m.2)
               <$> merge_sort (λ a b, String.le a.1 b.1) members)
      +:+ "}".

Fixpoint encodeAny (v : any) : string :=
  match v with
  | Nil => "null"
  | Bool b => if b then "true" else "false"
  | Float64 f => encodeFloat f
  | Str s => quote s
  | Slice l => "[" +:+ String.concat "," (encodeAny <$> l) +:+ "]"
  | Map m => encodeObject (map_fold (λ key x acc, (key, encodeAny x) :: acc) [] m)
  | Float64s l => "[" +:+ String.concat "," (encodeFloat <$> l) +:+ "]"
  end.

Definition exEncode (msg : Message) : string := encodeAny (Map msg).

(** ** Reading JSON: objects, arrays, strings without escapes, integers,
    true, false and null *)

Definition isBlank (c : ascii) : bool :=
  bool_decide (c ∈ [" "; "009"; "010"; "013"]%char).

Fixpoint skipBlank (s : string) : string :=
  match s with
  | String c r => if isBlank c then skipBlank r else s
  | "" => ""
  end.

(** The text up to the closing quote, and what follows it. *)
Fixpoint untilQuote (s : string) : option (string * string) :=
  match s with
  | "" => None
  | String c r =>
      if decide (c = "034"%char) then Some ("", r)
      else if decide (c = "\"%char) then None
      else '(t, rest) ← untilQuote r; Some (String c t, rest)
  end.

Fixpoint readDigits (s : string) (acc : option N) : option N * string :=
  match s with
  | String c r =>
      let d := N_of_ascii c in
      if (48 <=? d)%N && (d <=? 57)%N
      then readDigits r (Some (default 0%N acc * 10 + (d - 48))%N)
      else (acc, s)
  | "" => (acc, "")
  end.

Definition readNumber (s : string) : option (Z * string) :=
  let '(neg, s) := match s with
                   | String c r => if decide (c = "-"%char) then (true, r) else (false, s)
                   | "" => (false, s)
                   end in
  match readDigits s None with
  | (Some n, rest) =>
      if HasPrefix rest "." || HasPrefix rest "e" || HasPrefix rest "E" then None
      else Some (if neg : bool then (- Z.of_N n)%Z else Z.of_N n, rest)
  | (None, _) => None
  end.

Fixpoint readValue (fuel : nat) (s : string) : option (any * string) :=
  match fuel with
  | O => None
  | S fuel =>
      match skipBlank s with
      | "" => None
      | String c r as s =>
          if decide (c = "{"%char) then
            if HasPrefix (skipBlank r) "}" then Some (Map ∅, Strings.drop 1 (skipBlank r))
            else readMembers fuel r ∅
          else if decide (c = "["%char) then
            if HasPrefix (skipBlank r) "]" then Some (Slice [], Strings.drop 1 (skipBlank r))
            else readElements fuel r []
          else if decide (c = "034"%char) then
            '(str, rest) ← untilQuote r; Some (Str str, rest)
          else if HasPrefix s "true" then Some (Bool true, Strings.drop 4 s)
          else if HasPrefix s "false" then Some (Bool false, Strings.drop 5 s)
          else if HasPrefix s "null" then Some (Nil, Strings.drop 4 s)
          else '(z, rest) ← readNumber s; Some (Float64 (ofZ z), rest)
      end
  end
with readElements (fuel : nat) (s : string) (acc : list any) : option (any * string) :=
  match fuel with
  | O => None
  | S fuel =>
      '(v, rest) ← readValue fuel s;
      match skipBlank rest with
      | String c r =>
          if decide (c = ","%char) then readElements fuel r (acc ++ [v])
          else if decide (c = "]"%char) then Some (Slice (acc ++ [v]), r)
          else None
      | "" => None
      end
  end
with readMembers (fuel : nat) (s : string) (acc : gmap string any) : option (any * string) :=
  match fuel with
  | O => None
  | S fuel =>
      match skipBlank s with
      | String c r =>
          if decide (c = "034"%char) then
            '(key, rest) ← untilQuote r;
            match skipBlank rest with
            | String c1 r1 =>
                if decide (c1 = ":"%char) then
                  '(v, rest) ← readValue fuel r1;
                  match skipBlank rest with
                  | String c2 r2 =>
                      if decide (c2 = ","%char) then readMembers fuel r2 (<[key := v]> acc)
                      else if decide (c2 = "}"%char) then Some (Map (<[key := v]> acc), r2)
                      else None
                  | "" => None
                  end
                else None
            | "" => None
            end
          else None
      | "" => None
      end
  end.

(** [json.Unmarshal] into a [map[string]interface{}]: an object, or null,
    which leaves the map nil. *)
Definition exUnmarshal (raw : string) : option (gmap string any) :=
  match readValue (S (String.length raw)) raw with
  | Some (Map m, rest) => if decide (skipBlank rest = "") then Some m else None
  | Some (Nil, rest) => if decide (skipBlank rest = "") then Some ∅ else None
  | _ => None
  end.

(** ** A decision function, a cube and servers *)

(** A network that answers with the position it is given. *)
Definition exForward (net : list float64) (input : list (list float64)) : list float64 :=
  concat input.

Definition exGetOutput (net : list float64) : list float64 := net.

Definition exCube : Cube (list float64) :=
  {| Name := "cube_hello_0"; Position := [ofZ 0; ofZ 120; ofZ 10];
     UnitName := "HelloUnit"; Model := Some [];
     ServerAddr := "localhost:14000"; AuthPass := "my_secure_password";
     Delimiter := exDelimiter; ClampMin := ofZ (-20); ClampMax := ofZ 20;
     Debug := false; conn := None |}.

Definition exConstruct : Construct (list float64) :=
  {| cServerAddr := "localhost:14000"; cAuthPass := "my_secure_password";
     cDelimiter := exDelimiter; Cubes := [exCube];
     cClampMin := ofZ (-20); cClampMax := ofZ 20 |}.

(** A cube whose position has two components only, and a heap of two
    cubes. *)
Definition exFlatCube : Cube (list float64) := setPosition exCube [ofZ 0; ofZ 120].

(** A cube whose bounds are the wrong way round, on its connection. *)
Definition exInvertedCube : Cube (list float64) :=
  {| Name := "cube_hello_0_BASE"; Position := [ofZ 0; ofZ 120; ofZ 10];
     UnitName := "HelloUnit"; Model := Some [];
     ServerAddr := "localhost:14000"; AuthPass := "my_secure_password";
     Delimiter := exDelimiter; ClampMin := ofZ 20; ClampMax := ofZ (-20);
     Debug := false; conn := Some 1%nat |}.

Definition exHeap : gmap nat (Cube (list float64)) :=
  {[ 0%nat := exCube; 1%nat := setName exCube "cube_hello_1" ]}.

(** What a server answers to the last frame written to it. *)
Definition answer (request : string) : string :=
  (if Contains request "get_cube_list" then json "{'cubes':['cube_hello_0_BASE']}"
   else if Contains request "get_cube_state" then json "{'position':[1,null,-3]}"
   else json "{'status':'ok'}")
  +:+ exDelimiter.

(** A server that takes every connection and every write. *)
Definition exServer : Environment :=
  {| dial_ok _ _ := true;
     write_ok _ _ _ := true;
     delivers w _ := match w with
                     | Wrote _ request _ :: _ => answer request
                     | _ => ""
                     end |}.

(** A server on which a cube is there whenever the list is asked for. *)
Definition exStubbornServer : Environment :=
  {| dial_ok _ _ := true;
     write_ok _ _ _ := true;
     delivers _ _ := json "{'cubes':['cube_hello_0_BASE']}" +:+ exDelimiter |}.


(** A server whose connection breaks when the spawn command is written. *)
Definition exBrokenServer : Environment :=
  {| dial_ok _ _ := true;
     write_ok _ _ data := negb (Contains data "spawn_cube");
     delivers _ _ := json "{'status':'ok'}" +:+ exDelimiter |}.

(* ===================================================================== *)
(** * protocol.go, cube.go, construct.go: the code                        *)
(* ===================================================================== *)

Section construct.

(** ** Collaborators outside the package *)

(** [encoding/json]: the text [json.Marshal] gives for a value it
    supports, and [json.Unmarshal] into a [map[string]interface{}]
    ([None]: it returns an error). *)
Variable Encode : Message → string.
Variable Unmarshal : string → option (gmap string any).

(** PARAGON: the state of a [paragon.Network], [Forward] and [GetOutput]. *)
Variable Network : Type.
Variable Forward : Network → list (list float64) → Network.
Variable GetOutput : Network → list float64.

Variable env : Environment.

(** [json.Marshal(msg)] *)
Definition Marshal (msg : Message) : option string :=
  if unsupported (Map msg) then None else Some (Encode msg).

(** ** The primitives of package [net] *)

(** [net.Dial("tcp", addr)]: on success, a connection that is new. *)
Definition Dial (addr : string) : IO (option Conn) := λ w,
  if dial_ok env w addr
  then (Some (fresh w), Dialed addr (Some (fresh w)) :: w)
  else (None, Dialed addr None :: w).

(** [conn.Write(data)]: fails on a closed connection. *)
Definition Write (c : Conn) (data : string) : IO bool := λ w,
  let ok := negb (isClosed w c) && write_ok env w c data in
  (ok, Wrote c data ok :: w).

(** [conn.Close()] *)
Definition Close (c : Conn) : IO unit := λ w, (tt, Closed c :: w).

(** ** protocol.go *)

(** [readResponse(conn, delimiter)] on a connection of the network: the
    function [readResponse] above, run on the bytes the connection delivers
    to this call.  A closed connection delivers nothing. *)
Definition receive (c : Conn) (delimiter : string) : IO (string * option ioError) := λ w,
  let incoming := if isClosed w c then "" else delivers env w c in
  (readResponse incoming delimiter, Received c incoming :: w).

(** [sendJSONMessage(conn, msg, delimiter)] *)
Definition sendJSONMessage (c : Conn) (msg : Message) (delimiter : string)
  : IO (option error) :=
  match Marshal msg with
  | None => mret (Some UnsupportedValue)
  | Some data =>
      ok ← Write c (data +:+ delimiter);
      mret (if ok : bool then None else Some NetError)
  end.

(** ** cube.go *)

(** [(c *Cube[T]) Spawn()].  The cube behind the pointer is passed in and
    handed back. *)
Definition Spawn (c : Cube Network) : IO (result * Cube Network) :=
  dialed ← Dial (ServerAddr c);
  match dialed with
  | None => mret (Return (Some (CubeError ConnectFailed (Name c))), c)
  | Some k =>
      ok ← Write k (AuthPass c +:+ Delimiter c);
      if negb ok then
        _ ← Close k;
        mret (Return (Some (CubeError AuthFailed (Name c))), c)
      else
        _ ← receive k (Delimiter c);
        let c := setConn c (Some k) in
        let cmd : Message :=
          {[ "type" := Str "spawn_cube";
             "cube_name" := Str (Name c);
             "position" := Float64s (Position c);
             "rotation" := Float64s [zero; zero; zero];
             "is_base" := Bool true ]} in
        err ← sendJSONMessage k cmd (Delimiter c);
        match err with
        | Some _ =>
            _ ← Close k;
            mret (Return (Some (CubeError SpawnFailed (Name c))), c)
        | None =>
            let c := setName c (Name c +:+ "_BASE") in
            (* the Printf reads Position[0], [1] and [2] *)
            if decide (length (Position c) < 3) then mret (Panic, c)
            else mret (Return None, c)
        end
  end.

(** The command [Spawn] sends for the cube [c]. *)
Definition spawnCommand (c : Cube Network) : Message :=
  {[ "type" := Str "spawn_cube";
     "cube_name" := Str (Name c);
     "position" := Float64s (Position c);
     "rotation" := Float64s [zero; zero; zero];
     "is_base" := Bool true ]}.

(** [(c *Cube[T]) Despawn()]: the deferred [Close] runs on every path
    after the dial. *)
Definition Despawn (c : Cube Network) : IO (result * Cube Network) :=
  dialed ← Dial (ServerAddr c);
  match dialed with
  | None => mret (Return (Some (CubeError ConnectFailed (Name c))), c)
  | Some k =>
      ok ← Write k (AuthPass c +:+ Delimiter c);
      if negb ok then
        _ ← Close k;
        mret (Return (Some (CubeError AuthFailed (Name c))), c)
      else
        _ ← receive k (Delimiter c);
        let cmd : Message :=
          {[ "type" := Str "despawn_cube"; "cube_name" := Str (Name c) ]} in
        err ← sendJSONMessage k cmd (Delimiter c);
        _ ← Close k;
        match err with
        | Some _ => mret (Return (Some (CubeError SendFailed (Name c))), c)
        | None => mret (Return None, c)
        end
  end.

(** [(c *Cube[T]) RefreshPosition()] *)
Definition RefreshPosition (c : Cube Network) : IO (result * Cube Network) :=
  match conn c with
  | None => mret (Return (Some (CubeError NoConnection (Name c))), c)
  | Some k =>
      let request : Message := {[ "type" := Str "get_cube_state" ]} in
      err ← sendJSONMessage k request (Delimiter c);
      match err with
      | Some _ => mret (Return (Some (CubeError StateRequestFailed (Name c))), c)
      | None =>
          '(raw, err) ← receive k (Delimiter c);
          match err with
          | Some _ => mret (Return (Some (CubeError StateReadFailed (Name c))), c)
          | None =>
              match Unmarshal raw with
              | None => mret (Return (Some (CubeError JSONParseError (Name c))), c)
              | Some state =>
                  match index state "position" with
                  | Slice pos =>
                      if decide (length pos ≠ 3)
                      then mret (Return (Some (CubeError InvalidPosition (Name c))), c)
                      else
                        let '(Position', stored) := storePosition 0 pos (Position c) in
                        mret (if stored : bool then Return None else Panic,
                              setPosition c Position')
                  | _ => mret (Return (Some (CubeError InvalidPosition (Name c))), c)
                  end
              end
          end
      end
  end.

(** The message [PulseWithModel] sends. *)
Definition applyForce (force : list float64) : Message :=
  {[ "type" := Str "apply_force"; "force" := Float64s force ]}.

(** [(c *Cube[T]) PulseWithModel()] *)
Definition PulseWithModel (c : Cube Network) : IO (result * Cube Network) :=
  match conn c with
  | None => mret (Return (Some (CubeError NoConnection (Name c))), c)
  | Some k =>
      match Position c with
      | p0 :: p1 :: p2 :: _ =>
          let input := [[p0; p1; p2]] in
          match Model c with
          | None => mret (Panic, c)
          | Some net =>
              let net := Forward net input in
              let c := setModel c (Some net) in
              let output := GetOutput net in
              if decide (length output < 3)
              then mret (Return (Some (CubeError OutputTooShort (Name c))), c)
              else
                let force := clamp (ClampMin c) (ClampMax c) <$> take 3 output in
                err ← sendJSONMessage k (applyForce force) (Delimiter c);
                match err with
                | Some _ => mret (Return (Some (CubeError ApplyForceFailed (Name c))), c)
                | None => RefreshPosition c
                end
          end
      | _ => mret (Panic, c)
      end
  end.

(** ** construct.go: [DestroyAllCubes] *)

(** The retry loop, entered with [budget] attempts left and the loop
    variable at [attempt].  It hands back the number of the last attempt it
    made and how it ended. *)
Fixpoint destroyLoop (budget attempt : nat) (k : Conn) (delimiter : string)
  : IO (nat * loopEnd) :=
  match budget with
  | O => mret (attempt - 1, Exhausted)
  | S budget' =>
      err ← sendJSONMessage k {[ "type" := Str "get_cube_list" ]} delimiter;
      match err with
      | Some _ => mret (attempt, Aborted)
      | None =>
          '(raw, err) ← receive k delimiter;
          match err with
          | Some _ => mret (attempt, Aborted)
          | None =>
              match Unmarshal raw with
              | None => mret (attempt, Aborted)
              | Some cubeData =>
                  let cubes := toStringArray (index cubeData "cubes") in
                  if decide (length cubes = 0) then mret (attempt, Cleared)
                  else
                    _ ← forEach (λ cube,
                           _ ← sendJSONMessage k
                                 {[ "type" := Str "despawn_cube";
                                    "cube_name" := Str cube ]} delimiter;
                           mret tt) cubes;
                    destroyLoop budget' (S attempt) k delimiter
              end
          end
      end
  end.

(** [(c *Construct[T]) DestroyAllCubes()].  The result, which the Go
    function does not have, tells how many attempts were made and how the
    loop ended; [None] when the loop was not reached. *)
Definition DestroyAllCubes (c : Construct Network) : IO (option (nat * loopEnd)) :=
  dialed ← Dial (cServerAddr c);
  match dialed with
  | None => mret None
  | Some k =>
      ok ← Write k (cAuthPass c +:+ cDelimiter c);
      if negb ok then
        _ ← Close k; mret None
      else
        _ ← receive k (cDelimiter c);
        r ← destroyLoop maxRetries 1 k (cDelimiter c);
        _ ← Close k;
        mret (Some r)
  end.

(** The response [answer] parses to an object whose "cubes" holds the
    names [names]. *)
Definition listsCubes (delimiter answer : string) (names : list string) : Prop :=
  ∃ cubeData,
    Unmarshal (readResponse answer delimiter).1 = Some cubeData ∧
    toStringArray (index cubeData "cubes") = names.

(** What an attempt of [DestroyAllCubes] that goes through puts on the
    connection: the list request, the response [round.1] it reads, and a
    [despawn_cube] command for each of the names [round.2]. *)
Definition despawnRound (delimiter : string) (round : string * list string)
  : list Frame :=
  Sent (Encode {[ "type" := Str "get_cube_list" ]} +:+ delimiter)
  :: Got round.1
  :: ((λ cube, Sent (Encode {[ "type" := Str "despawn_cube";
                              "cube_name" := Str cube ]} +:+ delimiter))
        <$> round.2).

(** ** construct.go: [UnfreezeAll] *)

(** The retry loop of [UnfreezeAll], entered with [budget] attempts left
    and the loop variable at [attempt].  [Cleared] is the [return] at an
    empty cube list. *)
Fixpoint unfreezeLoop (budget attempt : nat) (k : Conn) (delimiter : string)
  : IO (nat * loopEnd) :=
  match budget with
  | O => mret (attempt - 1, Exhausted)
  | S budget' =>
      err ← sendJSONMessage k {[ "type" := Str "get_cube_list" ]} delimiter;
      match err with
      | Some _ => mret (attempt, Aborted)
      | None =>
          '(raw, err) ← receive k delimiter;
          match err with
          | Some _ => mret (attempt, Aborted)
          | None =>
              match Unmarshal raw with
              | None => mret (attempt, Aborted)
              | Some cubeData =>
                  let cubes := toStringArray (index cubeData "cubes") in
                  if decide (length cubes = 0) then mret (attempt, Cleared)
                  else
                    _ ← forEach (λ cube,
                           _ ← sendJSONMessage k
                                 {[ "type" := Str "freeze_cube";
                                    "cube_name" := Str cube;
                                    "freeze" := Bool false ]} delimiter;
                           mret tt) cubes;
                    unfreezeLoop budget' (S attempt) k delimiter
              end
          end
      end
  end.

(** [(c *Construct[T]) UnfreezeAll()], with the number of the last attempt
    and the way the loop ended as its result; [None] when the loop was not
    reached. *)
Definition UnfreezeAll (c : Construct Network) : IO (option (nat * loopEnd)) :=
  dialed ← Dial (cServerAddr c);
  match dialed with
  | None => mret None
  | Some k =>
      ok ← Write k (cAuthPass c +:+ cDelimiter c);
      if negb ok then
        _ ← Close k; mret None
      else
        _ ← receive k (cDelimiter c);
        r ← unfreezeLoop unfreezeRetries 1 k (cDelimiter c);
        _ ← Close k;
        mret (Some r)
  end.

(** ** construct.go: [GetAllCubeNames] *)

(** [GetAllCubeNames] from the request on.  The first component is the
    slice it returns, [None] for nil. *)
Definition requestNames (k : Conn) (delimiter : string)
  : IO (option (list string) * option namesError) :=
  err ← sendJSONMessage k {[ "type" := Str "get_cube_list" ]} delimiter;
  match err with
  | Some _ => mret (None, Some NamesRequestFailed)
  | None =>
      '(raw, err) ← receive k delimiter;
      match err with
      | Some _ => mret (None, Some NamesReadFailed)
      | None =>
          match Unmarshal raw with
          | None => mret (None, Some NamesParseError)
          | Some cubeData =>
              mret (Some (toStringArray (index cubeData "cubes")), None)
          end
      end
  end.

(** [(c *Construct[T]) GetAllCubeNames()]: the deferred [Close] runs on
    every path after the dial. *)
Definition GetAllCubeNames (c : Construct Network)
  : IO (option (list string) * option namesError) :=
  dialed ← Dial (cServerAddr c);
  match dialed with
  | None => mret (None, Some NamesConnectFailed)
  | Some k =>
      ok ← Write k (cAuthPass c +:+ cDelimiter c);
      if negb ok then
        _ ← Close k; mret (None, Some NamesAuthFailed)
      else
        _ ← receive k (cDelimiter c);
        r ← requestNames k (cDelimiter c);
        _ ← Close k;
        mret r
  end.

(** ** construct.go: [SpawnAll] *)

(** [c.Cubes] is a slice of pointers, and [SpawnAll] writes to the cubes
    behind them.  Here the cubes live in a heap: a pointer is a key of the
    heap, and a pointer the heap has no cube for is nil.  The same pointer
    can be in the slice more than once. *)
Definition Heap : Type := gmap nat (Cube Network).

(** [(c *Construct[T]) SpawnAll()] on the pointers [cubes] of [c.Cubes].
    The error of a [Spawn] is printed and the loop goes on; a panic (of
    [Spawn], or of the call on a nil pointer, which reads [c.ServerAddr])
    unwinds the loop. *)
Fixpoint SpawnAll (cubes : list nat) (heap : Heap) : IO (result * Heap) :=
  match cubes with
  | [] => mret (Return None, heap)
  | cube :: cubes' =>
      match heap !! cube with
      | None => mret (Panic, heap)
      | Some c =>
          '(r, c') ← Spawn c;
          let heap := <[cube := c']> heap in
          match r with
          | Panic => mret (Panic, heap)
          | Return _ => SpawnAll cubes' heap
          end
      end
  end.

(** The round trip as C1 states it, for one delimiter and one message:
    whenever the message is written, reading the written bytes gives a text
    that parses to what the text of the message parses to. *)
Definition round_trip_as_stated (delimiter : string) (M : Message) : Prop :=
  ∀ data parsed k w,
    Marshal M = Some data →
    Unmarshal data = Some parsed →
    Contains data delimiter = false →
    (sendJSONMessage k M delimiter w).1 = None →
    ∃ bytes,
      (sendJSONMessage k M delimiter w).2 = Wrote k bytes true :: w ∧
      Unmarshal (readResponse bytes delimiter).1 = Some parsed.


(* ===================================================================== *)
(** * The definitions on small inputs                                     *)
(* ===================================================================== *)

Example Contains_ex :
  Contains "<???DONE???---" "?--" = true ∧ Contains "abc" "" = true ∧
  Contains "" "a" = false ∧ Contains "ab-" "b-c" = false.
Proof. by vm_compute. Qed.

Example ReplaceAll_ex :
  ReplaceAll "a--b--" "--" = "ab" ∧ ReplaceAll "aaa" "aa" = "a" ∧
  ReplaceAll "xyz" "" = "xyz" ∧ ReplaceAll "aabb" "ab" = "ab".
Proof. by vm_compute. Qed.

Example TrimSpace_ex :
  TrimSpace (utf8 [32; 9; 123; 32; 125; 13; 10]) = "{ }" ∧
  TrimSpace (utf8 [194; 160; 120; 227; 128; 128; 32]) = "x" ∧
  TrimSpace (utf8 [194; 120; 128]) = utf8 [194; 120; 128] ∧
  TrimSpace "   " = "".
Proof. by vm_compute. Qed.

Example ReadString_ex :
  ReadString "ab-cd-e" "-" = ("ab-", None, "cd-e") ∧
  ReadString "abc" "-" = ("abc", Some ReadError, "").
Proof. by vm_compute. Qed.

(** With a delimiter that fits into one line the loop stops at it and
    leaves the rest of the stream; with the delimiter of the example
    program it runs to the end of the stream. *)
Example readResponse_ex :
  readResponse "x=1;END-y=2;END-" "END-" = ("x=1;", None) ∧
  readLoop "x=1;END-y=2;END-" "END-" "" = ("x=1;END-", DelimiterSeen) ∧
  readResponse "x=1;<???DONE???---y=2;<???DONE???---z" "<???DONE???---"
  = ("x=1;y=2;", None) ∧
  readLoop "x=1;<???DONE???---y" "<???DONE???---" ""
  = ("x=1;<???DONE???---", ReadFailed).
Proof. by vm_compute. Qed.

Example clamp_ex :
  clamp (ofZ (-20)) (ofZ 20) (ofZ 120) = ofZ 20 ∧
  clamp (ofZ (-20)) (ofZ 20) (ofZ (-21)) = ofZ (-20) ∧
  clamp (ofZ (-20)) (ofZ 20) (ofZ 7) = ofZ 7 ∧
  clamp (ofZ (-20)) (ofZ 20) S754_nan = S754_nan ∧
  clamp (ofZ (-20)) (ofZ 20) (S754_infinity true) = ofZ (-20) ∧
  clamp (ofZ 5) (ofZ 1) (ofZ 3) = ofZ 5.
Proof. by vm_compute. Qed.

Example toStringArray_ex :
  toStringArray (Slice [Str "a"; Float64 (ofZ 1); Nil; Str "b"]) = ["a"; "b"] ∧
  toStringArray Nil = [] ∧ toStringArray (Str "a") = [] ∧
  toStringArray (Float64s [ofZ 1]) = [].
Proof. by vm_compute. Qed.

Example clampAny_ex :
  clampAny (ofZ 120) (ofZ (-20)) (ofZ 20) = ofZ 20 ∧
  clampAny (ofZ (-21)) (ofZ (-20)) (ofZ 20) = ofZ (-20) ∧
  clampAny S754_nan (ofZ (-20)) (ofZ 20) = S754_nan ∧
  clampAny (ofZ 3) (ofZ 5) (ofZ 1) = ofZ 1 ∧
  clamp (ofZ 5) (ofZ 1) (ofZ 3) = ofZ 5.
Proof. by vm_compute. Qed.

Example tickerPeriod_ex :
  tickerPeriod 100 = Some 10000000%Z ∧ tickerPeriod 3 = Some 333333333%Z ∧
  tickerPeriod 600000000 = Some 1%Z ∧ tickerPeriod 1000000001 = None ∧
  tickerPeriod 0 = None ∧ tickerPeriod (-5) = None.
Proof. by vm_compute. Qed.

Example framed_ex :
  framed "<END-" ["{a}"; "{b}"] = "{a}<END-{b}<END-" ∧ joined ["{a}"; "{b}"] = "{a}{b}" ∧
  framed "<END-" [] = "".
Proof. by vm_compute. Qed.

Example written_ex :
  let w := [Closed 1; Wrote 1 "b" false; Received 1 "x"; Wrote 1 "a" true;
            Dialed "host" (Some 1%nat); Dialed "host" None] in
  written w = ["a"; "b"] ∧ dials w = 2%nat ∧ reads w = 1%nat ∧
  isClosed w 1 = true ∧ fresh w = 2%nat.
Proof. by vm_compute. Qed.

Example storePosition_ex :
  storePosition 0 [Float64 (ofZ 1); Str "x"; Float64 (ofZ 3)] [ofZ 7; ofZ 8; ofZ 9]
  = ([ofZ 1; ofZ 8; ofZ 3], true) ∧
  storePosition 0 [Float64 (ofZ 1); Float64 (ofZ 2); Float64 (ofZ 3)] [ofZ 7]
  = ([ofZ 1], false) ∧
  storePosition 0 [Nil; Nil; Bool true] [] = ([], true).
Proof. by vm_compute. Qed.

(* ===================================================================== *)
(** * Facts about byte strings                                            *)
(* ===================================================================== *)

Section string_facts.
Implicit Types (s t d : string) (c : ascii).

Lemma app_nil_l s : "" +:+ s = s.
Proof. reflexivity. Qed.

Lemma app_cons c s t : String c s +:+ t = String c (s +:+ t).
Proof. reflexivity. Qed.

Lemma app_nil_r s : s +:+ "" = s.
Proof. induction s as [|c s IH]; [done|]. by rewrite app_cons, IH. Qed.

Lemma app_assoc s t d : (s +:+ t) +:+ d = s +:+ (t +:+ d).
Proof. induction s as [|c s IH]; [done|]. by rewrite !app_cons, IH. Qed.

Lemma length_app s t : String.length (s +:+ t) = String.length s + String.length t.
Proof. induction s as [|c s IH]; [done|]. rewrite app_cons. simpl. by rewrite IH. Qed.

Lemma app_eq_nil s t : s +:+ t = "" → s = "" ∧ t = "".
Proof. destruct s; [done|]. rewrite app_cons. discriminate. Qed.

(** A string that ends with the byte [c] and is split in two with a
    non-empty second part: that part ends with [c]. *)
Lemma snoc_eq_app s c t d :
  s +:+ String c "" = t +:+ d → d ≠ "" →
  ∃ d', d = d' +:+ String c "" ∧ s = t +:+ d'.
Proof.
  revert t. induction s as [|a s IH]; intros t H Hd.
  - rewrite app_nil_l in H. destruct t as [|b t].
    + rewrite app_nil_l in H. exists "". by rewrite app_nil_l.
    + rewrite app_cons in H. injection H as _ H. symmetry in H.
      apply app_eq_nil in H as [_ ?]. done.
  - destruct t as [|b t].
    + rewrite app_nil_l in H. exists (String a s). by rewrite app_nil_l.
    + rewrite !app_cons in H. injection H as -> H.
      destruct (IH _ H Hd) as (d' & -> & ->). by exists d'.
Qed.

Lemma HasPrefix_nil s : HasPrefix s "" = true.
Proof. by destruct s. Qed.

Lemma HasPrefix_spec s d : HasPrefix s d = true ↔ ∃ t, s = d +:+ t.
Proof.
  unfold HasPrefix. revert s. induction d as [|c d IH]; intros s.
  - split; [|by destruct s]. intros _. by exists s.
  - destruct s as [|a s]; simpl.
    + split; [done|]. intros [t H]. rewrite app_cons in H. discriminate.
    + destruct (ascii_dec c a) as [->|Hne].
      * rewrite IH. split; intros [t H]; exists t.
        -- by rewrite app_cons, H.
        -- rewrite app_cons in H. by injection H.
      * split; [done|]. intros [t H]. rewrite app_cons in H. congruence.
Qed.

Lemma HasPrefix_refl s : HasPrefix s s = true.
Proof. apply HasPrefix_spec. exists "". by rewrite app_nil_r. Qed.

Lemma HasPrefix_length s d : HasPrefix s d = true → (String.length d ≤ String.length s)%nat.
Proof. intros [t ->]%HasPrefix_spec. rewrite length_app. lia. Qed.

(** Bytes added behind the first [length d] ones do not change the test. *)
Lemma HasPrefix_app_long s t d :
  (String.length d ≤ String.length s)%nat → HasPrefix (s +:+ t) d = HasPrefix s d.
Proof.
  unfold HasPrefix. revert s. induction d as [|c d IH]; intros s Hlen.
  - by rewrite !(HasPrefix_nil _ : String.prefix "" _ = true).
  - destruct s as [|a s]; simpl in Hlen; [lia|].
    rewrite app_cons. simpl. destruct (ascii_dec c a); [|done].
    apply IH. lia.
Qed.

Lemma Contains_nil d : Contains "" d = HasPrefix "" d.
Proof. simpl. apply orb_false_r. Qed.

Lemma Contains_cons c s d :
  Contains (String c s) d = HasPrefix (String c s) d || Contains s d.
Proof. reflexivity. Qed.

Lemma cut_cons c s d :
  cut 0 (String c s) d =
  if HasPrefix (String c s) d then cut (String.length d - 1) s d
  else String c (cut 0 s d).
Proof. reflexivity. Qed.

Lemma Contains_spec s d :
  Contains s d = true ↔ ∃ pre post, s = pre +:+ d +:+ post.
Proof.
  induction s as [|a s IH].
  - rewrite Contains_nil, HasPrefix_spec. split.
    + intros [t H]. by exists "", t.
    + intros (pre & post & H). symmetry in H.
      apply app_eq_nil in H as [-> H]. apply app_eq_nil in H as [-> ->].
      by exists "".
  - rewrite Contains_cons, orb_true_iff, HasPrefix_spec, IH. split.
    + intros [[t H]|(pre & post & H)].
      * by exists "", t.
      * exists (String a pre), post. by rewrite app_cons, H.
    + intros (pre & post & H). destruct pre as [|b pre].
      * left. by exists post.
      * right. rewrite app_cons in H. injection H as -> H. by exists pre, post.
Qed.

Lemma Contains_false_app s t d u :
  Contains (s +:+ t +:+ u) d = false → Contains t d = false.
Proof.
  intros H. destruct (Contains t d) eqn:E; [|done].
  apply Contains_spec in E as (pre & post & ->).
  rewrite <- H. symmetry. apply Contains_spec.
  exists (s +:+ pre), (post +:+ u). by rewrite !app_assoc.
Qed.

Lemma Contains_false_prefix s t d : Contains (s +:+ t) d = false → Contains s d = false.
Proof.
  intros H. by apply (Contains_false_app "" s d t).
Qed.

Lemma Contains_false_suffix s t d : Contains (s +:+ t) d = false → Contains t d = false.
Proof.
  intros H. apply (Contains_false_app s t d ""). by rewrite app_nil_r.
Qed.

(** A string without the byte [c] does not end with it. *)
Lemma no_byte_snoc s c : Contains (s +:+ String c "") (String c "") = false → False.
Proof.
  intros H. assert (Contains (s +:+ String c "") (String c "") = true) as H'; [|congruence].
  apply Contains_spec. exists s, "". by rewrite app_nil_r.
Qed.

Lemma cut_skip_all k s d : (String.length s ≤ k)%nat → cut k s d = "".
Proof.
  revert k. induction s as [|a s IH]; intros k Hk; [done|].
  simpl in *. destruct k; [lia|]. apply IH. lia.
Qed.

Lemma cut_no_occurrence s d : Contains s d = false → cut 0 s d = s.
Proof.
  induction s as [|a s IH]; [done|]. rewrite Contains_cons, cut_cons.
  intros [H1 H2]%orb_false_iff. rewrite H1. by rewrite IH.
Qed.

Lemma ReplaceAll_no_occurrence s d : Contains s d = false → ReplaceAll s d = s.
Proof. unfold ReplaceAll. case_decide; [done|]. apply cut_no_occurrence. Qed.

(** The delimiter closes the text and occurs nowhere before its last
    byte: removing it gives the text before it. *)
Lemma cut_trailing s d0 c :
  Contains (s +:+ d0) (d0 +:+ String c "") = false →
  cut 0 (s +:+ (d0 +:+ String c "")) (d0 +:+ String c "") = s.
Proof.
  set (d := d0 +:+ String c "").
  assert (String.length d = S (String.length d0)) as Hd.
  { unfold d. rewrite length_app. simpl. lia. }
  induction s as [|a s IH]; intros H.
  - rewrite app_nil_l. destruct d as [|b d'] eqn:E; [done|].
    rewrite cut_cons, HasPrefix_refl. apply cut_skip_all. simpl in *. lia.
  - rewrite app_cons, Contains_cons in H. apply orb_false_iff in H as [H1 H2].
    rewrite app_cons, cut_cons.
    assert (String a (s +:+ d) = String a (s +:+ d0) +:+ String c "") as ->.
    { unfold d. by rewrite app_cons, app_assoc. }
    rewrite HasPrefix_app_long, H1.
    + by rewrite IH.
    + simpl. rewrite length_app. lia.
Qed.

Lemma rev_app_app s t acc :
  String.rev_app (s +:+ t) acc = String.rev_app t (String.rev_app s acc).
Proof. revert acc. induction s as [|a s IH]; intros acc; [done|]. rewrite app_cons. simpl. apply IH. Qed.

Lemma rev_app_acc s acc : String.rev_app s acc = String.rev s +:+ acc.
Proof.
  unfold String.rev. revert acc. induction s as [|a s IH]; intros acc; [done|].
  simpl. rewrite IH, (IH (String a "")), app_assoc. done.
Qed.

Lemma rev_snoc s c : String.rev (s +:+ String c "") = String c (String.rev s).
Proof. unfold String.rev. by rewrite rev_app_app. Qed.

Lemma rev_cons c s : String.rev (String c s) = String.rev s +:+ String c "".
Proof. unfold String.rev at 1. simpl. apply rev_app_acc. Qed.

Lemma rev_involutive s : String.rev (String.rev s) = s.
Proof.
  induction s as [|a s IH]; [done|]. by rewrite rev_cons, rev_snoc, IH.
Qed.

Lemma rev_length s : String.length (String.rev s) = String.length s.
Proof.
  induction s as [|a s IH]; [done|]. rewrite rev_cons, length_app, IH. simpl. lia.
Qed.

Lemma trimLeft_none ws rounds s :
  leadingSpace ws s = None → trimLeft ws rounds s = s.
Proof. intros H. destruct rounds; [done|]. simpl. by rewrite H. Qed.

Lemma drop_app s t : Strings.drop (String.length s) (s +:+ t) = t.
Proof. induction s as [|a s IH]; [by destruct t|]. by rewrite app_cons. Qed.

(** The rounds of [trimLeft] are enough: what it returns starts with no
    white space. *)
Lemma trimLeft_done ws : (∀ sp, sp ∈ ws → sp ≠ "") →
  ∀ rounds s, (String.length s ≤ rounds)%nat →
    leadingSpace ws (trimLeft ws rounds s) = None.
Proof.
  intros Hws. induction rounds as [|rounds IH]; intros s Hlen.
  - destruct s; [|simpl in Hlen; lia]. simpl. unfold leadingSpace.
    destruct (find (HasPrefix "") ws) as [sp|] eqn:E; [|done].
    apply find_some in E as [Hin Hp%HasPrefix_length].
    apply list_elem_of_In, Hws in Hin. destruct sp; [done|simpl in Hp; lia].
  - simpl. destruct (leadingSpace ws s) as [sp|] eqn:E; [|done].
    unfold leadingSpace in E. apply find_some in E as [Hin Hp].
    apply list_elem_of_In, Hws in Hin.
    apply HasPrefix_spec in Hp as [t ->]. rewrite drop_app. apply IH.
    rewrite length_app in Hlen. destruct sp; [done|simpl in Hlen; lia].
Qed.

Lemma TrimSpace_done s :
  leadingSpace whiteSpace (TrimLeftSpace s) = None ∧
  leadingSpace (String.rev <$> whiteSpace) (String.rev (TrimRightSpace s)) = None.
Proof.
  split.
  - apply trimLeft_done; [|done]. intros sp Hsp ->.
    assert (bool_decide ("" ∈ whiteSpace) = false) as H by (by vm_compute).
    by apply bool_decide_eq_false in H.
  - unfold TrimRightSpace. rewrite rev_involutive. apply trimLeft_done.
    + intros sp Hsp ->.
      assert (bool_decide ("" ∈ String.rev <$> whiteSpace) = false) as H
        by (by vm_compute).
      by apply bool_decide_eq_false in H.
    + by rewrite rev_length.
Qed.

(** [json.Marshal] of a map gives a text between braces; [TrimSpace]
    leaves such a text alone. *)
Lemma TrimSpace_braces body :
  TrimSpace (String "{" (body +:+ "}")) = String "{" (body +:+ "}").
Proof.
  unfold TrimSpace, TrimLeftSpace.
  rewrite trimLeft_none by (vm_compute; reflexivity).
  unfold TrimRightSpace.
  rewrite <- app_cons, rev_snoc.
  rewrite trimLeft_none by (vm_compute; reflexivity).
  by rewrite <- rev_snoc, rev_involutive.
Qed.

End string_facts.

(* ===================================================================== *)
(** * Facts about the read loop                                           *)
(* ===================================================================== *)

Lemma readLoop_eq reader delimiter builder :
  readLoop reader delimiter builder =
  match ReadString reader "-" with
  | (line, Some _, _) => (builder, ReadFailed)
  | (line, None, rest) =>
      if Contains line delimiter
      then (builder +:+ line, DelimiterSeen)
      else readLoop rest delimiter (builder +:+ line)
  end.
Proof.
  simp readLoop.
  destruct (inspect (ReadString reader "-")) as [[[line [e|]] rest] H];
    cbn [readLoop_unfold_clause_1]; by rewrite H.
Qed.

(** A successful [ReadString] takes at least one byte. *)
Lemma ReadString_shorter reader delim line rest :
  ReadString reader delim = (line, None, rest) →
  String.length rest < String.length reader.
Proof.
  revert line rest. induction reader as [|c r IH]; simpl; intros line rest H.
  - discriminate.
  - destruct (decide (c = delim)).
    + inversion H; subst. lia.
    + destruct (ReadString r delim) as [[l e] rs] eqn:E. inversion H; subst.
      specialize (IH _ _ eq_refl). lia.
Qed.

(** A successful [ReadString] returns a line that ends with the delimiter
    byte and has it nowhere else. *)
Lemma ReadString_line reader c line rest :
  ReadString reader c = (line, None, rest) →
  ∃ body, line = body +:+ String c "" ∧
          Contains body (String c "") = false ∧
          reader = line +:+ rest.
Proof.
  revert line rest. induction reader as [|a r IH]; intros line rest H; simpl in H.
  - discriminate.
  - destruct (decide (a = c)) as [->|Hne].
    + injection H as <- <-. by exists "".
    + destruct (ReadString r c) as [[l e] rs] eqn:E. injection H as <- -> <-.
      destruct (IH _ _ eq_refl) as (body & -> & Hb & ->).
      exists (String a body). split_and!; [done| |done].
      rewrite Contains_cons, Hb, orb_false_r.
      destruct (HasPrefix (String a body) (String c "")) eqn:Hp; [|done].
      apply HasPrefix_spec in Hp as [t Ht]. rewrite app_cons in Ht. congruence.
Qed.

(** A failing [ReadString] has seen no delimiter byte; it hands back all
    the bytes that were left. *)
Lemma ReadString_failed reader c line e rest :
  ReadString reader c = (line, Some e, rest) →
  line = reader ∧ rest = "" ∧ Contains reader (String c "") = false.
Proof.
  revert line rest. induction reader as [|a r IH]; intros line rest H; simpl in H.
  - by injection H as <- _ <-.
  - destruct (decide (a = c)) as [->|Hne]; [discriminate|].
    destruct (ReadString r c) as [[l e'] rs] eqn:E. injection H as <- -> <-.
    destruct (IH _ _ eq_refl) as (-> & -> & Hr). split_and!; [done..|].
    rewrite Contains_cons, Hr, orb_false_r.
    destruct (HasPrefix (String a r) (String c "")) eqn:Hp; [|done].
    apply HasPrefix_spec in Hp as [t Ht]. rewrite app_cons in Ht. congruence.
Qed.

(** A line of the read loop holds one ['-'], its last byte, so such a
    delimiter does not fit into it. *)
Lemma line_lacks_delimiter reader line rest delimiter :
  dashBeforeLast delimiter →
  ReadString reader "-" = (line, None, rest) →
  Contains line delimiter = false.
Proof.
  intros (pre & post & -> & Hpost) (body & -> & Hbody & _)%ReadString_line.
  destruct (Contains (body +:+ "-") (pre +:+ "-" +:+ post)) eqn:E; [exfalso|done].
  apply Contains_spec in E as (a & b & E).
  assert (body +:+ "-" = (a +:+ pre +:+ "-") +:+ (post +:+ b)) as E'.
  { by rewrite E, !app_assoc. }
  apply snoc_eq_app in E' as (d' & _ & ->).
  - assert (Contains ((a +:+ pre +:+ "-") +:+ d') "-" = true) as Hc; [|congruence].
    apply Contains_spec. exists (a +:+ pre), d'. by rewrite !app_assoc.
  - intros [? _]%app_eq_nil. done.
Qed.

(** What the loop leaves in the builder: a prefix [taken] of the incoming
    bytes.  When a read failed, [taken] is all of the incoming bytes up to
    the last ['-']; when the delimiter was seen, [taken] ends with a line
    that contains it. *)
Lemma readLoop_spec reader delimiter builder :
  ∃ taken rest,
    reader = taken +:+ rest ∧
    (readLoop reader delimiter builder).1 = builder +:+ taken ∧
    match (readLoop reader delimiter builder).2 with
    | ReadFailed =>
        Contains rest "-" = false ∧ (taken = "" ∨ ∃ q, taken = q +:+ "-")
    | DelimiterSeen =>
        ∃ q body, taken = q +:+ body +:+ "-" ∧
                  Contains body "-" = false ∧
                  Contains (body +:+ "-") delimiter = true
    end.
Proof.
  remember (String.length reader) as n eqn:Hn.
  revert reader builder Hn. induction (lt_wf n) as [n _ IH]. intros reader builder ->.
  rewrite readLoop_eq.
  destruct (ReadString reader "-") as [[line [e|]] rest] eqn:E.
  - apply ReadString_failed in E as (_ & _ & Hno).
    exists "", reader. rewrite app_nil_r. split_and!; [done..|]. split; [done|by left].
  - pose proof (ReadString_shorter _ _ _ _ E) as Hlt.
    pose proof (ReadString_line _ _ _ _ E) as (body & Hline & Hbody & Hreader).
    destruct (Contains line delimiter) eqn:Hc.
    + exists line, rest. split_and!; [done..|]. exists "", body. by subst line.
    + destruct (IH _ Hlt rest (builder +:+ line) eq_refl) as (taken & rest' & -> & -> & Hexit).
      exists (line +:+ taken), rest'. rewrite !app_assoc in *. split_and!; [done..|].
      destruct (readLoop _ _ _).2.
      * destruct Hexit as [Hno [->|[q ->]]]; (split; [done|right]).
        -- exists body. by rewrite app_nil_r.
        -- exists (line +:+ q). by rewrite app_assoc.
      * destruct Hexit as (q & l & -> & Hl). exists (line +:+ q), l.
        by rewrite app_assoc.
Qed.


(* ===================================================================== *)
(** * The framed transport                                                *)
(* ===================================================================== *)

(** What [readResponse] returns, in terms of the bytes the loop took. *)
Lemma readResponse_taken incoming delimiter :
  ∃ taken rest,
    incoming = taken +:+ rest ∧
    readResponse incoming delimiter = (TrimSpace (ReplaceAll taken delimiter), None) ∧
    match (readLoop incoming delimiter "").2 with
    | ReadFailed =>
        Contains rest "-" = false ∧ (taken = "" ∨ ∃ q, taken = q +:+ "-")
    | DelimiterSeen =>
        ∃ q body, taken = q +:+ body +:+ "-" ∧
                  Contains body "-" = false ∧
                  Contains (body +:+ "-") delimiter = true
    end.
Proof.
  destruct (readLoop_spec incoming delimiter "") as (taken & rest & Hin & Hb & Hexit).
  exists taken, rest. split_and!; [done| |done].
  unfold readResponse. by rewrite Hb, app_nil_l.
Qed.

(** A message text followed by a delimiter that ends in ['-'] and occurs
    nowhere before its own last byte comes back as it was sent. *)
Lemma readResponse_framed data d0 :
  Contains (data +:+ d0) (d0 +:+ "-") = false →
  TrimSpace data = data →
  readResponse (data +:+ d0 +:+ "-") (d0 +:+ "-") = (data, None).
Proof.
  intros Hno Htrim.
  destruct (readResponse_taken (data +:+ d0 +:+ "-") (d0 +:+ "-"))
    as (taken & rest & Hin & -> & Hexit).
  assert (rest = "") as ->.
  { destruct (decide (rest = "")) as [|Hne]; [done|exfalso].
    rewrite <- app_assoc in Hin.
    apply snoc_eq_app in Hin as (r' & -> & Hpre); [|done].
    destruct (readLoop _ _ _).2.
    - destruct Hexit as [Hr _]. by apply no_byte_snoc in Hr.
    - destruct Hexit as (q & body & -> & _ & Hc).
      rewrite Hpre, app_assoc in Hno.
      apply Contains_false_app in Hno. congruence. }
  rewrite app_nil_r in Hin. subst taken.
  unfold ReplaceAll. case_decide as Hd.
  { apply app_eq_nil in Hd as [_ ?]. done. }
  by rewrite cut_trailing, Htrim.
Qed.

(** C2, as amended: [readResponse] returns a nil error for every input;
    and when the bytes that arrive before the read fails do not contain the
    delimiter, it returns, trimmed, the bytes up to and including the last
    ['-'] that arrived.  The bytes behind that ['-'] are dropped. *)
Theorem truncated_receive incoming delimiter :
  (readResponse incoming delimiter).2 = None ∧
  (Contains incoming delimiter = false →
   ∃ taken rest,
     incoming = taken +:+ rest ∧
     (taken = "" ∨ ∃ q, taken = q +:+ "-") ∧
     Contains rest "-" = false ∧
     ReplaceAll taken delimiter = taken ∧
     readResponse incoming delimiter = (TrimSpace taken, None)).
Proof.
  split; [done|]. intros Hno.
  destruct (readResponse_taken incoming delimiter) as (taken & rest & Hin & Hr & Hexit).
  assert (Contains taken delimiter = false) as Ht.
  { subst incoming. by apply Contains_false_prefix in Hno. }
  exists taken, rest. rewrite Hr, ReplaceAll_no_occurrence by done.
  destruct (readLoop incoming delimiter "").2.
  - by destruct Hexit.
  - exfalso. destruct Hexit as (q & body & -> & _ & Hc).
    apply Contains_false_suffix in Ht. congruence.
Qed.

(* ===================================================================== *)
(** * Facts about float64 comparisons                                     *)
(* ===================================================================== *)

Section float_facts.
Implicit Types x y v : float64.

Lemma SFcompare_nan x y :
  SFcompare x y = None ↔ isNaN x = true ∨ isNaN y = true.
Proof.
  destruct x as [?|?| |? ? ?], y as [?|?| |? ? ?]; simpl; split; intros H;
    try discriminate; try (by left); try (by right); by destruct H.
Qed.

Lemma SFcompare_swap x y : SFcompare y x = CompOpp <$> SFcompare x y.
Proof.
  destruct x as [[]|[]| |[] m1 e1], y as [[]|[]| |[] m2 e2]; simpl; try done;
    f_equal; rewrite (Z.compare_antisym e1 e2);
    destruct (e1 ?= e2)%Z; simpl; try done;
    by rewrite (Pos.compare_cont_antisym m1 m2 Eq).
Qed.

Lemma SFcompare_refl x : isNaN x = false → SFcompare x x = Some Eq.
Proof.
  destruct x as [[]|[]| |[] m e]; simpl; try done; intros _;
    rewrite Z.compare_refl; f_equal.
  - by rewrite (Pos.compare_cont_refl m Eq).
  - by rewrite (Pos.compare_cont_refl m Eq).
Qed.

Lemma SFleb_not_nan x y : SFleb x y = true → isNaN x = false ∧ isNaN y = false.
Proof.
  unfold SFleb. destruct (SFcompare x y) eqn:E; [|done]. intros _.
  destruct (isNaN x) eqn:Hx, (isNaN y) eqn:Hy; try done;
    assert (SFcompare x y = None) by (apply SFcompare_nan; auto); congruence.
Qed.

Lemma SFleb_refl x : isNaN x = false → SFleb x x = true.
Proof. intros H. unfold SFleb. by rewrite SFcompare_refl. Qed.

Lemma SFltb_nan_l x y : isNaN x = true → SFltb x y = false.
Proof. by destruct x. Qed.

Lemma SFltb_nan_r x y : isNaN y = true → SFltb x y = false.
Proof. by destruct x, y. Qed.

(** [x <= y] excludes [y < x]. *)
Lemma SFleb_not_gt x y : SFleb x y = true → SFltb y x = false.
Proof.
  unfold SFleb, SFltb. rewrite (SFcompare_swap x y).
  by destruct (SFcompare x y) as [[]|].
Qed.

(** Between numbers, [not (y < x)] is [x <= y]. *)
Lemma SFltb_false_le x y :
  isNaN x = false → isNaN y = false → SFltb y x = false → SFleb x y = true.
Proof.
  intros Hx Hy. unfold SFleb, SFltb. rewrite (SFcompare_swap x y).
  destruct (SFcompare x y) as [[]|] eqn:E; try done.
  apply SFcompare_nan in E as [|]; congruence.
Qed.

Lemma clamp_nan lo hi v : isNaN v = true → clamp lo hi v = v.
Proof.
  intros H. unfold clamp. by rewrite (SFltb_nan_r hi v H), (SFltb_nan_l v lo H).
Qed.

(** A value inside the range is left alone. *)
Lemma clamp_inside lo hi v :
  SFleb lo v = true → SFleb v hi = true → clamp lo hi v = v.
Proof.
  intros H1 H2. unfold clamp.
  by rewrite (SFleb_not_gt v hi H2), (SFleb_not_gt lo v H1).
Qed.

(** With [lo <= hi], whatever is not a NaN ends up in the range. *)
Lemma clamp_range lo hi v :
  SFleb lo hi = true → isNaN v = false →
  SFleb lo (clamp lo hi v) = true ∧ SFleb (clamp lo hi v) hi = true.
Proof.
  intros Hr Hv. destruct (SFleb_not_nan _ _ Hr) as [Hlo Hhi]. unfold clamp.
  destruct (SFltb hi v) eqn:E1.
  - rewrite (SFleb_not_gt lo hi Hr). split; [done|by apply SFleb_refl].
  - destruct (SFltb v lo) eqn:E2.
    + split; [by apply SFleb_refl|done].
    + split; by apply SFltb_false_le.
Qed.

(** [not (y < x)] and [y < z] give [x < z], for an [x] that is a number. *)
Lemma SFltb_le_trans x y z :
  isNaN x = false → SFltb y x = false → SFltb y z = true → SFltb x z = true.
Proof.
  unfold SFltb.
  destruct x as [[]|[]| |[] m1 e1], y as [[]|[]| |[] m2 e2], z as [[]|[]| |[] m3 e3];
    simpl; try done; intros _;
    change (PosDef.Pos.compare_cont Eq) with Pos.compare;
    destruct (Z.compare_spec e2 e1), (Z.compare_spec e2 e3), (Z.compare_spec e1 e3);
    subst; try lia; try done;
    destruct (Pos.compare_spec m2 m1), (Pos.compare_spec m2 m3), (Pos.compare_spec m1 m3);
    subst; simpl; try lia; try done.
Qed.

(** With the bounds the wrong way round, [hi < lo], every number ends up
    at the lower bound. *)
Lemma clamp_inverted lo hi v :
  SFltb hi lo = true → isNaN v = false → clamp lo hi v = lo.
Proof.
  intros Hr Hv. unfold clamp. destruct (SFltb hi v) eqn:E1.
  - by rewrite Hr.
  - by rewrite (SFltb_le_trans v hi lo Hv E1 Hr).
Qed.

End float_facts.

(* ===================================================================== *)
(** * Facts about the network primitives                                  *)
(* ===================================================================== *)

Lemma isClosed_false w k : isClosed w k = false ↔ Closed k ∉ w.
Proof. apply bool_decide_eq_false. Qed.

Lemma isClosed_true w k : isClosed w k = true ↔ Closed k ∈ w.
Proof. apply bool_decide_eq_true. Qed.

(** No event of the trace speaks of the connection [fresh w]. *)
Lemma fresh_new w e : e ∈ w → connOf e ≠ fresh w.
Proof.
  intros H E.
  assert (connOf e ≤ max_list (connOf <$> w))%nat as Hle.
  { apply max_list_elem_of_le, list_elem_of_fmap. eauto. }
  unfold fresh in E. lia.
Qed.

Lemma isClosed_fresh w : isClosed w (fresh w) = false.
Proof. apply isClosed_false. intros H. by apply fresh_new in H. Qed.

Lemma isClosed_cons_other e w k :
  e ≠ Closed k → isClosed (e :: w) k = isClosed w k.
Proof.
  intros He. unfold isClosed. apply bool_decide_ext.
  rewrite elem_of_cons. split; [intros [E|H]; [by symmetry in E|done]|by right].
Qed.

Lemma isClosed_cons_closed w k : isClosed (Closed k :: w) k = true.
Proof. apply isClosed_true. left. Qed.

(** [sendJSONMessage] writes one frame, or nothing when the message has a
    value [json.Marshal] rejects. *)
Lemma sendJSONMessage_cases k msg d w :
  (unsupported (Map msg) = true ∧
   sendJSONMessage k msg d w = (Some UnsupportedValue, w))
  ∨ (unsupported (Map msg) = false ∧
     ∃ ok, ok = negb (isClosed w k) && write_ok env w k (Encode msg +:+ d) ∧
           sendJSONMessage k msg d w =
           (if ok then None else Some NetError, Wrote k (Encode msg +:+ d) ok :: w)).
Proof.
  unfold sendJSONMessage, Marshal.
  destruct (unsupported (Map msg)); [by left|right]. split; [done|].
  eexists. split; [done|]. done.
Qed.

Lemma sendJSONMessage_keeps_open k k' msg d w :
  isClosed (sendJSONMessage k msg d w).2 k' = isClosed w k'.
Proof.
  destruct (sendJSONMessage_cases k msg d w) as [[_ ->]|[_ (ok & _ & ->)]]; [done|].
  by apply isClosed_cons_other.
Qed.

(** [readResponse] on a connection: the error is nil. *)
Lemma receive_eq k d w :
  receive k d w =
  let incoming := if isClosed w k then "" else delivers env w k in
  (((readResponse incoming d).1, None), Received k incoming :: w).
Proof. reflexivity. Qed.

(* ===================================================================== *)
(** * The cube handle                                                     *)
(* ===================================================================== *)

(** A cube made by [NewCube] holds no connection. *)
Lemma NewCube_no_conn name unitName pos (model : option Network) server pass delim :
  conn (NewCube name unitName pos model server pass delim) = None.
Proof. reflexivity. Qed.

(** C5, as amended: a cube that holds no connection ([conn] is nil: it was
    never spawned, or its [Spawn] failed before the connection was stored)
    gets the no-connection error from [PulseWithModel] and from
    [RefreshPosition], and neither of them touches the network or the
    cube. *)
Theorem no_connection c w :
  conn c = None →
  PulseWithModel c w = ((Return (Some (CubeError NoConnection (Name c))), c), w) ∧
  RefreshPosition c w = ((Return (Some (CubeError NoConnection (Name c))), c), w).
Proof. intros H. unfold PulseWithModel, RefreshPosition. by rewrite H. Qed.

(** C6: after a [Spawn] that returns nil the cube has its old name
    followed by "_BASE", and its connection is the one this [Spawn] dialed:
    new to the trace, and open. *)
Theorem Spawn_renames c w c' w' :
  Spawn c w = ((Return None, c'), w') →
  Name c' = Name c +:+ "_BASE" ∧
  conn c' = Some (fresh w) ∧
  Dialed (ServerAddr c) (Some (fresh w)) ∈ w' ∧
  (∀ e, e ∈ w → connOf e ≠ fresh w) ∧
  isClosed w' (fresh w) = false.
Proof.
  unfold Spawn, mbind, IO_bind, mret, IO_ret, Dial, Write, Close, receive.
  destruct (dial_ok env w (ServerAddr c)); [|done].
  set (k := fresh w). set (w1 := Dialed (ServerAddr c) (Some k) :: w).
  destruct (negb (isClosed w1 k) && write_ok env w1 k _) eqn:Hauth; simpl; [|done].
  match goal with
  | |- context [sendJSONMessage ?a ?m ?d ?w2] =>
      destruct (sendJSONMessage_cases a m d w2) as [[_ ->]|[_ (ok & Hok & ->)]]
  end; [done|].
  destruct ok; [|done]. case_decide; [done|]. intros [= <- <-].
  split_and!; [done..| | |].
  - unfold w1. rewrite !elem_of_cons. auto 10.
  - intros e. apply fresh_new.
  - unfold w1. rewrite !isClosed_cons_other by done. apply isClosed_fresh.
Qed.

(** X6: every way [Spawn] returns an error.  The name stays; after a
    failed dial or a failed handshake the cube is as it was; after a failed
    spawn command the cube holds the connection, which is closed. *)
Lemma Spawn_failure c w err c' w' :
  Spawn c w = ((Return (Some err), c'), w') →
  Name c' = Name c ∧
  ((err = CubeError ConnectFailed (Name c) ∧ c' = c ∧
    w' = Dialed (ServerAddr c) None :: w)
   ∨ (err = CubeError AuthFailed (Name c) ∧ c' = c ∧
      isClosed w' (fresh w) = true)
   ∨ (err = CubeError SpawnFailed (Name c) ∧ c' = setConn c (Some (fresh w)) ∧
      isClosed w' (fresh w) = true)).
Proof.
  unfold Spawn, mbind, IO_bind, mret, IO_ret, Dial, Write, Close.
  destruct (dial_ok env w (ServerAddr c)).
  - destruct (negb _ && _); cbn [negb].
    + rewrite receive_eq. cbv beta iota zeta.
      match goal with
      | |- context [sendJSONMessage ?a ?m ?d ?w2] =>
          destruct (sendJSONMessage a m d w2) as [[e|] w3]
      end.
      * intros [= <- <- <-]. split; [done|]. do 2 right.
        split_and!; [done..|]. apply isClosed_cons_closed.
      * by case_decide.
    + intros [= <- <- <-]. split; [done|]. right; left.
      split_and!; [done..|]. apply isClosed_cons_closed.
  - intros [= <- <- <-]. split; [done|]. by left.
Qed.

(** The stores of [RefreshPosition] when every number has a component to
    go to: a number replaces the component at its index, anything else
    leaves the component as it is. *)
Lemma storePosition_spec pos : ∀ i (P : list float64),
  (∀ j val, pos !! j = Some (Float64 val) → (i + j < length P)%nat) →
  ∃ P', storePosition i pos P = (P', true) ∧
        length P' = length P ∧
        ∀ j, P' !! j =
             if decide (i ≤ j)%nat
             then match pos !! (j - i)%nat with
                  | Some (Float64 val) => Some val
                  | _ => P !! j
                  end
             else P !! j.
Proof.
  induction pos as [|a pos IH]; intros i P Hfits; simpl in *.
  - exists P. split_and!; [done..|]. intros j. by case_decide.
  - assert (∀ P0 : list float64, length P0 = length P →
        (∀ j, P0 !! j = if decide (j = i) then
                          match a with Float64 val => Some val | _ => P !! j end
                        else P !! j) →
        ∃ P', storePosition (S i) pos P0 = (P', true) ∧ length P' = length P ∧
              ∀ j, P' !! j =
                   if decide (i ≤ j)%nat
                   then match (a :: pos) !! (j - i)%nat with
                        | Some (Float64 val) => Some val
                        | _ => P !! j
                        end
                   else P !! j) as Hstep.
    { intros P0 HP0 Hlook.
      destruct (IH (S i) P0) as (P' & -> & Hl & HP').
      { intros j val Hj. specialize (Hfits (S j) val Hj). lia. }
      exists P'. split_and!; [done|congruence|]. intros j. rewrite HP', Hlook.
      destruct (decide (j = i)) as [->|Hne].
      - rewrite decide_False, decide_True by lia.
        by replace (i - i)%nat with 0%nat by lia.
      - destruct (decide (S i ≤ j)%nat).
        + rewrite decide_True by lia.
          by replace (j - i)%nat with (S (j - S i)) by lia.
        + by rewrite decide_False by lia. }
    destruct a as [| | val | | | |];
      try (apply Hstep; [done|]; intros j; by case_decide).
    specialize (Hfits 0%nat val eq_refl).
    rewrite decide_True by lia. apply Hstep.
    + by rewrite length_insert.
    + intros j. case_decide as Hj.
      * subst j. apply list_lookup_insert_eq. lia.
      * by apply list_lookup_insert_ne.
Qed.

(** C10: when the state response parses to an object whose "position" is
    an array of three elements, and the local position has a component for
    each element that is a number, [RefreshPosition] returns nil whatever
    the other elements are; a component whose element is a number takes that
    number, every other component of the local position keeps its value. *)
Theorem RefreshPosition_lenient c w k state a0 a1 a2 :
  conn c = Some k →
  let sent := sendJSONMessage k {[ "type" := Str "get_cube_state" ]} (Delimiter c) w in
  let got := receive k (Delimiter c) sent.2 in
  sent.1 = None →
  Unmarshal got.1.1 = Some state →
  state !! "position" = Some (Slice [a0; a1; a2]) →
  (∀ i val, [a0; a1; a2] !! i = Some (Float64 val) → (i < length (Position c))%nat) →
  ∃ c', RefreshPosition c w = ((Return None, c'), got.2) ∧
        Name c' = Name c ∧ conn c' = conn c ∧
        length (Position c') = length (Position c) ∧
        ∀ i, Position c' !! i =
             match [a0; a1; a2] !! i with
             | Some (Float64 val) => Some val
             | _ => Position c !! i
             end.
Proof.
  intros Hconn sent got Hsent Hparse Hpos Hlen.
  destruct (storePosition_spec [a0; a1; a2] 0 (Position c)) as (P' & HP' & Hl & Hlook);
    [done|].
  exists (setPosition c P'). split_and!; [|done..|].
  - unfold RefreshPosition. rewrite Hconn. unfold mbind, IO_bind, mret, IO_ret.
    fold sent. destruct sent as [err w1] eqn:Es. simpl in Hsent. subst err.
    simpl in got. fold got. destruct got as [[raw e] w2] eqn:Eg.
    assert (e = None) as -> by (by injection Eg).
    simpl in Hparse. rewrite Hparse. unfold index. rewrite Hpos.
    cbn -[storePosition]. by rewrite HP'.
  - intros i. cbn [Position setPosition]. rewrite Hlook, decide_True by lia.
    by replace (i - 0)%nat with i by lia.
Qed.

(** [json.Marshal] accepts a message without floats, and an [apply_force]
    message when none of its force components is a NaN or an infinity. *)
Lemma unsupported_applyForce force :
  unsupported (Map (applyForce force)) = existsb unsupportedFloat force.
Proof.
  transitivity (existsb unsupportedFloat force || false);
    [by vm_compute | apply orb_false_r].
Qed.

(** C3: [PulseWithModel] on a cube with a connection, a position and a
    model whose output has at least three components, with
    [ClampMin <= ClampMax].  Each of the three force components is the
    clamped output component, equal to it when that one is in
    [[ClampMin, ClampMax]]; and either nothing is written (a force
    component is a NaN or an infinity, which [json.Marshal] rejects), or
    the first write is the [apply_force] frame, and every force component
    in it lies in [[ClampMin, ClampMax]]. *)
Theorem clamp_correct c w k p0 p1 p2 ps net v0 v1 v2 vs :
  conn c = Some k →
  Position c = p0 :: p1 :: p2 :: ps →
  Model c = Some net →
  GetOutput (Forward net [[p0; p1; p2]]) = v0 :: v1 :: v2 :: vs →
  SFleb (ClampMin c) (ClampMax c) = true →
  let inRange f := SFleb (ClampMin c) f && SFleb f (ClampMax c) in
  let force := clamp (ClampMin c) (ClampMax c) <$> [v0; v1; v2] in
  let c1 := setModel c (Some (Forward net [[p0; p1; p2]])) in
  Forall2 (λ v f, inRange v = true → f = v) [v0; v1; v2] force ∧
  (PulseWithModel c w =
     ((Return (Some (CubeError ApplyForceFailed (Name c))), c1), w)
   ∨ (Forall (λ f, inRange f = true) force ∧
      ∃ ok, let w1 := Wrote k (Encode (applyForce force) +:+ Delimiter c) ok :: w in
            PulseWithModel c w =
            if ok then RefreshPosition c1 w1
            else ((Return (Some (CubeError ApplyForceFailed (Name c))), c1), w1))).
Proof.
  intros Hconn Hpos Hmodel Hout Hrange inRange force c1. split.
  - repeat constructor; unfold inRange; intros [H1 H2]%andb_true_iff;
      by apply clamp_inside.
  - unfold PulseWithModel. rewrite Hconn, Hpos, Hmodel, Hout.
    change (take 3 (v0 :: v1 :: v2 :: vs)) with [v0; v1; v2].
    cbn [length ClampMin ClampMax Delimiter Name setModel].
    rewrite decide_False by lia.
    unfold mbind, IO_bind, mret, IO_ret. fold force c1.
    destruct (sendJSONMessage_cases k (applyForce force) (Delimiter c) w)
      as [[_ ->]|[Hsup (ok & _ & ->)]]; [by left|right]. split.
    + rewrite unsupported_applyForce in Hsup.
      apply Forall_forall. intros f Hf.
      assert (unsupportedFloat f = false) as Hfin.
      { destruct (unsupportedFloat f) eqn:E; [|done].
        rewrite <- Hsup. symmetry. apply existsb_exists. exists f.
        split; [by apply list_elem_of_In|done]. }
      apply orb_false_iff in Hfin as [Hnan _].
      apply list_elem_of_fmap in Hf as (v & -> & _).
      assert (isNaN v = false) as Hv.
      { destruct (isNaN v) eqn:E; [|done]. rewrite clamp_nan in Hnan by done. congruence. }
      destruct (clamp_range _ _ v Hrange Hv) as [H1 H2].
      unfold inRange. by rewrite H1, H2.
    + exists ok. by destruct ok.
Qed.

(* ===================================================================== *)
(** * DestroyAllCubes                                                     *)
(* ===================================================================== *)

Lemma sendJSONMessage_reads k msg d w :
  reads (sendJSONMessage k msg d w).2 = reads w.
Proof.
  by destruct (sendJSONMessage_cases k msg d w) as [[_ ->]|[_ (ok & _ & ->)]].
Qed.

(** The despawn commands of one attempt close nothing and read nothing. *)
Lemma forEach_send k k' (msg : string → Message) d cubes w :
  let w' := (forEach (λ cube, _ ← sendJSONMessage k (msg cube) d; mret tt) cubes w).2 in
  isClosed w' k' = isClosed w k' ∧ reads w' = reads w.
Proof.
  revert w. induction cubes as [|cube cubes IH]; intros w; [done|].
  cbn [forEach]. unfold mbind, IO_bind, mret, IO_ret in IH |- *.
  cbv zeta in IH |- *.
  pose proof (sendJSONMessage_keeps_open k k' (msg cube) d w) as Hs.
  pose proof (sendJSONMessage_reads k (msg cube) d w) as Hr.
  destruct (sendJSONMessage k (msg cube) d w) as [e w1]. simpl in Hs, Hr.
  destruct (IH w1) as [-> ->]. done.
Qed.

(** The loop makes no more attempts than its budget allows, and reads at
    most one response in each. *)
Lemma destroyLoop_bound budget : ∀ attempt k d w,
  (1 ≤ attempt)%nat →
  let r := destroyLoop budget attempt k d w in
  (r.1.1 ≤ attempt + budget - 1)%nat ∧ (reads r.2 ≤ reads w + budget)%nat.
Proof.
  induction budget as [|budget IH]; intros attempt k d w Hatt.
  - simpl. lia.
  - cbn [destroyLoop]. unfold mbind, IO_bind, mret, IO_ret.
    pose proof (sendJSONMessage_reads k {[ "type" := Str "get_cube_list" ]} d w) as Hr.
    destruct (sendJSONMessage k _ d w) as [[e|] w1]; simpl in Hr; [simpl; lia|].
    rewrite receive_eq. cbv beta iota zeta.
    assert (∀ i, reads (Received k i :: w1) = S (reads w)) as Hread.
    { intros i. unfold reads in *. simpl. by rewrite Hr. }
    destruct (Unmarshal _) as [cubeData|]; [|simpl; rewrite Hread; lia].
    case_decide; [simpl; rewrite Hread; lia|].
    match goal with
    | |- context [forEach ?f ?l ?w2] =>
        pose proof (forEach_send k k
          (λ cube, {[ "type" := Str "despawn_cube"; "cube_name" := Str cube ]})
          d l w2) as [_ Hkeep];
        unfold mbind, IO_bind, mret, IO_ret in Hkeep;
        destruct (forEach f l w2) as [[] w3]
    end.
    simpl in Hkeep. rewrite Hread in Hkeep.
    specialize (IH (S attempt) k d w3). cbv zeta in IH. lia.
Qed.

(** With list requests that are taken and list responses that always
    parse to a non-empty list, the loop uses up its budget, one response
    read in each attempt; whether the commands are taken does not matter. *)
Lemma destroyLoop_exhausts delimiter k :
  (∀ w, write_ok env w k
          (Encode {[ "type" := Str "get_cube_list" ]} +:+ delimiter) = true) →
  (∀ w, ∃ cubeData,
      Unmarshal (readResponse
                   (delivers env
                      (Wrote k (Encode {[ "type" := Str "get_cube_list" ]} +:+ delimiter)
                         true :: w) k) delimiter).1 = Some cubeData ∧
      toStringArray (index cubeData "cubes") ≠ []) →
  ∀ budget attempt w,
    isClosed w k = false →
    let r := destroyLoop budget attempt k delimiter w in
    r.1 = ((attempt + budget - 1)%nat, Exhausted) ∧
    reads r.2 = (reads w + budget)%nat ∧
    isClosed r.2 k = false.
Proof.
  intros Hwrite Hlist. induction budget as [|budget IH]; intros attempt w Hopen.
  - simpl. split_and!; [|lia|done]. do 2 f_equal. lia.
  - cbn [destroyLoop]. unfold mbind, IO_bind, mret, IO_ret.
    destruct (sendJSONMessage_cases k {[ "type" := Str "get_cube_list" ]} delimiter w)
      as [[Hsup _]|[_ (ok & -> & ->)]]; [by vm_compute in Hsup|].
    rewrite Hopen, Hwrite. cbn [negb andb].
    rewrite receive_eq. cbv beta iota zeta.
    rewrite isClosed_cons_other, Hopen by done.
    destruct (Hlist w) as (cubeData & -> & Hne).
    rewrite decide_False by (by destruct (toStringArray _)).
    match goal with
    | |- context [forEach ?f ?l ?w2] =>
        pose proof (forEach_send k k
          (λ cube, {[ "type" := Str "despawn_cube"; "cube_name" := Str cube ]})
          delimiter l w2) as [Hkeep Hreads];
        unfold mbind, IO_bind, mret, IO_ret in Hkeep, Hreads;
        destruct (forEach f l w2) as [[] w3]
    end.
    simpl in Hkeep, Hreads.
    destruct (IH (S attempt) w3) as (-> & -> & ->).
    + rewrite Hkeep. by rewrite !isClosed_cons_other.
    + rewrite Hreads. split_and!; [|unfold reads; simpl; lia|done].
      do 2 f_equal. lia.
Qed.


(* ===================================================================== *)
(** * Framing round trip                                                  *)
(* ===================================================================== *)

(** C1, as amended: a message [M] whose text [data] ([json.Marshal] gives
    a text in braces for a map) is sent with a delimiter that ends in ['-']
    and does not occur in [data] followed by the delimiter without its last
    byte.  Then [sendJSONMessage] writes [data] and the delimiter, and
    [readResponse] on these bytes returns [data] itself, byte for byte the
    text [json.Marshal] gave for [M]. *)
Theorem framing_round_trip k (M : Message) d0 data body w :
  let delimiter := d0 +:+ "-" in
  Marshal M = Some data →
  data = "{" +:+ body +:+ "}" →
  Contains (data +:+ d0) delimiter = false →
  (sendJSONMessage k M delimiter w).1 = None →
  (sendJSONMessage k M delimiter w).2 = Wrote k (data +:+ delimiter) true :: w ∧
  readResponse (data +:+ delimiter) delimiter = (data, None).
Proof.
  intros delimiter HM Hdata Hno Hsent. split.
  - unfold sendJSONMessage in *. rewrite HM in *.
    unfold mbind, IO_bind, mret, IO_ret, Write in *. simpl in *.
    by destruct (negb _ && _).
  - apply readResponse_framed; [done|]. subst data. apply TrimSpace_braces.
Qed.

(* ===================================================================== *)
(** * protocol.go: frames on a stream                                     *)
(* ===================================================================== *)

Section frame_facts.
Implicit Types (s t d : string) (c : ascii).

Lemma HasPrefix_byte a s c : HasPrefix (String a s) (String c "") = true ↔ a = c.
Proof.
  rewrite HasPrefix_spec. split.
  - intros [t H]. rewrite app_cons in H. by injection H.
  - intros ->. by exists s.
Qed.

Lemma Contains_byte_cons a s c :
  Contains (String a s) (String c "") = bool_decide (a = c) || Contains s (String c "").
Proof.
  rewrite Contains_cons. f_equal. apply eq_true_iff_eq.
  by rewrite HasPrefix_byte, bool_decide_eq_true.
Qed.

Lemma Contains_byte_app s t c :
  Contains (s +:+ t) (String c "") = Contains s (String c "") || Contains t (String c "").
Proof.
  induction s as [|a s IH]; [done|].
  by rewrite app_cons, !Contains_byte_cons, IH, orb_assoc.
Qed.

(** The first occurrence of a byte splits the string. *)
Lemma Contains_byte_split s c :
  Contains s (String c "") = true →
  ∃ l r, s = l +:+ String c r ∧ Contains l (String c "") = false.
Proof.
  induction s as [|a s IH]; [done|]. rewrite Contains_byte_cons.
  destruct (decide (a = c)) as [->|Hne].
  - intros _. by exists "", s.
  - rewrite bool_decide_eq_false_2 by done. intros (l & r & -> & Hl)%IH.
    exists (String a l), r. split; [done|].
    by rewrite Contains_byte_cons, bool_decide_eq_false_2, Hl.
Qed.

(** [ReadString] stops behind the first delimiter byte. *)
Lemma ReadString_app l c r :
  Contains l (String c "") = false →
  ReadString (l +:+ String c r) c = (l +:+ String c "", None, r).
Proof.
  induction l as [|a l IH]; intros Hl.
  - rewrite !app_nil_l. simpl. by rewrite decide_True.
  - rewrite Contains_byte_cons in Hl. apply orb_false_iff in Hl as [Ha Hl].
    apply bool_decide_eq_false in Ha. rewrite !app_cons. simpl.
    by rewrite decide_False, IH.
Qed.

Lemma ReadString_none s c :
  Contains s (String c "") = false → ReadString s c = (s, Some ReadError, "").
Proof.
  induction s as [|a s IH]; intros Hs; [done|].
  rewrite Contains_byte_cons in Hs. apply orb_false_iff in Hs as [Ha Hs].
  apply bool_decide_eq_false in Ha. simpl. by rewrite decide_False, IH.
Qed.

Lemma cut_skip_app u t d : cut (String.length u) (u +:+ t) d = cut 0 t d.
Proof.
  induction u as [|a u IH]; [done|]. rewrite app_cons. simpl. apply IH.
Qed.

(** The first occurrence of the delimiter is cut out, and the scan goes on
    behind it. *)
Lemma cut_frame s d0 c t :
  Contains (s +:+ d0) (d0 +:+ String c "") = false →
  cut 0 (s +:+ (d0 +:+ String c "") +:+ t) (d0 +:+ String c "")
  = s +:+ cut 0 t (d0 +:+ String c "").
Proof.
  set (d := d0 +:+ String c "").
  assert (String.length d = S (String.length d0)) as Hd.
  { unfold d. rewrite length_app. simpl. lia. }
  induction s as [|a s IH]; intros H.
  - rewrite !app_nil_l. destruct d as [|b d'] eqn:E; [done|].
    rewrite app_cons, cut_cons.
    assert (HasPrefix (String b (d' +:+ t)) (String b d') = true) as ->.
    { apply HasPrefix_spec. by exists t. }
    simpl in Hd. injection Hd as Hd. simpl.
    rewrite Nat.sub_0_r, Hd. rewrite <- Hd at 1. apply cut_skip_app.
  - rewrite app_cons, Contains_cons in H. apply orb_false_iff in H as [H1 H2].
    rewrite !app_cons, cut_cons.
    assert (String a (s +:+ d +:+ t) = String a (s +:+ d0) +:+ String c t) as ->.
    { unfold d. by rewrite app_cons, !app_assoc. }
    rewrite HasPrefix_app_long, H1.
    + by rewrite IH.
    + simpl. rewrite length_app. lia.
Qed.

(** A delimiter that ends in ['-'] and has another ['-'] is one that
    [dashBeforeLast] speaks of. *)
Lemma dashBeforeLast_intro d0 :
  Contains d0 "-" = true → dashBeforeLast (d0 +:+ "-").
Proof.
  intros (l & r & -> & _)%Contains_byte_split.
  exists l, (r +:+ "-"). split.
  - by rewrite app_assoc, app_cons.
  - by intros [_ ?]%app_eq_nil.
Qed.

(** The loop on a stream whose first delimiter ends a line: it takes the
    lines up to that one and stops. *)
Lemma readLoop_first_frame d0 rest : ∀ a builder,
  Contains d0 "-" = false →
  Contains (a +:+ d0) (d0 +:+ "-") = false →
  readLoop (a +:+ (d0 +:+ "-") +:+ rest) (d0 +:+ "-") builder
  = (builder +:+ a +:+ d0 +:+ "-", DelimiterSeen).
Proof.
  intros a. remember (String.length a) as n eqn:Hn. revert a Hn.
  induction (lt_wf n) as [n _ IH]. intros a -> builder Hd0 Hno.
  rewrite readLoop_eq. destruct (Contains a "-") eqn:Ha.
  - apply Contains_byte_split in Ha as (l & a' & -> & Hl).
    rewrite !app_assoc, app_cons. rewrite ReadString_app by done.
    rewrite !app_assoc, app_cons in Hno.
    assert (Contains (l +:+ "-") (d0 +:+ "-") = false) as ->.
    { apply (Contains_false_prefix _ (a' +:+ d0)). by rewrite app_assoc, app_cons. }
    assert (a' +:+ d0 +:+ "-" +:+ rest = a' +:+ (d0 +:+ "-") +:+ rest) as ->.
    { by rewrite !app_assoc. }
    rewrite (IH (String.length a')) with (a := a'); [| |done..|].
    + by rewrite !app_assoc, !app_cons, !app_nil_l.
    + rewrite length_app. simpl. lia.
    + by apply (Contains_false_suffix l) in Hno as Hno'%(Contains_false_suffix "-").
  - assert (a +:+ (d0 +:+ "-") +:+ rest = (a +:+ d0) +:+ String "-" rest) as ->.
    { by rewrite !app_assoc. }
    rewrite ReadString_app by (by rewrite Contains_byte_app, Ha, Hd0).
    assert (Contains ((a +:+ d0) +:+ "-") (d0 +:+ "-") = true) as ->.
    { apply Contains_spec. exists a, "". by rewrite app_nil_r, app_assoc. }
    by rewrite !app_assoc.
Qed.

(** The loop with a delimiter that no line can hold: it goes through
    every line. *)
Lemma readLoop_dash_line delimiter y : dashBeforeLast delimiter → ∀ x builder,
  readLoop (x +:+ String "-" y) delimiter builder
  = readLoop y delimiter (builder +:+ x +:+ "-").
Proof.
  intros Hd x. remember (String.length x) as n eqn:Hn. revert x Hn.
  induction (lt_wf n) as [n _ IH]. intros x -> builder.
  rewrite readLoop_eq. destruct (Contains x "-") eqn:Hx.
  - apply Contains_byte_split in Hx as (l & x' & -> & Hl).
    rewrite !app_assoc, app_cons.
    pose proof (ReadString_app l "-" (x' +:+ String "-" y) Hl) as Hr.
    rewrite Hr, (line_lacks_delimiter _ _ _ _ Hd Hr).
    rewrite (IH (String.length x')) with (x := x'); [|rewrite length_app; simpl; lia|done].
    by rewrite !app_assoc, !app_cons, !app_nil_l.
  - pose proof (ReadString_app x "-" y Hx) as Hr.
    by rewrite Hr, (line_lacks_delimiter _ _ _ _ Hd Hr).
Qed.

Lemma readLoop_no_dash delimiter y builder :
  Contains y "-" = false → readLoop y delimiter builder = (builder, ReadFailed).
Proof. intros Hy. by rewrite readLoop_eq, ReadString_none. Qed.

Lemma readLoop_framed delimiter d0 tail : dashBeforeLast delimiter →
  delimiter = d0 +:+ "-" → Contains tail "-" = false →
  ∀ rs builder,
    readLoop (framed delimiter rs +:+ tail) delimiter builder
    = (builder +:+ framed delimiter rs, ReadFailed).
Proof.
  intros Hd -> Htail. induction rs as [|r rs IH]; intros builder.
  - simpl. rewrite app_nil_l, app_nil_r. by apply readLoop_no_dash.
  - cbn [framed foldr]. fold (framed (d0 +:+ "-") rs).
    assert ((r +:+ (d0 +:+ "-") +:+ framed (d0 +:+ "-") rs) +:+ tail
            = (r +:+ d0) +:+ String "-" (framed (d0 +:+ "-") rs +:+ tail)) as ->.
    { by rewrite !app_assoc. }
    rewrite readLoop_dash_line, IH by done. by rewrite !app_assoc.
Qed.

Lemma cut_framed d0 rs :
  Forall (λ r, Contains (r +:+ d0) (d0 +:+ "-") = false) rs →
  cut 0 (framed (d0 +:+ "-") rs) (d0 +:+ "-") = joined rs.
Proof.
  induction 1 as [|r rs Hr _ IH]; [done|].
  cbn [framed joined foldr]. fold (framed (d0 +:+ "-") rs) (joined rs).
  by rewrite cut_frame, IH.
Qed.

(** A string that is not empty has a last byte. *)
Lemma string_snoc s : s ≠ "" → ∃ s0 c, s = s0 +:+ String c "".
Proof.
  induction s as [|a s IH]; [done|]. intros _. destruct s as [|b s].
  - by exists "", a.
  - destruct IH as (s0 & c & E); [done|]. exists (String a s0), c.
    by rewrite app_cons, <- E.
Qed.

(** A text does not contain a longer one. *)
Lemma Contains_shorter s d :
  (String.length s < String.length d)%nat → Contains s d = false.
Proof.
  intros Hlen. destruct (Contains s d) eqn:E; [exfalso|done].
  apply Contains_spec in E as (pre & post & ->). rewrite !length_app in Hlen. lia.
Qed.

(** The leftmost occurrence of a delimiter: in front of it the delimiter
    does not occur, not even across its start. *)
Lemma Contains_leftmost s d0 c :
  Contains s (d0 +:+ String c "") = true →
  ∃ p t, s = p +:+ (d0 +:+ String c "") +:+ t ∧
         Contains (p +:+ d0) (d0 +:+ String c "") = false.
Proof.
  set (d := d0 +:+ String c "").
  assert (String.length d = S (String.length d0)) as Hd.
  { unfold d. rewrite length_app. simpl. lia. }
  induction s as [|a s IH].
  - rewrite Contains_nil. intros Hp%HasPrefix_length. simpl in Hp. lia.
  - rewrite Contains_cons. destruct (HasPrefix (String a s) d) eqn:Hp.
    + intros _. apply HasPrefix_spec in Hp as [t ->]. exists "", t.
      split; [done|]. rewrite app_nil_l. apply Contains_shorter. lia.
    + rewrite orb_false_l. intros (p & t & -> & Hno)%IH. exists (String a p), t.
      split; [done|]. rewrite app_cons, Contains_cons, Hno, orb_false_r.
      destruct (HasPrefix (String a (p +:+ d0)) d) eqn:Hq; [exfalso|done].
      apply HasPrefix_spec in Hq as [u Hu].
      assert (HasPrefix (String a (p +:+ d +:+ t)) d = true) as Hp'; [|congruence].
      apply HasPrefix_spec. exists (u +:+ String c t).
      assert (d +:+ u +:+ String c t = (d +:+ u) +:+ String c t) as ->
        by by rewrite app_assoc.
      rewrite <- Hu. unfold d. by rewrite !app_cons, !app_assoc.
Qed.

(** What [strings.ReplaceAll] does, piece by piece: the text is cut at the
    leftmost occurrence of the delimiter, then at the leftmost occurrence
    behind that one, and so on; the pieces between the cuts are what
    remains. *)
Lemma cut_pieces d0 c s :
  ∃ pieces last,
    s = framed (d0 +:+ String c "") pieces +:+ last ∧
    Forall (λ p, Contains (p +:+ d0) (d0 +:+ String c "") = false) pieces ∧
    Contains last (d0 +:+ String c "") = false ∧
    cut 0 s (d0 +:+ String c "") = joined pieces +:+ last.
Proof.
  remember (String.length s) as n eqn:Hn. revert s Hn.
  induction (lt_wf n) as [n _ IH]. intros s ->.
  destruct (Contains s (d0 +:+ String c "")) eqn:E.
  - apply Contains_leftmost in E as (p & t & -> & Hp).
    destruct (IH (String.length t)) with (s := t)
      as (pieces & last & Ht & Hpieces & Hlast & Hcut); [|done|].
    { rewrite !length_app. simpl. lia. }
    exists (p :: pieces), last. split_and!.
    + cbn [framed foldr]. fold (framed (d0 +:+ String c "") pieces).
      by rewrite !app_assoc, <- Ht.
    + by constructor.
    + done.
    + rewrite cut_frame, Hcut by done. cbn [joined foldr]. fold (joined pieces).
      by rewrite app_assoc.
  - exists [], s. split_and!; [done|constructor|done|by apply cut_no_occurrence].
Qed.

End frame_facts.

(* ===================================================================== *)
(** * protocol.go: a delimiter the loop cannot see                        *)
(* ===================================================================== *)

(** C9, as amended: the loop stops at the delimiter only when the
    delimiter lies within one line, a run of bytes that ends at the first
    ['-'] after the line before.  So when the delimiter has a ['-'] before
    its last byte (as the "<???DONE???---" of the example has), no line that
    [ReadString('-')] returns contains it, and the read loop only ends on a
    failed read, having taken every byte up to the last ['-'] of the
    stream.  What comes back is what is left of the bytes taken when they
    are cut at the leftmost occurrence of the delimiter, again at the
    leftmost occurrence behind that cut, and so on: the pieces between the
    cuts and the text behind the last cut, joined and trimmed. *)
Theorem delimiter_never_seen delimiter :
  (∀ incoming builder,
     readLoop incoming delimiter "" = (builder, DelimiterSeen) →
     ∃ q body,
       builder = q +:+ body +:+ "-" ∧
       Contains body "-" = false ∧
       Contains (body +:+ "-") delimiter = true) ∧
  (dashBeforeLast delimiter →
   (∀ reader line rest,
      ReadString reader "-" = (line, None, rest) → Contains line delimiter = false) ∧
   (∀ incoming,
      (readLoop incoming delimiter "").2 = ReadFailed ∧
      ∃ taken rest,
        incoming = taken +:+ rest ∧
        (taken = "" ∨ ∃ q, taken = q +:+ "-") ∧
        Contains rest "-" = false ∧
        (readLoop incoming delimiter "").1 = taken ∧
        ∃ d0 c pieces last,
          delimiter = d0 +:+ String c "" ∧
          taken = framed delimiter pieces +:+ last ∧
          Forall (λ p, Contains (p +:+ d0) delimiter = false) pieces ∧
          Contains last delimiter = false ∧
          readResponse incoming delimiter = (TrimSpace (joined pieces +:+ last), None))).
Proof.
  split.
  - intros incoming builder Hloop.
    destruct (readLoop_spec incoming delimiter "") as (taken & rest & _ & Hb & Hexit).
    rewrite Hloop in Hb, Hexit. simpl in Hb, Hexit. rewrite app_nil_l in Hb.
    by subst builder.
  - intros Hd. split.
    + intros reader line rest. by apply line_lacks_delimiter.
    + intros incoming.
      destruct (readLoop_spec incoming delimiter "") as (taken & rest & Hin & Hb & Hexit).
      rewrite app_nil_l in Hb.
      destruct (readLoop incoming delimiter "").2 eqn:Hend.
      * split; [done|]. exists taken, rest. destruct Hexit as [Hrest Htaken].
        split_and!; [done..|].
        assert (delimiter ≠ "") as Hne.
        { destruct Hd as (pre & post & -> & _). by intros [_ ?]%app_eq_nil. }
        destruct (string_snoc delimiter Hne) as (d0 & c & ->).
        destruct (cut_pieces d0 c taken) as (pieces & last & Ht & Hp & Hl & Hcut).
        exists d0, c, pieces, last. split_and!; [done..|].
        unfold readResponse. rewrite Hb. unfold ReplaceAll.
        rewrite decide_False by done. by rewrite Hcut.
      * exfalso. destruct Hexit as (q & body & _ & Hbody & Hc).
        assert (ReadString (body +:+ "-") "-" = (body +:+ "-", None, "")) as Hline.
        { by apply ReadString_app. }
        pose proof (line_lacks_delimiter _ _ _ _ Hd Hline). congruence.
Qed.


Lemma toStringArray_filter vv :
  Str <$> toStringArray (Slice vv) = List.filter isStr vv.
Proof.
  induction vv as [|item vv IH]; [done|].
  unfold toStringArray in *. destruct item; cbn; by rewrite ?fmap_cons, IH.
Qed.

(** X1: [toStringArray] keeps the elements of a [[]interface{}] that are
    strings, in their order, and drops every other element without a
    word; a list of strings comes back as it is; a value that is no
    [[]interface{}] (nil, a string, a number, an object) gives the empty
    list. *)
Theorem toStringArray_strings :
  (∀ vv, Str <$> toStringArray (Slice vv) = List.filter isStr vv) ∧
  (∀ names, toStringArray (Slice (Str <$> names)) = names) ∧
  (∀ v, (∀ vv, v ≠ Slice vv) → toStringArray v = []).
Proof.
  split_and!.
  - apply toStringArray_filter.
  - induction names as [|name names IH]; [done|].
    unfold toStringArray in *. cbn. by rewrite IH.
  - intros v Hv. destruct v; try done. by destruct (Hv l).
Qed.

(** X2: with a delimiter whose only ['-'] is its last byte, [readResponse]
    returns the text in front of the first delimiter of the stream,
    trimmed, whatever follows that delimiter: the loop stops at the line
    that ends with it. *)
Theorem readResponse_first_frame a d0 rest :
  Contains d0 "-" = false →
  Contains (a +:+ d0) (d0 +:+ "-") = false →
  readLoop (a +:+ (d0 +:+ "-") +:+ rest) (d0 +:+ "-") ""
  = (a +:+ d0 +:+ "-", DelimiterSeen) ∧
  readResponse (a +:+ (d0 +:+ "-") +:+ rest) (d0 +:+ "-") = (TrimSpace a, None).
Proof.
  intros Hd0 Hno.
  pose proof (readLoop_first_frame d0 rest a "" Hd0 Hno) as Hloop.
  rewrite app_nil_l in Hloop. split; [done|].
  unfold readResponse. rewrite Hloop. cbn [fst].
  unfold ReplaceAll. case_decide as Hd.
  { apply app_eq_nil in Hd as [_ ?]. done. }
  by rewrite cut_trailing.
Qed.

(** X3: with a delimiter that ends in ['-'] and has another ['-'] before
    it, as the one of the example program, [readResponse] does not stop at
    a delimiter: responses that arrive one behind the other, each with its
    delimiter, come back as one text, the responses joined with nothing in
    between; bytes behind the last delimiter are dropped. *)
Theorem readResponse_merges delimiter d0 rs tail :
  delimiter = d0 +:+ "-" →
  Contains d0 "-" = true →
  Forall (λ r, Contains (r +:+ d0) delimiter = false) rs →
  Contains tail "-" = false →
  readResponse (framed delimiter rs +:+ tail) delimiter = (TrimSpace (joined rs), None).
Proof.
  intros -> Hd0 Hrs Htail.
  pose proof (readLoop_framed _ d0 tail (dashBeforeLast_intro d0 Hd0) eq_refl Htail rs "")
    as Hloop.
  rewrite app_nil_l in Hloop.
  unfold readResponse. rewrite Hloop. cbn [fst].
  unfold ReplaceAll. case_decide as Hd.
  { apply app_eq_nil in Hd as [_ ?]. done. }
  by rewrite cut_framed.
Qed.

(** X23: a stream without a ['-'] is lost.  When no ['-'] arrives before
    a read fails, [readResponse] returns the empty string, whatever has
    arrived and whatever the delimiter is. *)
Theorem readResponse_no_dash incoming delimiter :
  Contains incoming "-" = false →
  readLoop incoming delimiter "" = ("", ReadFailed) ∧
  readResponse incoming delimiter = ("", None).
Proof.
  intros Hno. pose proof (readLoop_no_dash delimiter incoming "" Hno) as Hloop.
  split; [done|]. unfold readResponse. rewrite Hloop. cbn [fst].
  unfold ReplaceAll. by case_decide.
Qed.

(** X26: a delimiter without a ['-'] does not end the read where it
    stands.  The loop looks for the delimiter only in lines that end with
    a ['-'], so it reads on behind the delimiter up to the next ['-'] of
    the stream, and what it has read there, the start of the next
    response, comes back glued to the response. *)
Theorem readResponse_reads_on delimiter d0 c a b rest :
  delimiter = d0 +:+ String c "" →
  Contains delimiter "-" = false →
  Contains a "-" = false →
  Contains b "-" = false →
  Contains (a +:+ d0) delimiter = false →
  Contains (b +:+ "-") delimiter = false →
  readLoop (a +:+ delimiter +:+ b +:+ String "-" rest) delimiter ""
  = (a +:+ delimiter +:+ b +:+ "-", DelimiterSeen) ∧
  readResponse (a +:+ delimiter +:+ b +:+ String "-" rest) delimiter
  = (TrimSpace (a +:+ b +:+ "-"), None).
Proof.
  intros -> Hd Ha Hb Hfirst Hnone.
  set (delimiter := d0 +:+ String c "") in *.
  assert (readLoop (a +:+ delimiter +:+ b +:+ String "-" rest) delimiter ""
          = (a +:+ delimiter +:+ b +:+ "-", DelimiterSeen)) as Hloop.
  { rewrite readLoop_eq.
    assert (a +:+ delimiter +:+ b +:+ String "-" rest
            = (a +:+ delimiter +:+ b) +:+ String "-" rest) as ->
      by by rewrite !app_assoc.
    rewrite ReadString_app by by rewrite !Contains_byte_app, Ha, Hd, Hb.
    rewrite !app_assoc, app_nil_l.
    by rewrite (proj2 (Contains_spec _ delimiter)) by by exists a, (b +:+ "-"). }
  split; [done|]. unfold readResponse. rewrite Hloop. cbn [fst].
  unfold ReplaceAll. case_decide as Hne.
  { apply app_eq_nil in Hne as [_ ?]. done. }
  unfold delimiter. rewrite cut_frame by done.
  by rewrite cut_no_occurrence.
Qed.

(** X27: the empty delimiter.  Every line contains it, so the loop stops
    at the first ['-'] of the stream, and nothing is cut out: the bytes up
    to and including that ['-'] come back, trimmed. *)
Theorem readResponse_empty_delimiter l rest :
  Contains l "-" = false →
  readLoop (l +:+ String "-" rest) "" "" = (l +:+ "-", DelimiterSeen) ∧
  readResponse (l +:+ String "-" rest) "" = (TrimSpace (l +:+ "-"), None).
Proof.
  intros Hl.
  assert (readLoop (l +:+ String "-" rest) "" "" = (l +:+ "-", DelimiterSeen)) as Hloop.
  { rewrite readLoop_eq, ReadString_app by done.
    assert (Contains (l +:+ "-") "" = true) as ->; [|done].
    apply Contains_spec. exists "", (l +:+ "-"). done. }
  split; [done|]. unfold readResponse. rewrite Hloop. cbn [fst].
  unfold ReplaceAll. by case_decide.
Qed.

(* ===================================================================== *)
(** * protocol.go: [clampAny]                                             *)
(* ===================================================================== *)

Lemma SFltb_irrefl (x : float64) : SFltb x x = false.
Proof.
  unfold SFltb. destruct (isNaN x) eqn:E.
  - by rewrite (proj2 (SFcompare_nan x x) (or_introl E)).
  - by rewrite SFcompare_refl.
Qed.

(** X4: [clampAny] with [min <= max].  A value that is not a NaN ends up
    in [[min, max]]; a value in [[min, max]] is returned as it is; a NaN
    is returned as it is. *)
Theorem clampAny_range value min max :
  SFleb min max = true →
  (isNaN value = false →
   SFleb min (clampAny value min max) = true ∧
   SFleb (clampAny value min max) max = true) ∧
  (SFleb min value = true → SFleb value max = true →
   clampAny value min max = value) ∧
  (isNaN value = true → clampAny value min max = value).
Proof.
  intros Hr. destruct (SFleb_not_nan _ _ Hr) as [Hlo Hhi]. unfold clampAny.
  split_and!.
  - intros Hv. destruct (SFltb max value) eqn:E1.
    + split; [done|by apply SFleb_refl].
    + destruct (SFltb value min) eqn:E2.
      * split; [by apply SFleb_refl|done].
      * split; by apply SFltb_false_le.
  - intros H1 H2. by rewrite (SFleb_not_gt value max H2), (SFleb_not_gt min value H1).
  - intros Hv. by rewrite (SFltb_nan_r max value Hv), (SFltb_nan_l value min Hv).
Qed.

(** X5: the helper [clampAny] and the clamping that [PulseWithModel]
    writes out give the same value, except when the value and the lower
    bound are both above the upper bound: there [clampAny] returns the
    upper bound and the loop of [PulseWithModel] the lower one. *)
Theorem clampAny_inline value min max :
  (clampAny value min max = clamp min max value
   ↔ ¬ (SFltb max value = true ∧ SFltb max min = true)) ∧
  (SFltb max value = true → SFltb max min = true →
   clampAny value min max = max ∧ clamp min max value = min).
Proof.
  unfold clampAny, clamp. split.
  - destruct (SFltb max value) eqn:E1.
    + destruct (SFltb max min) eqn:E2.
      * split; [|intros []; by split]. intros <-. by rewrite SFltb_irrefl in E2.
      * split; [by intros _ [_ ?]|done].
    + split; [by intros _ [? _]|done].
  - by intros -> ->.
Qed.

(* ===================================================================== *)
(** * Facts about traces                                                  *)
(* ===================================================================== *)

Lemma isClosed_app evs w k : Closed k ∉ evs → isClosed (evs ++ w) k = isClosed w k.
Proof.
  intros H. unfold isClosed. apply bool_decide_ext. rewrite elem_of_app.
  split; [by intros [?|?]|by right].
Qed.

Lemma fresh_app_le evs w : (fresh w ≤ fresh (evs ++ w))%nat.
Proof.
  unfold fresh. induction evs as [|e evs IH]; [done|].
  rewrite <- app_comm_cons, fmap_cons. cbn [max_list]. lia.
Qed.

(** The connection of an event of the trace is below [fresh]. *)
Lemma fresh_above w e : e ∈ w → (connOf e < fresh w)%nat.
Proof.
  intros H. unfold fresh.
  assert (connOf e ≤ max_list (connOf <$> w))%nat; [|lia].
  apply max_list_elem_of_le, list_elem_of_fmap. eauto.
Qed.

Lemma dials_app evs w : dials (evs ++ w) = (dials evs + dials w)%nat.
Proof. unfold dials. by rewrite List.filter_app, List.length_app. Qed.

Lemma written_app evs w : written (evs ++ w) = (written w ++ written evs)%list.
Proof. unfold written. by rewrite reverse_app, omap_app. Qed.


Lemma reads_cons e w :
  reads (e :: w) = (match e with Received _ _ => 1 | _ => 0 end + reads w)%nat.
Proof. unfold reads. simpl. by destruct e. Qed.

Lemma exchange_cons e w :
  exchange (e :: w)
  = (exchange w ++ match e with
                   | Wrote _ data _ => [Sent data]
                   | Received _ data => [Got data]
                   | _ => []
                   end)%list.
Proof. unfold exchange. rewrite reverse_cons, omap_app. by destruct e. Qed.

(* ===================================================================== *)
(** * cube.go: every way the methods end                                  *)
(* ===================================================================== *)

(** The message of [Spawn] is rejected by [json.Marshal] when a component
    of the position is a NaN or an infinity. *)
Lemma unsupported_spawn name (position : list float64) :
  unsupported (Map {[ "type" := Str "spawn_cube";
                      "cube_name" := Str name;
                      "position" := Float64s position;
                      "rotation" := Float64s [zero; zero; zero];
                      "is_base" := Bool true ]})
  = existsb unsupportedFloat position.
Proof.
  transitivity (existsb unsupportedFloat position || false);
    [by vm_compute | apply orb_false_r].
Qed.

(** [Spawn] ends in one of four ways: the dial fails; the handshake write
    fails; the spawn command is not written, or its write fails; the spawn
    command is written. *)
Lemma Spawn_cases c w :
  let k := fresh w in
  let addr := ServerAddr c in
  let auth := AuthPass c +:+ Delimiter c in
  let frame := Encode (spawnCommand c) +:+ Delimiter c in
  let opened := Wrote k auth true :: Dialed addr (Some k) :: w in
  (dial_ok env w addr = false ∧
   Spawn c w = ((Return (Some (CubeError ConnectFailed (Name c))), c),
                Dialed addr None :: w))
  ∨ (dial_ok env w addr = true ∧
     Spawn c w = ((Return (Some (CubeError AuthFailed (Name c))), c),
                  Closed k :: Wrote k auth false :: Dialed addr (Some k) :: w))
  ∨ (dial_ok env w addr = true ∧
     ∃ incoming evs,
       (evs = [] ∧ existsb unsupportedFloat (Position c) = true
        ∨ evs = [Wrote k frame false]) ∧
       Spawn c w = ((Return (Some (CubeError SpawnFailed (Name c))), setConn c (Some k)),
                    Closed k :: evs ++ Received k incoming :: opened))
  ∨ (dial_ok env w addr = true ∧
     existsb unsupportedFloat (Position c) = false ∧
     ∃ incoming,
       Spawn c w = ((if decide (length (Position c) < 3) then Panic else Return None,
                     setName (setConn c (Some k)) (Name c +:+ "_BASE")),
                    Wrote k frame true :: Received k incoming :: opened)).
Proof.
  intros k addr auth frame opened.
  unfold Spawn, mbind, IO_bind, mret, IO_ret, Dial, Write, Close.
  destruct (dial_ok env w (ServerAddr c)) eqn:Hdial; [right|by left].
  fold k addr auth.
  rewrite isClosed_cons_other by done.
  rewrite (isClosed_fresh w : isClosed w k = false). cbn [negb andb].
  destruct (write_ok env _ k auth) eqn:Hauth; cbn [negb]; [right|by left].
  rewrite receive_eq. cbv beta iota zeta.
  match goal with
  | |- context [sendJSONMessage ?a ?m ?d ?w2] =>
      destruct (sendJSONMessage_cases a m d w2) as [[Hsup ->]|[Hsup (ok & Hok & ->)]]
  end.
  - left. split; [done|]. eexists _, []. split; [left|done].
    split; [done|]. by rewrite unsupported_spawn in Hsup.
  - rewrite unsupported_spawn in Hsup. cbn [setConn Position] in Hsup.
    destruct ok.
    + right. split_and!; [done..|]. eexists.
      cbn [setName setConn Position]. by case_decide.
    + left. split; [done|]. eexists _, [_]. split; [by right|done].
Qed.

(** [Despawn] ends in one of two ways: the dial fails; or the connection
    is dialed, used and closed. *)
Lemma Despawn_cases c w :
  let k := fresh w in
  let addr := ServerAddr c in
  let auth := AuthPass c +:+ Delimiter c in
  let frame := Encode {[ "type" := Str "despawn_cube"; "cube_name" := Str (Name c) ]}
               +:+ Delimiter c in
  (dial_ok env w addr = false ∧
   Despawn c w = ((Return (Some (CubeError ConnectFailed (Name c))), c),
                  Dialed addr None :: w))
  ∨ (dial_ok env w addr = true ∧
     (Despawn c w = ((Return (Some (CubeError AuthFailed (Name c))), c),
                     Closed k :: Wrote k auth false :: Dialed addr (Some k) :: w)
      ∨ ∃ incoming ok,
          Despawn c w = ((Return (if ok : bool then None
                                  else Some (CubeError SendFailed (Name c))), c),
                         Closed k :: Wrote k frame ok :: Received k incoming
                         :: Wrote k auth true :: Dialed addr (Some k) :: w))).
Proof.
  intros k addr auth frame.
  unfold Despawn, mbind, IO_bind, mret, IO_ret, Dial, Write, Close.
  destruct (dial_ok env w (ServerAddr c)) eqn:Hdial; [right|by left].
  fold k addr auth. split; [done|].
  rewrite isClosed_cons_other by done.
  rewrite (isClosed_fresh w : isClosed w k = false). cbn [negb andb].
  destruct (write_ok env _ k auth) eqn:Hauth; cbn [negb]; [right|by left].
  rewrite receive_eq. cbv beta iota zeta.
  match goal with
  | |- context [sendJSONMessage ?a ?m ?d ?w2] =>
      destruct (sendJSONMessage_cases a m d w2) as [[Hsup _]|[_ (ok & _ & ->)]]
  end; [by vm_compute in Hsup|].
  eexists _, ok. by destruct ok.
Qed.

(* ===================================================================== *)
(** * cube.go: [Spawn] and [Despawn]                                      *)
(* ===================================================================== *)

(** X25: [Spawn] does not look at the answer to the handshake.  When
    the dial and the writes succeed, the position has three components or
    more and none of them is a NaN or an infinity, [Spawn] returns nil, with
    the cube renamed and holding the connection, whatever the server has
    sent in answer to the password; the answer is read and dropped. *)
Theorem Spawn_ignores_handshake c w :
  dial_ok env w (ServerAddr c) = true →
  (∀ w' data, write_ok env w' (fresh w) data = true) →
  existsb unsupportedFloat (Position c) = false →
  (3 ≤ length (Position c))%nat →
  let k := fresh w in
  let opened :=
    Wrote k (AuthPass c +:+ Delimiter c) true :: Dialed (ServerAddr c) (Some k) :: w in
  Spawn c w = ((Return None, setName (setConn c (Some k)) (Name c +:+ "_BASE")),
               Wrote k (Encode (spawnCommand c) +:+ Delimiter c) true
               :: Received k (delivers env opened k) :: opened).
Proof.
  intros Hdial Hwrite Hpos Hlen k opened.
  unfold Spawn, mbind, IO_bind, mret, IO_ret, Dial, Write, Close.
  rewrite Hdial. fold k.
  rewrite isClosed_cons_other by done.
  rewrite (isClosed_fresh w : isClosed w k = false), Hwrite. cbn [negb andb].
  rewrite receive_eq. cbv beta iota zeta. fold opened.
  assert (isClosed opened k = false) as Hopen.
  { unfold opened. rewrite !isClosed_cons_other by done. apply isClosed_fresh. }
  rewrite Hopen.
  match goal with
  | |- context [sendJSONMessage ?a ?m ?d ?w2] =>
      destruct (sendJSONMessage_cases a m d w2) as [[Hsup _]|[_ (ok & -> & ->)]]
  end.
  { rewrite unsupported_spawn in Hsup. cbn [setConn Position] in Hsup. congruence. }
  rewrite isClosed_cons_other, Hopen, Hwrite by done. cbn [negb andb].
  cbn [setName setConn Position Name]. by rewrite decide_False by lia.
Qed.

(** X7: [Spawn] on a cube whose position has fewer than three components
    never returns nil.  It fails as on any other cube, or it panics at the
    end, in the [Printf] that reads the three components; by then the spawn
    command has been written, the name has its suffix and the cube holds
    the connection, which stays open. *)
Theorem Spawn_short_position c w r c' w' :
  (length (Position c) < 3)%nat →
  Spawn c w = ((r, c'), w') →
  r ≠ Return None ∧
  (r = Panic →
   Name c' = Name c +:+ "_BASE" ∧
   conn c' = Some (fresh w) ∧
   isClosed w' (fresh w) = false ∧
   ∃ evs, w' = Wrote (fresh w) (Encode (spawnCommand c) +:+ Delimiter c) true
               :: evs ++ w).
Proof.
  intros Hlen.
  destruct (Spawn_cases c w)
    as [[_ ->]|[[_ ->]|[[_ (i & evs & _ & ->)]|(_ & _ & i & ->)]]];
    try (intros [= <- <- <-]; by split).
  rewrite decide_True by done. intros [= <- <- <-]. split; [done|]. intros _.
  split_and!; [done..| |].
  - rewrite !isClosed_cons_other by done. apply isClosed_fresh.
  - by eexists [_; _; _].
Qed.

(** X8: a cube that is spawned twice.  The second [Spawn] adds the suffix
    once more and stores a connection of its own; the connection of the
    first [Spawn] is not closed, and the cube no longer holds it. *)
Theorem Spawn_twice c w c1 w1 c2 w2 :
  Spawn c w = ((Return None, c1), w1) →
  Spawn c1 w1 = ((Return None, c2), w2) →
  Name c2 = Name c +:+ "_BASE" +:+ "_BASE" ∧
  conn c1 = Some (fresh w) ∧
  conn c2 = Some (fresh w1) ∧
  (fresh w < fresh w1)%nat ∧
  isClosed w2 (fresh w) = false ∧
  isClosed w2 (fresh w1) = false ∧
  dials w2 = (dials w + 2)%nat.
Proof.
  destruct (Spawn_cases c w)
    as [[_ ->]|[[_ ->]|[[_ (i & evs & _ & ->)]|(_ & _ & i & ->)]]]; try done.
  case_decide; [done|]. intros [= <- <-].
  match goal with |- Spawn ?c1 ?w1 = _ → _ => set (c1' := c1); set (w1' := w1) end.
  assert (fresh w < fresh w1')%nat as Hlt.
  { apply (fresh_above w1' (Dialed (ServerAddr c) (Some (fresh w)))).
    unfold w1'. rewrite !elem_of_cons. auto. }
  assert (isClosed w1' (fresh w) = false) as Hopen.
  { unfold w1'. rewrite !isClosed_cons_other by done. apply isClosed_fresh. }
  destruct (Spawn_cases c1' w1')
    as [[_ ->]|[[_ ->]|[[_ (i' & evs' & _ & ->)]|(_ & _ & i' & ->)]]]; try done.
  case_decide; [done|]. intros [= <- <-].
  split_and!; [by rewrite <- app_assoc|done..| | |].
  - by rewrite !isClosed_cons_other.
  - rewrite !isClosed_cons_other by done. apply isClosed_fresh.
  - unfold w1', dials. simpl. lia.
Qed.

(** X9: [Despawn] does not change the cube, which keeps its name and the
    connection it holds; it does not panic; it dials once, closes the
    connection it dialed on every path and closes no other; and when it
    returns nil, the despawn command with the name of the cube has been
    written on the connection it dialed. *)
Theorem Despawn_effect c w r c' w' :
  Despawn c w = ((r, c'), w') →
  c' = c ∧
  r ≠ Panic ∧
  dials w' = S (dials w) ∧
  (∀ k, k ≠ fresh w → isClosed w' k = isClosed w k) ∧
  (dial_ok env w (ServerAddr c) = true → isClosed w' (fresh w) = true) ∧
  (r = Return None →
   Wrote (fresh w)
     (Encode {[ "type" := Str "despawn_cube"; "cube_name" := Str (Name c) ]}
      +:+ Delimiter c) true ∈ w').
Proof.
  destruct (Despawn_cases c w) as [[Hdial ->]|[_ [->|(i & ok & ->)]]];
    intros [= <- <- <-].
  - split_and!; [done..| | |done].
    + intros k _. by rewrite isClosed_cons_other.
    + by rewrite Hdial.
  - split_and!; [done..| | |done].
    + intros k Hk. rewrite !isClosed_cons_other; [done..|]. by intros [= <-].
    + intros _. apply isClosed_cons_closed.
  - split_and!; [done|by destruct ok|done| | |].
    + intros k Hk. rewrite !isClosed_cons_other; [done..|]. by intros [= <-].
    + intros _. apply isClosed_cons_closed.
    + destruct ok; [|done]. intros _. rewrite !elem_of_cons. auto.
Qed.


(** X10: a cube that is spawned and then despawned.  The spawn command
    names the cube by the name it had, the despawn command by that name
    with its suffix, and the despawn command goes out on a second
    connection, which is closed.  Whatever [Despawn] returns, the cube
    still holds the connection of its [Spawn], and that connection is
    open. *)
Theorem Spawn_then_Despawn c w c1 w1 r c2 w2 :
  Spawn c w = ((Return None, c1), w1) →
  Despawn c1 w1 = ((r, c2), w2) →
  c2 = c1 ∧
  conn c2 = Some (fresh w) ∧
  isClosed w2 (fresh w) = false ∧
  Wrote (fresh w) (Encode (spawnCommand c) +:+ Delimiter c) true ∈ w2 ∧
  (r = Return None →
   fresh w ≠ fresh w1 ∧
   isClosed w2 (fresh w1) = true ∧
   Wrote (fresh w1)
     (Encode {[ "type" := Str "despawn_cube";
                "cube_name" := Str (Name c +:+ "_BASE") ]} +:+ Delimiter c) true ∈ w2).
Proof.
  destruct (Spawn_cases c w)
    as [[_ ->]|[[_ ->]|[[_ (i & evs & _ & ->)]|(_ & _ & i & ->)]]]; try done.
  case_decide; [done|]. intros [= <- <-].
  match goal with |- Despawn ?c1 ?w1 = _ → _ => set (c1' := c1); set (w1' := w1) end.
  assert (fresh w < fresh w1')%nat as Hlt.
  { apply (fresh_above w1' (Dialed (ServerAddr c) (Some (fresh w)))).
    unfold w1'. rewrite !elem_of_cons. auto. }
  assert (isClosed w1' (fresh w) = false) as Hopen.
  { unfold w1'. rewrite !isClosed_cons_other by done. apply isClosed_fresh. }
  assert (Wrote (fresh w) (Encode (spawnCommand c) +:+ Delimiter c) true ∈ w1') as Hin.
  { unfold w1'. apply elem_of_cons. by left. }
  clearbody w1'.
  destruct (Despawn_cases c1' w1') as [[_ ->]|[_ [->|(i' & ok & ->)]]];
    intros [= <- <- <-].
  - split_and!; [done..| | |done].
    + by rewrite isClosed_cons_other.
    + rewrite elem_of_cons. by right.
  - split_and!; [done..| | |done].
    + rewrite isClosed_cons_other by (intros [= E]; unfold fresh in *; lia).
      by rewrite !isClosed_cons_other.
    + rewrite !elem_of_cons. auto.
  - split_and!; [done..| | |].
    + rewrite isClosed_cons_other by (intros [= E]; unfold fresh in *; lia).
      by rewrite !isClosed_cons_other.
    + rewrite !elem_of_cons. auto 6.
    + destruct ok; [|done]. intros _. split_and!; [lia|apply isClosed_cons_closed|].
      rewrite !elem_of_cons. auto.
Qed.

(* ===================================================================== *)
(** * cube.go: [RefreshPosition] and [PulseWithModel]                     *)
(* ===================================================================== *)

Lemma storePosition_length pos : ∀ i (P : list float64),
  length (storePosition i pos P).1 = length P.
Proof.
  induction pos as [|a pos IH]; intros i P; [done|].
  destruct a; simpl; try apply IH.
  case_decide; [|done]. by rewrite IH, length_insert.
Qed.

(** A number whose index the position does not have stops the stores. *)
Lemma storePosition_out_of_range pos : ∀ i (P : list float64) j val,
  pos !! j = Some (Float64 val) → (length P ≤ i + j)%nat →
  (storePosition i pos P).2 = false.
Proof.
  induction pos as [|a pos IH]; intros i P j val Hj Hlen; [done|].
  destruct j as [|j].
  - injection Hj as ->. simpl. rewrite decide_False by lia. done.
  - simpl in Hj.
    assert (∀ P0 : list float64, length P0 = length P →
              (storePosition (S i) pos P0).2 = false) as Hrest.
    { intros P0 HP0. apply (IH (S i) P0 j val Hj). lia. }
    destruct a; simpl; try (by apply Hrest).
    case_decide; [|done]. apply Hrest. by rewrite length_insert.
Qed.

Lemma setPosition_same (c : Cube Network) : setPosition c (Position c) = c.
Proof. by destruct c. Qed.

(** After the nil check, [RefreshPosition] ends in one of two ways: the
    request is not written; or the request is written and one response is
    read. *)
Lemma RefreshPosition_cases c w k :
  conn c = Some k →
  let frame := Encode {[ "type" := Str "get_cube_state" ]} +:+ Delimiter c in
  RefreshPosition c w
  = ((Return (Some (CubeError StateRequestFailed (Name c))), c), Wrote k frame false :: w)
  ∨ ∃ incoming,
      let w1 := Received k incoming :: Wrote k frame true :: w in
      incoming = (if isClosed (Wrote k frame true :: w) k then ""
                  else delivers env (Wrote k frame true :: w) k) ∧
      RefreshPosition c w =
      match Unmarshal (readResponse incoming (Delimiter c)).1 with
      | None => ((Return (Some (CubeError JSONParseError (Name c))), c), w1)
      | Some state =>
          match index state "position" with
          | Slice pos =>
              if decide (length pos ≠ 3)
              then ((Return (Some (CubeError InvalidPosition (Name c))), c), w1)
              else ((if (storePosition 0 pos (Position c)).2 then Return None else Panic,
                     setPosition c (storePosition 0 pos (Position c)).1), w1)
          | _ => ((Return (Some (CubeError InvalidPosition (Name c))), c), w1)
          end
      end.
Proof.
  intros Hconn frame. unfold RefreshPosition. rewrite Hconn.
  unfold mbind, IO_bind, mret, IO_ret.
  destruct (sendJSONMessage_cases k {[ "type" := Str "get_cube_state" ]} (Delimiter c) w)
    as [[Hsup _]|[_ (ok & _ & ->)]]; [by vm_compute in Hsup|].
  fold frame. destruct ok; [right|by left].
  rewrite receive_eq. cbv beta iota zeta. eexists. split; [done|].
  destruct (Unmarshal _) as [state|]; [|done].
  destruct (index state "position"); try done.
  case_decide; [done|]. by destruct (storePosition 0 l (Position c)).
Qed.

(** What a [RefreshPosition] leaves behind. *)
Lemma RefreshPosition_effect c w r c' w' k :
  conn c = Some k →
  RefreshPosition c w = ((r, c'), w') →
  c' = setPosition c (Position c') ∧
  length (Position c') = length (Position c) ∧
  (∀ e, r = Return (Some e) →
        c' = c ∧ ∃ kind, e = CubeError kind (Name c) ∧ kind ≠ StateReadFailed) ∧
  (r = Return None →
   ∃ incoming,
     w' = Received k incoming
          :: Wrote k (Encode {[ "type" := Str "get_cube_state" ]} +:+ Delimiter c) true
          :: w) ∧
  ∃ evs, w' = (evs ++ w)%list ∧ (length evs ≤ 2)%nat ∧
         ∀ e, e ∈ evs →
              (∃ data ok, e = Wrote k data ok) ∨ (∃ data, e = Received k data).
Proof.
  intros Hconn.
  assert (∀ kind (w1 : World),
    kind ≠ StateReadFailed →
    (∃ evs, w1 = (evs ++ w)%list ∧ (length evs ≤ 2)%nat ∧
            ∀ e, e ∈ evs →
                 (∃ data ok, e = Wrote k data ok) ∨ (∃ data, e = Received k data)) →
    ((Return (Some (CubeError kind (Name c))), c), w1) = ((r, c'), w') →
    c' = setPosition c (Position c') ∧
    length (Position c') = length (Position c) ∧
    (∀ e, r = Return (Some e) →
          c' = c ∧ ∃ kind, e = CubeError kind (Name c) ∧ kind ≠ StateReadFailed) ∧
    (r = Return None →
     ∃ incoming,
       w' = Received k incoming
            :: Wrote k (Encode {[ "type" := Str "get_cube_state" ]} +:+ Delimiter c) true
            :: w) ∧
    ∃ evs, w' = (evs ++ w)%list ∧ (length evs ≤ 2)%nat ∧
           ∀ e, e ∈ evs →
                (∃ data ok, e = Wrote k data ok) ∨ (∃ data, e = Received k data))
    as Herr.
  { intros kind w1 Hkind Hevs [= <- <- <-]. split_and!; [|done| |done|done].
    - by rewrite setPosition_same.
    - intros e [= <-]. split; [done|]. by exists kind. }
  destruct (RefreshPosition_cases c w k Hconn) as [->|(incoming & _ & ->)].
  { apply Herr; [done|]. eexists [_]. split_and!; [done|simpl; lia|].
    intros e ->%list_elem_of_singleton. left. by eexists _, _. }
  match goal with
  | |- context [Received k incoming :: Wrote k ?f true :: w] =>
      assert (∃ evs, Received k incoming :: Wrote k f true :: w = (evs ++ w)%list ∧
                     (length evs ≤ 2)%nat ∧
                     ∀ e, e ∈ evs →
                          (∃ data ok, e = Wrote k data ok) ∨ (∃ data, e = Received k data))
        as Hevs
  end.
  { eexists [_; _]. split_and!; [done|simpl; lia|].
    intros e [-> | ->%list_elem_of_singleton]%elem_of_cons.
    - right. by eexists.
    - left. by eexists _, _. }
  destruct (Unmarshal _) as [state|]; [|by apply Herr].
  destruct (index state "position"); try (by apply Herr).
  case_decide; [by apply Herr|].
  intros [= <- <- <-]. cbn [Position setPosition].
  split_and!; [done| |by destruct (storePosition _ _ _).2| |done].
  - apply storePosition_length.
  - intros _. by eexists.
Qed.

(** After the nil check, [PulseWithModel] panics on a short position or a
    nil model, stops at a short output or a failed send, or goes on to
    [RefreshPosition]. *)
Lemma PulseWithModel_cases c w k :
  conn c = Some k →
  ((length (Position c) < 3)%nat ∧ PulseWithModel c w = ((Panic, c), w))
  ∨ (3 ≤ length (Position c))%nat ∧
    ((Model c = None ∧ PulseWithModel c w = ((Panic, c), w))
     ∨ ∃ net, Model c = Some net ∧
         let net' := Forward net [take 3 (Position c)] in
         let c1 := setModel c (Some net') in
         let force := clamp (ClampMin c) (ClampMax c) <$> take 3 (GetOutput net') in
         let frame := Encode (applyForce force) +:+ Delimiter c in
         ((length (GetOutput net') < 3)%nat ∧
          PulseWithModel c w
          = ((Return (Some (CubeError OutputTooShort (Name c))), c1), w))
         ∨ (3 ≤ length (GetOutput net'))%nat ∧
           ((existsb unsupportedFloat force = true ∧
             PulseWithModel c w
             = ((Return (Some (CubeError ApplyForceFailed (Name c))), c1), w))
            ∨ (existsb unsupportedFloat force = false ∧
               (PulseWithModel c w
                = ((Return (Some (CubeError ApplyForceFailed (Name c))), c1),
                   Wrote k frame false :: w)
                ∨ PulseWithModel c w = RefreshPosition c1 (Wrote k frame true :: w))))).
Proof.
  intros Hconn. unfold PulseWithModel. rewrite Hconn.
  destruct (Position c) as [|p0 [|p1 [|p2 ps]]] eqn:Hpos;
    try (left; split; [simpl; lia|done]).
  right. split; [simpl; lia|].
  destruct (Model c) as [net|]; [right|by left].
  exists net. split; [done|]. change (take 3 (p0 :: p1 :: p2 :: ps)) with [p0; p1; p2].
  cbv zeta. cbn [Name ClampMin ClampMax Delimiter setModel].
  case_decide as Hout; [left; by split|right]. split; [lia|].
  unfold mbind, IO_bind, mret, IO_ret.
  match goal with
  | |- context [sendJSONMessage k (applyForce ?f) ?d w] =>
      destruct (sendJSONMessage_cases k (applyForce f) d w)
        as [[Hsup ->]|[Hsup (ok & _ & ->)]];
      rewrite unsupported_applyForce in Hsup
  end.
  - left. by split.
  - right. split; [done|]. destruct ok; [by right|by left].
Qed.

(** X11: every way [RefreshPosition] returns an error on a cube that
    has a connection.  When the request cannot be written it is the
    request error.  Once the request is written, a response that does not
    parse gives the parse error, and a response that parses to an object
    whose "position" is missing, is no array or is an array of another
    length than three gives the invalid-format error.  In all three cases
    the cube is left as it was. *)
Theorem RefreshPosition_rejects c w k :
  conn c = Some k →
  let sent := sendJSONMessage k {[ "type" := Str "get_cube_state" ]} (Delimiter c) w in
  let got := receive k (Delimiter c) sent.2 in
  (sent.1 ≠ None →
   RefreshPosition c w
   = ((Return (Some (CubeError StateRequestFailed (Name c))), c), sent.2)) ∧
  (sent.1 = None →
   (Unmarshal got.1.1 = None →
    RefreshPosition c w
    = ((Return (Some (CubeError JSONParseError (Name c))), c), got.2)) ∧
   (∀ state,
      Unmarshal got.1.1 = Some state →
      (∀ a0 a1 a2, state !! "position" ≠ Some (Slice [a0; a1; a2])) →
      RefreshPosition c w
      = ((Return (Some (CubeError InvalidPosition (Name c))), c), got.2))).
Proof.
  intros Hconn sent got. split.
  { intros Hsent. unfold RefreshPosition. rewrite Hconn.
    unfold mbind, IO_bind, mret, IO_ret. fold sent.
    by destruct sent as [[e|] w1]. }
  intros Hsent.
  assert (RefreshPosition c w =
          match Unmarshal got.1.1 with
          | None => ((Return (Some (CubeError JSONParseError (Name c))), c), got.2)
          | Some state =>
              match index state "position" with
              | Slice pos =>
                  if decide (length pos ≠ 3)
                  then ((Return (Some (CubeError InvalidPosition (Name c))), c), got.2)
                  else ((if (storePosition 0 pos (Position c)).2 then Return None else Panic,
                         setPosition c (storePosition 0 pos (Position c)).1), got.2)
              | _ => ((Return (Some (CubeError InvalidPosition (Name c))), c), got.2)
              end
          end) as ->.
  { unfold RefreshPosition. rewrite Hconn. unfold mbind, IO_bind, mret, IO_ret.
    fold sent. destruct sent as [err w1] eqn:Es. simpl in Hsent. subst err.
    simpl in got. unfold got. rewrite receive_eq. cbv beta iota zeta. cbn [fst snd].
    destruct (Unmarshal _) as [state|]; [|reflexivity].
    destruct (index state "position") as [| | | |pos| |];
      [reflexivity..| |reflexivity|reflexivity].
    case_decide; [reflexivity|]. by destruct (storePosition 0 pos (Position c)). }
  split.
  - by intros ->.
  - intros state -> Hpos. unfold index.
    destruct (state !! "position") as [[| | | |pos| |]|] eqn:E;
      [reflexivity..| |reflexivity|reflexivity|reflexivity].
    change (default Nil (Some (Slice pos))) with (Slice pos). cbv iota.
    case_decide as Hlen; [reflexivity|]. exfalso.
    destruct pos as [|a0 [|a1 [|a2 [|]]]]; simpl in Hlen; try lia.
    by apply (Hpos a0 a1 a2).
Qed.

(** X12: [RefreshPosition] called on a cube whose position is too short
    for the response.  When the "position" of the response is an array of
    three and one of its numbers has an index the local position does not
    have, [RefreshPosition] panics in the store; the length of the local
    position is as before. *)
Theorem RefreshPosition_panics c w k state a0 a1 a2 i val :
  conn c = Some k →
  let sent := sendJSONMessage k {[ "type" := Str "get_cube_state" ]} (Delimiter c) w in
  let got := receive k (Delimiter c) sent.2 in
  sent.1 = None →
  Unmarshal got.1.1 = Some state →
  state !! "position" = Some (Slice [a0; a1; a2]) →
  [a0; a1; a2] !! i = Some (Float64 val) →
  (length (Position c) ≤ i)%nat →
  ∃ c', RefreshPosition c w = ((Panic, c'), got.2) ∧
        length (Position c') = length (Position c).
Proof.
  intros Hconn sent got Hsent Hparse Hpos Hi Hlen.
  pose proof (storePosition_out_of_range [a0; a1; a2] 0 (Position c) i val Hi Hlen) as Hstore.
  pose proof (storePosition_length [a0; a1; a2] 0 (Position c)) as Hlength.
  destruct (storePosition 0 [a0; a1; a2] (Position c)) as [P' stored] eqn:Es.
  simpl in Hstore, Hlength. subst stored.
  exists (setPosition c P'). split; [|done].
  unfold RefreshPosition. rewrite Hconn. unfold mbind, IO_bind, mret, IO_ret.
  fold sent. destruct sent as [err w1] eqn:E1. simpl in Hsent. subst err.
  simpl in got. fold got. destruct got as [[raw e] w2] eqn:Eg.
  assert (e = None) as -> by (by injection Eg).
  simpl in Hparse. rewrite Hparse. unfold index. rewrite Hpos.
  cbn -[storePosition]. by rewrite Es.
Qed.

(** X13: what a pulse leaves behind.  [PulseWithModel] changes nothing of
    the cube but the model and the position, whose length stays; when it
    returns an error the position is as it was; it does not dial and does
    not close; it adds at most three events to the trace, writes and reads
    on the connection the cube holds.  When it returns nil it has run the
    model once, written the force and then the state request, and read one
    response. *)
Theorem PulseWithModel_effect c w r c' w' :
  PulseWithModel c w = ((r, c'), w') →
  c' = setPosition (setModel c (Model c')) (Position c') ∧
  length (Position c') = length (Position c) ∧
  (∀ e, r = Return (Some e) → Position c' = Position c) ∧
  (r = Return None →
   ∃ k net incoming,
     conn c = Some k ∧ Model c = Some net ∧
     let net' := Forward net [take 3 (Position c)] in
     let force := clamp (ClampMin c) (ClampMax c) <$> take 3 (GetOutput net') in
     Model c' = Some net' ∧
     w' = Received k incoming
          :: Wrote k (Encode {[ "type" := Str "get_cube_state" ]} +:+ Delimiter c) true
          :: Wrote k (Encode (applyForce force) +:+ Delimiter c) true
          :: w) ∧
  ∃ evs, w' = (evs ++ w)%list ∧ (length evs ≤ 3)%nat ∧
         ∀ e, e ∈ evs →
              ∃ k, conn c = Some k ∧
                   ((∃ data ok, e = Wrote k data ok) ∨ (∃ data, e = Received k data)).
Proof.
  assert (∀ c1 (w1 : World), c1 = setPosition (setModel c (Model c1)) (Position c1) →
            Position c1 = Position c → w1 = w → r ≠ Return None →
            ((r, c'), w') = ((r, c1), w1) →
            c' = setPosition (setModel c (Model c')) (Position c') ∧
            length (Position c') = length (Position c) ∧
            (∀ e, r = Return (Some e) → Position c' = Position c) ∧
            (r = Return None →
             ∃ k net incoming,
               conn c = Some k ∧ Model c = Some net ∧
               let net' := Forward net [take 3 (Position c)] in
               let force := clamp (ClampMin c) (ClampMax c) <$> take 3 (GetOutput net') in
               Model c' = Some net' ∧
               w' = Received k incoming
                    :: Wrote k (Encode {[ "type" := Str "get_cube_state" ]}
                                +:+ Delimiter c) true
                    :: Wrote k (Encode (applyForce force) +:+ Delimiter c) true
                    :: w) ∧
            ∃ evs, w' = (evs ++ w)%list ∧ (length evs ≤ 3)%nat ∧
                   ∀ e, e ∈ evs →
                        ∃ k, conn c = Some k ∧
                             ((∃ data ok, e = Wrote k data ok)
                              ∨ (∃ data, e = Received k data))) as Hquiet.
  { intros c1 w1 Hc1 Hp -> Hr [= -> ->]. split_and!; [done|by rewrite Hp|done|done|].
    exists []. split_and!; [done|simpl; lia|]. by intros e ?%elem_of_nil. }
  destruct (conn c) as [k|] eqn:Hconn.
  2:{ unfold PulseWithModel. rewrite Hconn. intros [= <- <- <-].
      refine (Hquiet _ _ _ _ _ _ eq_refl); [by destruct c|done..]. }
  destruct (PulseWithModel_cases c w k Hconn)
    as [[_ ->]|[_ [[_ ->]|(net & Hnet & [[_ ->]|[_ [[_ ->]|[_ [->| ->]]]]])]]].
  - intros [= <- <- <-]. refine (Hquiet _ _ _ _ _ _ eq_refl); [by destruct c|done..].
  - intros [= <- <- <-]. refine (Hquiet _ _ _ _ _ _ eq_refl); [by destruct c|done..].
  - intros [= <- <- <-]. refine (Hquiet _ _ _ _ _ _ eq_refl); [by destruct c|done..].
  - intros [= <- <- <-]. refine (Hquiet _ _ _ _ _ _ eq_refl); [by destruct c|done..].
  - intros [= <- <- <-]. split_and!; [by destruct c|done..|].
    eexists [_]. split_and!; [done|simpl; lia|].
    intros e ->%list_elem_of_singleton. exists k. split; [done|]. left. by eexists _, _.
  - intros Hr.
    apply RefreshPosition_effect with (k := k) in Hr as (Hc' & Hl & He & Hok & Hevs);
      [|done].
    assert (Model c' = Some (Forward net [take 3 (Position c)])) as Hmodel
      by (by rewrite Hc').
    split_and!.
    + rewrite Hc'. by destruct c.
    + done.
    + intros e ->. by destruct (He e eq_refl) as [-> _].
    + intros Hnil. destruct (Hok Hnil) as (incoming & ->).
      by exists k, net, incoming.
    + destruct Hevs as (evs & -> & Hn & Hevs).
      eexists (evs ++ [_])%list. split_and!; [by rewrite <- List.app_assoc| |].
      * rewrite List.length_app. simpl. lia.
      * intros e [He' | ->%list_elem_of_singleton]%elem_of_app; exists k; (split; [done|]).
        -- by apply Hevs.
        -- left. by eexists _, _.
Qed.

(** X14: on a cube with a connection and a model, [PulseWithModel] panics
    exactly when the position has fewer than three components, and then
    before any I/O and with the cube as it was: with three components the
    stores of [RefreshPosition] are in range whatever the response is. *)
Theorem PulseWithModel_panics c w k net :
  conn c = Some k →
  Model c = Some net →
  ((PulseWithModel c w).1.1 = Panic ↔ (length (Position c) < 3)%nat) ∧
  ((length (Position c) < 3)%nat → PulseWithModel c w = ((Panic, c), w)).
Proof.
  intros Hconn Hmodel.
  destruct (PulseWithModel_cases c w k Hconn)
    as [[Hlen ->]|[Hlen [[? _]|(net' & _ & [[_ ->]|[_ [[_ ->]|[_ [->|Hgo]]]]])]]];
    try congruence; try (split; [split; [done|lia]|lia]).
  { split; [done|]. done. }
  split; [|lia]. split; [|lia]. rewrite Hgo. clear Hgo.
  match goal with
  | |- (RefreshPosition ?c1 ?w1).1.1 = Panic → _ => set (c1' := c1); set (w1' := w1)
  end.
  destruct (RefreshPosition_cases c1' w1' k Hconn) as [->|(incoming & _ & ->)]; [done|].
  destruct (Unmarshal _) as [state|]; [|done].
  destruct (index state "position") as [| | | |pos| |]; try done.
  case_decide as Hpos; [done|].
  destruct (storePosition_spec pos 0 (Position c)) as (P' & HP' & _).
  - intros j val Hj. apply lookup_lt_Some in Hj.
    assert (length pos = 3) by (destruct (decide (length pos = 3)); [done|by destruct Hpos]).
    lia.
  - unfold c1'. cbn [Position setModel]. by rewrite HP'.
Qed.

(** X15: the read-failure branches are dead.  [readResponse] returns a
    nil error on every path, so neither [RefreshPosition] nor
    [PulseWithModel] ever returns the state-read error, and
    [GetAllCubeNames] never returns its read error. *)
Theorem read_failure_dead w :
  (∀ c name,
     (RefreshPosition c w).1.1 ≠ Return (Some (CubeError StateReadFailed name)) ∧
     (PulseWithModel c w).1.1 ≠ Return (Some (CubeError StateReadFailed name))) ∧
  (∀ c, (GetAllCubeNames c w).1.2 ≠ Some NamesReadFailed).
Proof.
  assert (∀ c w name,
    (RefreshPosition c w).1.1 ≠ Return (Some (CubeError StateReadFailed name))) as Hrefresh.
  { intros c w0 name Hr. destruct (conn c) as [k|] eqn:Hconn.
    - destruct (RefreshPosition c w0) as [[r c'] w'] eqn:E.
      destruct (RefreshPosition_effect c w0 r c' w' k Hconn E) as (_ & _ & He & _).
      simpl in Hr. destruct (He _ Hr) as (_ & kind & [= <- _] & Hkind). done.
    - unfold RefreshPosition in Hr. by rewrite Hconn in Hr. }
  split.
  - intros c name. split; [apply Hrefresh|]. intros Hp.
    destruct (conn c) as [k|] eqn:Hconn.
    + destruct (PulseWithModel_cases c w k Hconn)
        as [[_ E]|[_ [[_ E]|(net & _ & [[_ E]|[_ [[_ E]|[_ [E|E]]]]])]]];
        rewrite E in Hp; try done.
      by apply Hrefresh in Hp.
    + unfold PulseWithModel in Hp. by rewrite Hconn in Hp.
  - intros c. unfold GetAllCubeNames, requestNames, mbind, IO_bind, mret, IO_ret,
      Dial, Write, Close.
    destruct (dial_ok env w _); [|done].
    destruct (negb _ && _); cbn [negb]; [|done].
    rewrite receive_eq. cbv beta iota zeta.
    match goal with
    | |- context [sendJSONMessage ?a ?m ?d ?w2] =>
        destruct (sendJSONMessage a m d w2) as [[e|] w3]
    end; [done|].
    rewrite receive_eq. cbv beta iota zeta.
    by destruct (Unmarshal _).
Qed.

(** X24: a cube whose connection is closed.  [RefreshPosition] returns
    the request error and [PulseWithModel] never returns nil; neither of
    them reads a response, and the cube goes on holding the closed
    connection: nothing in these methods dials again. *)
Theorem closed_connection_fails c w k :
  conn c = Some k →
  isClosed w k = true →
  RefreshPosition c w
  = ((Return (Some (CubeError StateRequestFailed (Name c))), c),
     Wrote k (Encode {[ "type" := Str "get_cube_state" ]} +:+ Delimiter c) false :: w) ∧
  (PulseWithModel c w).1.1 ≠ Return None ∧
  conn (PulseWithModel c w).1.2 = Some k ∧
  isClosed (PulseWithModel c w).2 k = true ∧
  reads (PulseWithModel c w).2 = reads w ∧
  dials (PulseWithModel c w).2 = dials w.
Proof.
  intros Hconn Hclosed. split.
  { unfold RefreshPosition. rewrite Hconn. unfold mbind, IO_bind, mret, IO_ret.
    destruct (sendJSONMessage_cases k {[ "type" := Str "get_cube_state" ]} (Delimiter c) w)
      as [[Hsup _]|[_ (ok & -> & ->)]]; [by vm_compute in Hsup|].
    by rewrite Hclosed. }
  unfold PulseWithModel. rewrite Hconn.
  destruct (Position c) as [|p0 [|p1 [|p2 ps]]]; try done.
  destruct (Model c) as [net|]; [|done].
  cbv zeta. cbn [Name ClampMin ClampMax Delimiter setModel].
  case_decide; [done|].
  unfold mbind, IO_bind, mret, IO_ret.
  match goal with
  | |- context [sendJSONMessage k (applyForce ?f) ?d w] =>
      destruct (sendJSONMessage_cases k (applyForce f) d w)
        as [[_ ->]|[_ (ok & -> & ->)]]
  end; [done|].
  rewrite Hclosed. cbn [negb andb fst snd conn setModel].
  split_and!; [done..| | |].
  - by rewrite isClosed_cons_other.
  - by rewrite reads_cons.
  - unfold dials. done.
Qed.

(* ===================================================================== *)
(** * construct.go: the calls that open a connection of their own         *)
(* ===================================================================== *)

Lemma onConn_app k evs1 evs2 : onConn k evs1 → onConn k evs2 → onConn k (evs1 ++ evs2).
Proof. apply Forall_app_2. Qed.

Lemma onConn_not_closed k k' evs : onConn k evs → Closed k' ∉ evs.
Proof.
  intros H Hin. unfold onConn in H. rewrite Forall_forall in H. by apply H in Hin.
Qed.

Lemma onConn_dials k evs : onConn k evs → dials evs = 0%nat.
Proof.
  induction 1 as [|e evs He _ IH]; [done|]. unfold dials in *. simpl.
  by destruct e.
Qed.

Lemma sendJSONMessage_onConn k msg d w :
  ∃ evs, (sendJSONMessage k msg d w).2 = (evs ++ w)%list ∧ onConn k evs.
Proof.
  destruct (sendJSONMessage_cases k msg d w) as [[_ ->]|[_ (ok & _ & ->)]].
  - exists []. split; [done|constructor].
  - eexists [_]. split; [done|]. by repeat constructor.
Qed.

Lemma receive_onConn k d w :
  ∃ evs, (receive k d w).2 = (evs ++ w)%list ∧ onConn k evs.
Proof. eexists [_]. split; [done|]. by repeat constructor. Qed.

Lemma forEach_onConn k (msg : string → Message) d cubes : ∀ w,
  ∃ evs, (forEach (λ cube, _ ← sendJSONMessage k (msg cube) d; mret tt) cubes w).2
         = (evs ++ w)%list ∧ onConn k evs.
Proof.
  induction cubes as [|cube cubes IH]; intros w; [exists []; split; [done|constructor]|].
  cbn [forEach]. unfold mbind, IO_bind, mret, IO_ret in IH |- *.
  destruct (sendJSONMessage_onConn k (msg cube) d w) as (evs1 & H1 & Hon1).
  destruct (sendJSONMessage k (msg cube) d w) as [e w1]. simpl in H1. subst w1.
  destruct (IH (evs1 ++ w)%list) as (evs2 & H2 & Hon2).
  exists (evs2 ++ evs1)%list. rewrite H2, List.app_assoc. split; [done|].
  by apply onConn_app.
Qed.

(** The two retry loops and the request of [GetAllCubeNames] write and
    read on their connection and do nothing else. *)
Lemma destroyLoop_onConn budget : ∀ attempt k d w,
  ∃ evs, (destroyLoop budget attempt k d w).2 = (evs ++ w)%list ∧ onConn k evs.
Proof.
  induction budget as [|budget IH]; intros attempt k d w; [exists []; split; [done|constructor]|].
  cbn [destroyLoop]. unfold mbind, IO_bind, mret, IO_ret.
  destruct (sendJSONMessage_onConn k {[ "type" := Str "get_cube_list" ]} d w)
    as (evs1 & H1 & Hon1).
  destruct (sendJSONMessage k _ d w) as [[e|] w1]; simpl in H1; subst w1; [by exists evs1|].
  rewrite receive_eq. cbv beta iota zeta.
  assert (∀ i, ∃ evs, Received k i :: (evs1 ++ w)%list = (evs ++ w)%list ∧ onConn k evs)
    as Hread.
  { intros i. exists (Received k i :: evs1). split; [done|]. by constructor. }
  destruct (Unmarshal _) as [cubeData|]; [|apply Hread].
  case_decide; [apply Hread|].
  match goal with
  | |- context [forEach ?f ?l ?w2] =>
      destruct (forEach_onConn k
        (λ cube, {[ "type" := Str "despawn_cube"; "cube_name" := Str cube ]})
        d l w2) as (evs2 & H2 & Hon2);
      unfold mbind, IO_bind, mret, IO_ret in H2;
      destruct (forEach f l w2) as [[] w3]
  end.
  simpl in H2. subst w3.
  match goal with
  | |- context [destroyLoop budget ?a k d ?w3] =>
      destruct (IH a k d w3) as (evs3 & -> & Hon3)
  end.
  destruct (Hread (if isClosed (evs1 ++ w) k then "" else delivers env (evs1 ++ w) k))
    as (evs4 & -> & Hon4).
  exists (evs3 ++ evs2 ++ evs4)%list. rewrite <- !List.app_assoc. split; [done|].
  by repeat apply onConn_app.
Qed.

Lemma unfreezeLoop_onConn budget : ∀ attempt k d w,
  ∃ evs, (unfreezeLoop budget attempt k d w).2 = (evs ++ w)%list ∧ onConn k evs.
Proof.
  induction budget as [|budget IH]; intros attempt k d w; [exists []; split; [done|constructor]|].
  cbn [unfreezeLoop]. unfold mbind, IO_bind, mret, IO_ret.
  destruct (sendJSONMessage_onConn k {[ "type" := Str "get_cube_list" ]} d w)
    as (evs1 & H1 & Hon1).
  destruct (sendJSONMessage k _ d w) as [[e|] w1]; simpl in H1; subst w1; [by exists evs1|].
  rewrite receive_eq. cbv beta iota zeta.
  assert (∀ i, ∃ evs, Received k i :: (evs1 ++ w)%list = (evs ++ w)%list ∧ onConn k evs)
    as Hread.
  { intros i. exists (Received k i :: evs1). split; [done|]. by constructor. }
  destruct (Unmarshal _) as [cubeData|]; [|apply Hread].
  case_decide; [apply Hread|].
  match goal with
  | |- context [forEach ?f ?l ?w2] =>
      destruct (forEach_onConn k
        (λ cube, {[ "type" := Str "freeze_cube"; "cube_name" := Str cube;
                    "freeze" := Bool false ]})
        d l w2) as (evs2 & H2 & Hon2);
      unfold mbind, IO_bind, mret, IO_ret in H2;
      destruct (forEach f l w2) as [[] w3]
  end.
  simpl in H2. subst w3.
  match goal with
  | |- context [unfreezeLoop budget ?a k d ?w3] =>
      destruct (IH a k d w3) as (evs3 & -> & Hon3)
  end.
  destruct (Hread (if isClosed (evs1 ++ w) k then "" else delivers env (evs1 ++ w) k))
    as (evs4 & -> & Hon4).
  exists (evs3 ++ evs2 ++ evs4)%list. rewrite <- !List.app_assoc. split; [done|].
  by repeat apply onConn_app.
Qed.

Lemma requestNames_onConn k d w :
  ∃ evs, (requestNames k d w).2 = (evs ++ w)%list ∧ onConn k evs.
Proof.
  unfold requestNames, mbind, IO_bind, mret, IO_ret.
  destruct (sendJSONMessage_onConn k {[ "type" := Str "get_cube_list" ]} d w)
    as (evs1 & H1 & Hon1).
  destruct (sendJSONMessage k _ d w) as [[e|] w1]; simpl in H1; subst w1; [by exists evs1|].
  rewrite receive_eq. cbv beta iota zeta.
  assert (∀ i, ∃ evs, Received k i :: (evs1 ++ w)%list = (evs ++ w)%list ∧ onConn k evs)
    as Hread.
  { intros i. exists (Received k i :: evs1). split; [done|]. by constructor. }
  destruct (Unmarshal _); apply Hread.
Qed.

(** A call made of the dial, the handshake, a body that writes and reads
    on the connection, and the deferred [Close]: it dials once, closes the
    connection it dialed and closes no other. *)
Lemma session_closes {A B} (body : Conn → IO A) (addr auth d : string)
    (noDial noAuth : B) (f : A → B) w :
  (∀ k w, ∃ evs, (body k w).2 = (evs ++ w)%list ∧ onConn k evs) →
  let call : IO B :=
    dialed ← Dial addr;
    match dialed with
    | None => mret noDial
    | Some k =>
        ok ← Write k auth;
        if negb ok then _ ← Close k; mret noAuth
        else _ ← receive k d; r ← body k; _ ← Close k; mret (f r)
    end in
  dials (call w).2 = S (dials w) ∧
  (∀ k, k ≠ fresh w → isClosed (call w).2 k = isClosed w k) ∧
  (dial_ok env w addr = true → isClosed (call w).2 (fresh w) = true) ∧
  (dial_ok env w addr = false → (call w).2 = Dialed addr None :: w).
Proof.
  intros Hbody call. unfold call, mbind, IO_bind, mret, IO_ret, Dial, Write, Close.
  destruct (dial_ok env w addr) eqn:Hdial.
  2:{ cbn [snd]. split_and!; [done| |done..].
      intros k _. by rewrite isClosed_cons_other. }
  destruct (negb _ && _); cbn [negb snd].
  - rewrite receive_eq. cbv beta iota zeta.
    match goal with
    | |- context [body ?k ?w1] =>
        destruct (Hbody k w1) as (evs & Hevs & Hon); destruct (body k w1) as [r w2]
    end.
    simpl in Hevs. subst w2. cbn [snd]. split_and!; [| | |done].
    + change (Closed (fresh w) :: (evs ++ ?t)%list) with ((Closed (fresh w) :: evs) ++ t)%list.
      rewrite dials_app. unfold dials at 1. simpl.
      fold (dials evs). rewrite (onConn_dials _ _ Hon). unfold dials. simpl. lia.
    + intros k Hk. rewrite isClosed_cons_other by (by intros [= <-]).
      rewrite isClosed_app by (by eapply onConn_not_closed).
      rewrite !isClosed_cons_other; [done..|]. done.
    + intros _. apply isClosed_cons_closed.
  - split_and!; [done| | |done].
    + intros k Hk. rewrite !isClosed_cons_other; [done..|]. by intros [= <-].
    + intros _. apply isClosed_cons_closed.
Qed.

(** X16: one connection for each call.  [DestroyAllCubes], [UnfreezeAll]
    and [GetAllCubeNames] each dial once, close the connection they dialed
    on every path that comes after the dial, and close no other
    connection: the connections the cubes hold are left open. *)
Theorem one_connection_per_call c w :
  let closes (w' : World) :=
    dials w' = S (dials w) ∧
    (∀ k, k ≠ fresh w → isClosed w' k = isClosed w k) ∧
    (dial_ok env w (cServerAddr c) = true → isClosed w' (fresh w) = true) ∧
    (dial_ok env w (cServerAddr c) = false → w' = Dialed (cServerAddr c) None :: w) in
  closes (DestroyAllCubes c w).2 ∧
  closes (UnfreezeAll c w).2 ∧
  closes (GetAllCubeNames c w).2.
Proof.
  intros closes. split_and!.
  - apply (session_closes (λ k, destroyLoop maxRetries 1 k (cDelimiter c))
             (cServerAddr c) (cAuthPass c +:+ cDelimiter c) (cDelimiter c)
             None None Some w).
    intros k w0. apply destroyLoop_onConn.
  - apply (session_closes (λ k, unfreezeLoop unfreezeRetries 1 k (cDelimiter c))
             (cServerAddr c) (cAuthPass c +:+ cDelimiter c) (cDelimiter c)
             None None Some w).
    intros k w0. apply unfreezeLoop_onConn.
  - apply (session_closes (λ k, requestNames k (cDelimiter c))
             (cServerAddr c) (cAuthPass c +:+ cDelimiter c) (cDelimiter c)
             (None, Some NamesConnectFailed) (None, Some NamesAuthFailed) id w).
    intros k w0. apply requestNames_onConn.
Qed.

(** X17: [GetAllCubeNames] returns an error and a nil slice, or a slice
    and a nil error.  The slice holds the strings of the "cubes" array of
    the last response it read, in their order; when that response has no
    "cubes", or has one that is no array, the slice is empty and the error
    is nil all the same. *)
Theorem GetAllCubeNames_result c w names err w' :
  GetAllCubeNames c w = ((names, err), w') →
  (names = None ↔ err ≠ None) ∧
  (∀ l, names = Some l →
        ∃ incoming rest cubeData,
          w' = Closed (fresh w) :: Received (fresh w) incoming :: rest ∧
          Unmarshal (readResponse incoming (cDelimiter c)).1 = Some cubeData ∧
          Str <$> l = match cubeData !! "cubes" with
                      | Some (Slice vv) => List.filter isStr vv
                      | _ => []
                      end).
Proof.
  unfold GetAllCubeNames, requestNames, mbind, IO_bind, mret, IO_ret, Dial, Write, Close.
  destruct (dial_ok env w _); [|by intros [= <- <- <-]].
  destruct (negb _ && _); cbn [negb]; [|by intros [= <- <- <-]].
  rewrite receive_eq. cbv beta iota zeta.
  match goal with
  | |- context [sendJSONMessage ?a ?m ?d ?w2] =>
      destruct (sendJSONMessage a m d w2) as [[e|] w3]
  end; [by intros [= <- <- <-]|].
  rewrite receive_eq. cbv beta iota zeta. cbn [fst].
  destruct (Unmarshal _) as [cubeData|] eqn:Hparse; [|by intros [= <- <- <-]].
  intros [= <- <- <-]. split; [done|]. intros l [= <-].
  eexists _, _, cubeData. split_and!; [done|exact Hparse|].
  unfold index. destruct (cubeData !! "cubes") as [[| | | |vv| |]|]; try done.
  apply toStringArray_filter.
Qed.

(* ===================================================================== *)
(** * construct.go: [UnfreezeAll]                                         *)
(* ===================================================================== *)







(* ===================================================================== *)
(** * construct.go: the attempts of [DestroyAllCubes]                     *)
(* ===================================================================== *)

(** The commands of one attempt, as they go over the connection. *)
Lemma forEach_exchange k d (msg : string → Message) cubes :
  (∀ cube, unsupported (Map (msg cube)) = false) →
  ∀ w,
    let w' := (forEach (λ cube, _ ← sendJSONMessage k (msg cube) d; mret tt) cubes w).2 in
    exchange w' = (exchange w ++ ((λ cube, Sent (Encode (msg cube) +:+ d)) <$> cubes))%list.
Proof.
  intros Hmsg. induction cubes as [|cube cubes IH]; intros w.
  - simpl. by rewrite List.app_nil_r.
  - cbn [forEach]. unfold mbind, IO_bind, mret, IO_ret in IH |- *. cbv zeta in IH |- *.
    destruct (sendJSONMessage_cases k (msg cube) d w)
      as [[Hsup _]|[_ (ok & _ & ->)]]; [by rewrite Hmsg in Hsup|].
    rewrite (IH (Wrote k (Encode (msg cube) +:+ d) ok :: w)).
    by rewrite exchange_cons, fmap_cons, <- List.app_assoc.
Qed.

(** Every run of the loop: a number of attempts that went through, each
    the list request, a response that lists at least one cube and a
    command for each cube listed, and then the way the loop ended.  Either
    the budget is used up; or an attempt read a response that lists no cube;
    or an attempt failed to write its request or read a response that does
    not parse. *)
Lemma destroyLoop_rounds budget : ∀ attempt k d w n e w',
  destroyLoop budget attempt k d w = ((n, e), w') →
  ∃ rounds ending,
    exchange w' = (exchange w ++ concat (despawnRound d <$> rounds) ++ ending)%list ∧
    Forall (λ round, listsCubes d round.1 round.2 ∧ round.2 ≠ []) rounds ∧
    match e with
    | Exhausted =>
        length rounds = budget ∧ n = (attempt + budget - 1)%nat ∧ ending = []
    | Cleared =>
        (length rounds < budget)%nat ∧ n = (attempt + length rounds)%nat ∧
        ∃ answer,
          ending = [Sent (Encode {[ "type" := Str "get_cube_list" ]} +:+ d); Got answer] ∧
          listsCubes d answer []
    | Aborted =>
        (length rounds < budget)%nat ∧ n = (attempt + length rounds)%nat ∧
        (ending = [Sent (Encode {[ "type" := Str "get_cube_list" ]} +:+ d)]
         ∨ ∃ answer,
             ending = [Sent (Encode {[ "type" := Str "get_cube_list" ]} +:+ d); Got answer] ∧
             Unmarshal (readResponse answer d).1 = None)
    end.
Proof.
  induction budget as [|budget IH]; intros attempt k d w n e w'.
  - simpl. intros [= <- <- <-]. exists [], []. split; [|split; [constructor|]].
    + by rewrite !List.app_nil_r.
    + split_and!; [done|lia|done].
  - cbn [destroyLoop]. unfold mbind, IO_bind, mret, IO_ret.
    destruct (sendJSONMessage_cases k {[ "type" := Str "get_cube_list" ]} d w)
      as [[Hsup _]|[_ (ok & _ & ->)]]; [vm_compute in Hsup; discriminate Hsup|].
    destruct ok.
    2:{ intros [= <- <- <-]. eexists [], [_]. split; [|split; [constructor|]].
        - by rewrite exchange_cons.
        - cbn [length]. split_and!; [lia|lia|by left]. }
    rewrite receive_eq. cbv beta iota zeta.
    match goal with
    | |- context [Received k ?i :: _] => set (incoming := i)
    end.
    destruct (Unmarshal (readResponse incoming d).1) as [cubeData|] eqn:Hparse.
    2:{ intros [= <- <- <-]. eexists [], [_; _]. split; [|split; [constructor|]].
        - by rewrite !exchange_cons, <- List.app_assoc.
        - cbn [length]. split_and!; [lia|lia|right]. by exists incoming. }
    assert (∀ cube, unsupported (Map {[ "type" := Str "despawn_cube";
                                       "cube_name" := Str cube ]}) = false) as Hmsg.
    { intros cube. by vm_compute. }
    case_decide as Hlen.
    { intros [= <- <- <-]. eexists [], [_; _]. split; [|split; [constructor|]].
      - by rewrite !exchange_cons, <- List.app_assoc.
      - cbn [length]. split_and!; [lia|lia|]. exists incoming. split; [done|].
        exists cubeData. split; [done|]. by apply nil_length_inv. }
    match goal with
    | |- context [forEach ?f ?l ?w2] =>
        pose proof (forEach_exchange k d
          (λ cube, {[ "type" := Str "despawn_cube"; "cube_name" := Str cube ]})
          l Hmsg w2) as Hw;
        unfold mbind, IO_bind, mret, IO_ret in Hw;
        destruct (forEach f l w2) as [[] w3]
    end.
    cbv zeta in Hw. cbn [snd] in Hw.
    intros (rounds & ending & Hx & Hrounds & Hend)%IH.
    exists ((incoming, toStringArray (index cubeData "cubes")) :: rounds), ending.
    split; [|split].
    + rewrite Hx, Hw, !exchange_cons. rewrite fmap_cons. cbn [concat].
      unfold despawnRound at 2. cbn [fst snd].
      rewrite <- !List.app_assoc. cbn [app]. reflexivity.
    + constructor; [|done]. cbn [fst snd]. split.
      * by exists cubeData.
      * intros E. by rewrite E in Hlen.
    + cbn [length]. destruct e.
      * destruct Hend as (? & ? & ?). split_and!; [lia|lia|done].
      * destruct Hend as (? & ? & ?). split_and!; [lia|lia|done].
      * destruct Hend as (? & ? & ?). split_and!; [lia|lia|done].
Qed.

(** C7: [DestroyAllCubes] makes at most 5 attempts and reads at most 6
    responses, the one of the handshake and one for each attempt.  An
    attempt whose cube list parses to an empty list ends the loop on the
    spot, with that attempt as the last one and nothing sent after the list
    was read.  Every run that reaches the loop puts on the connection the
    handshake, its response, and then at most 5 attempts that went through,
    each of them the list request, a response that lists at least one cube
    and one [despawn_cube] command for each cube listed; behind them comes
    nothing when all 5 went through, and otherwise the request and the
    response of the attempt that ended the loop.  With a server that can be
    dialed, takes the handshake and the list requests and answers each list
    request with a list that parses and is not empty, exactly 5 attempts go
    through, 6 responses are read and the loop ends because the budget is
    used up, whether the commands are taken or not. *)
Theorem DestroyAllCubes_attempts c :
  (∀ w, (reads (DestroyAllCubes c w).2 ≤ reads w + 6)%nat ∧
        ∀ n e, (DestroyAllCubes c w).1 = Some (n, e) → (n ≤ 5)%nat) ∧
  (∀ budget attempt k delimiter w,
     let sent := sendJSONMessage k {[ "type" := Str "get_cube_list" ]} delimiter w in
     let got := receive k delimiter sent.2 in
     sent.1 = None →
     (∃ cubeData, Unmarshal got.1.1 = Some cubeData ∧
                  toStringArray (index cubeData "cubes") = []) →
     destroyLoop (S budget) attempt k delimiter w = ((attempt, Cleared), got.2)) ∧
  (∀ w n e w',
     DestroyAllCubes c w = (Some (n, e), w') →
     let request := Encode {[ "type" := Str "get_cube_list" ]} +:+ cDelimiter c in
     ∃ handshake rounds ending,
       exchange w'
       = (exchange w ++ Sent (cAuthPass c +:+ cDelimiter c) :: Got handshake
                        :: concat (despawnRound (cDelimiter c) <$> rounds) ++ ending)%list ∧
       Forall (λ round, listsCubes (cDelimiter c) round.1 round.2 ∧ round.2 ≠ []) rounds ∧
       match e with
       | Exhausted => length rounds = 5%nat ∧ n = 5%nat ∧ ending = []
       | Cleared =>
           (length rounds < 5)%nat ∧ n = S (length rounds) ∧
           ∃ answer, ending = [Sent request; Got answer] ∧
                     listsCubes (cDelimiter c) answer []
       | Aborted =>
           (length rounds < 5)%nat ∧ n = S (length rounds) ∧
           (ending = [Sent request]
            ∨ ∃ answer, ending = [Sent request; Got answer] ∧
                        Unmarshal (readResponse answer (cDelimiter c)).1 = None)
       end) ∧
  ((∀ w k, write_ok env w k (cAuthPass c +:+ cDelimiter c) = true) →
   (∀ w k, write_ok env w k
             (Encode {[ "type" := Str "get_cube_list" ]} +:+ cDelimiter c) = true) →
   (∀ w k, ∃ cubeData,
       Unmarshal (readResponse
                    (delivers env
                       (Wrote k (Encode {[ "type" := Str "get_cube_list" ]}
                                 +:+ cDelimiter c) true :: w) k)
                    (cDelimiter c)).1 = Some cubeData ∧
       toStringArray (index cubeData "cubes") ≠ []) →
   ∀ w, dial_ok env w (cServerAddr c) = true →
        (DestroyAllCubes c w).1 = Some (5%nat, Exhausted) ∧
        reads (DestroyAllCubes c w).2 = (reads w + 6)%nat ∧
        ∃ handshake rounds,
          length rounds = 5%nat ∧
          Forall (λ round, listsCubes (cDelimiter c) round.1 round.2 ∧ round.2 ≠ [])
            rounds ∧
          exchange (DestroyAllCubes c w).2
          = (exchange w ++ Sent (cAuthPass c +:+ cDelimiter c) :: Got handshake
                           :: concat (despawnRound (cDelimiter c) <$> rounds))%list).
Proof.
  assert (∀ w n e w',
     DestroyAllCubes c w = (Some (n, e), w') →
     ∃ handshake rounds ending,
       exchange w'
       = (exchange w ++ Sent (cAuthPass c +:+ cDelimiter c) :: Got handshake
                        :: concat (despawnRound (cDelimiter c) <$> rounds) ++ ending)%list ∧
       Forall (λ round, listsCubes (cDelimiter c) round.1 round.2 ∧ round.2 ≠ []) rounds ∧
       match e with
       | Exhausted => length rounds = 5%nat ∧ n = 5%nat ∧ ending = []
       | Cleared =>
           (length rounds < 5)%nat ∧ n = S (length rounds) ∧
           ∃ answer,
             ending = [Sent (Encode {[ "type" := Str "get_cube_list" ]} +:+ cDelimiter c);
                     Got answer] ∧
             listsCubes (cDelimiter c) answer []
       | Aborted =>
           (length rounds < 5)%nat ∧ n = S (length rounds) ∧
           (ending = [Sent (Encode {[ "type" := Str "get_cube_list" ]} +:+ cDelimiter c)]
            ∨ ∃ answer,
                ending = [Sent (Encode {[ "type" := Str "get_cube_list" ]} +:+ cDelimiter c);
                        Got answer] ∧
                Unmarshal (readResponse answer (cDelimiter c)).1 = None)
       end) as Hruns.
  { intros w n e w'.
    unfold DestroyAllCubes, mbind, IO_bind, mret, IO_ret, Dial, Write, Close.
    destruct (dial_ok env w _); [|done].
    destruct (negb _ && _); cbn [negb]; [|done].
    rewrite receive_eq. cbv beta iota zeta.
    match goal with
    | |- context [destroyLoop ?b ?a ?k ?d ?w1] =>
        pose proof (destroyLoop_rounds b a k d w1) as Hr;
        destruct (destroyLoop b a k d w1) as [[n' e'] w2]
    end.
    intros [= <- <- <-].
    destruct (Hr _ _ _ eq_refl) as (rounds & ending & Hx & Hrounds & Hend).
    match type of Hx with
    | context [Received _ ?i :: _] => exists i, rounds, ending
    end.
    split_and!; [|done|].
    - rewrite exchange_cons, Hx, !exchange_cons.
      rewrite !List.app_nil_r, <- !List.app_assoc. reflexivity.
    - unfold maxRetries in Hend. destruct e'.
      + destruct Hend as (? & ? & ?). split_and!; [done|lia|done].
      + destruct Hend as (? & ? & ?). split_and!; [done|lia|done].
      + destruct Hend as (? & ? & ?). split_and!; [done|lia|done]. }
  split_and!.
  - intros w. unfold DestroyAllCubes, mbind, IO_bind, mret, IO_ret, Dial, Write, Close.
    destruct (dial_ok env w _); [|split; [unfold reads; simpl; lia|done]].
    destruct (negb _ && _); cbn [negb]; [|split; [unfold reads; simpl; lia|done]].
    rewrite receive_eq. cbv beta iota zeta.
    match goal with
    | |- context [destroyLoop ?b ?a ?k ?d ?w1] =>
        pose proof (destroyLoop_bound b a k d w1) as Hb;
        destruct (destroyLoop b a k d w1) as [[n' e'] w2]
    end.
    cbv zeta in Hb. destruct Hb as [Hn Hr]; [lia|]. simpl in Hn, Hr.
    unfold maxRetries in *. split.
    + unfold reads in *. simpl in *. lia.
    + intros n e [= <- <-]. lia.
  - intros budget attempt k delimiter w sent got Hsent (cubeData & Hparse & Hempty).
    cbn [destroyLoop]. unfold mbind, IO_bind, mret, IO_ret.
    fold sent. destruct sent as [err w1]. simpl in Hsent. subst err.
    simpl in got. fold got. destruct got as [[raw e] w2] eqn:Eg.
    assert (e = None) as ->.
    { unfold got in Eg. rewrite receive_eq in Eg. by injection Eg. }
    simpl in Hparse. rewrite Hparse, Hempty. done.
  - intros w n e w' Hrun request. exact (Hruns w n e w' Hrun).
  - intros Hauth Hwrite Hlist w Hdial.
    assert ((DestroyAllCubes c w).1 = Some (5%nat, Exhausted) ∧
            reads (DestroyAllCubes c w).2 = (reads w + 6)%nat) as [Hend Hreads].
    { unfold DestroyAllCubes, mbind, IO_bind, mret, IO_ret, Dial, Write, Close.
      rewrite Hdial. rewrite isClosed_cons_other, isClosed_fresh, Hauth by done.
      cbn [negb andb]. rewrite receive_eq. cbv beta iota zeta.
      match goal with
      | |- context [destroyLoop ?b ?a ?k ?d ?w1] =>
          pose proof (destroyLoop_exhausts d k (λ w, Hwrite w k) (λ w, Hlist w k) b a w1)
            as He;
          destruct (destroyLoop b a k d w1) as [r w2]
      end.
      cbv zeta in He. destruct He as (Hend & Hr & _).
      - rewrite !isClosed_cons_other by done. apply isClosed_fresh.
      - simpl in Hend, Hr. subst r. split; [done|].
        unfold reads, maxRetries in *. simpl in *. lia. }
    split; [done|]. split; [done|].
    destruct (DestroyAllCubes c w) as [r w'] eqn:Hrun. cbn [fst snd] in *. subst r.
    destruct (Hruns w _ _ w' Hrun) as (handshake & rounds & ending & Hx & Hrounds & Hlen & _ & ->).
    exists handshake, rounds. split_and!; [done..|].
    by rewrite Hx, List.app_nil_r.
Qed.



(* ===================================================================== *)
(** * construct.go: [SpawnAll]                                            *)
(* ===================================================================== *)

Lemma Name_suffix_ne (name suffix : string) : suffix ≠ "" → name ≠ name +:+ suffix.
Proof.
  intros Hs E. apply (f_equal String.length) in E. rewrite length_app in E.
  destruct suffix; [done|]. simpl in E. lia.
Qed.

(** What a [Spawn] does to the trace and to the cube. *)
Lemma Spawn_inv c w r c' w' :
  Spawn c w = ((r, c'), w') →
  dials w' = S (dials w) ∧
  (fresh w ≤ fresh w')%nat ∧
  (∀ k, k ≠ fresh w → isClosed w' k = isClosed w k) ∧
  (r = Return None →
   Name c' = Name c +:+ "_BASE" ∧ conn c' = Some (fresh w) ∧
   isClosed w' (fresh w) = false ∧ (fresh w < fresh w')%nat) ∧
  (∀ e, r = Return (Some e) → Name c' = Name c).
Proof.
  assert (∀ evs : World, (fresh w ≤ fresh (evs ++ w))%nat) as Hle
    by (intros; apply fresh_app_le).
  assert (∀ (evs : World) addr,
            (fresh w < fresh (evs ++ Dialed addr (Some (fresh w)) :: w))%nat) as Hlt.
  { intros evs addr. apply (fresh_above _ (Dialed addr (Some (fresh w)))).
    rewrite elem_of_app, elem_of_cons. auto. }
  destruct (Spawn_cases c w)
    as [[_ ->]|[[_ ->]|[[_ (i & evs & Hevs & ->)]|(_ & _ & i & ->)]]];
    intros [= <- <- <-].
  - split_and!; [done|apply (Hle [_])| |done..].
    intros k _. by rewrite isClosed_cons_other.
  - split_and!; [done|apply (Hle [_; _; _])| |done..].
    intros k Hk. rewrite !isClosed_cons_other; [done..|]. by intros [= <-].
  - split_and!; [| |  |done..].
    + by destruct Hevs as [[-> _]| ->].
    + destruct Hevs as [[-> _]| ->]; [apply (Hle [_; _; _; _])|apply (Hle [_; _; _; _; _])].
    + intros k Hk. rewrite isClosed_cons_other by (by intros [= <-]).
      destruct Hevs as [[-> _]| ->]; cbn [app]; by rewrite !isClosed_cons_other.
  - split_and!; [done|apply (Hle [_; _; _; _])| | |by case_decide].
    + intros k Hk. by rewrite !isClosed_cons_other.
    + intros _. split_and!; [done..| |apply (Hlt [_; _; _])].
      rewrite !isClosed_cons_other by done. apply isClosed_fresh.
Qed.

(** X20: [SpawnAll] on pointers that are pairwise distinct, when it
    returns.  It has dialed once for each pointer of the slice, whether the
    [Spawn]s failed or not.  A cube that is not in the slice is not
    touched, and no connection that was there before is closed.  For every
    cube of the slice, either its [Spawn] failed and it has the name it
    had, or it has the suffix "_BASE" and holds a connection that was
    dialed in this call and is open at the end; and two cubes with the
    suffix hold two connections. *)
Theorem SpawnAll_connections cubes : ∀ heap w heap' w',
  NoDup cubes →
  SpawnAll cubes heap w = ((Return None, heap'), w') →
  dials w' = (dials w + length cubes)%nat ∧
  (fresh w ≤ fresh w')%nat ∧
  (∀ p, p ∉ cubes → heap' !! p = heap !! p) ∧
  (∀ k, (k < fresh w)%nat → isClosed w' k = isClosed w k) ∧
  (∀ p, p ∈ cubes →
        ∃ c c', heap !! p = Some c ∧ heap' !! p = Some c' ∧
                (Name c' = Name c
                 ∨ Name c' = Name c +:+ "_BASE" ∧
                   ∃ k, conn c' = Some k ∧ (fresh w ≤ k < fresh w')%nat ∧
                        isClosed w' k = false)) ∧
  (∀ p q cp cq cp' cq',
     p ∈ cubes → q ∈ cubes → p ≠ q →
     heap !! p = Some cp → heap' !! p = Some cp' → Name cp' = Name cp +:+ "_BASE" →
     heap !! q = Some cq → heap' !! q = Some cq' → Name cq' = Name cq +:+ "_BASE" →
     conn cp' ≠ conn cq').
Proof.
  unfold Heap.
  induction cubes as [|p cubes IH]; intros heap w heap' w' Hnd.
  { intros [= <- <-]. split_and!; [simpl; lia|done..| |].
    - by intros p ?%elem_of_nil.
    - by intros p q ? ? ? ? ?%elem_of_nil. }
  apply NoDup_cons in Hnd as [Hp Hnd]. cbn [SpawnAll]. unfold Heap.
  destruct (heap !! p) as [c|] eqn:Hc; [|done].
  unfold mbind, IO_bind, mret, IO_ret.
  destruct (Spawn c w) as [[r c1] w1] eqn:Hspawn.
  destruct (Spawn_inv c w r c1 w1 Hspawn) as (Hdials & Hle & Hclosed & Hok & Herr).
  destruct r as [e|]; [|done]. intros Hrest.
  destruct (IH _ _ _ _ Hnd Hrest)
    as (Hdials' & Hle' & Hframe & Hclosed' & Hcubes & Hdistinct).
  assert (heap' !! p = Some c1) as Hp'.
  { rewrite Hframe by done. apply lookup_insert_eq. }
  (* the cube at the head *)
  assert (Name c1 = Name c
          ∨ Name c1 = Name c +:+ "_BASE" ∧
            conn c1 = Some (fresh w) ∧ (fresh w < fresh w1)%nat ∧
            isClosed w' (fresh w) = false) as Hhead.
  { destruct e as [e|]; [left; by eapply Herr|right].
    destruct (Hok eq_refl) as (? & ? & Hopen & ?). split_and!; [done..|].
    by rewrite Hclosed'. }
  (* a cube of the tail that has the suffix *)
  assert (∀ q cq cq', q ∈ cubes → heap !! q = Some cq → heap' !! q = Some cq' →
            Name cq' = Name cq +:+ "_BASE" →
            ∃ k, conn cq' = Some k ∧ (fresh w1 ≤ k < fresh w')%nat ∧
                 isClosed w' k = false) as Htail.
  { intros q cq cq' Hq Hcq Hcq' Hname.
    destruct (Hcubes q Hq) as (c0 & c0' & H0 & H0' & Hq').
    rewrite lookup_insert_ne in H0 by (by intros ->).
    rewrite Hcq in H0. rewrite Hcq' in H0'. injection H0 as <-. injection H0' as <-.
    destruct Hq' as [Hsame|[_ Hk]]; [|done].
    rewrite Hsame in Hname. by apply Name_suffix_ne in Hname. }
  split_and!.
  - simpl. lia.
  - lia.
  - intros q Hq. apply not_elem_of_cons in Hq as [Hne Hq].
    rewrite Hframe by done. by apply lookup_insert_ne.
  - intros k Hk. rewrite Hclosed' by lia. apply Hclosed. lia.
  - intros q [->|Hq]%elem_of_cons.
    + exists c, c1. split_and!; [done..|].
      destruct Hhead as [?|(? & ? & ? & ?)]; [by left|right].
      split; [done|]. exists (fresh w). split_and!; [done|lia|lia|done].
    + destruct (Hcubes q Hq) as (c0 & c0' & H0 & H0' & Hq').
      rewrite lookup_insert_ne in H0 by (by intros ->).
      exists c0, c0'. split_and!; [done..|].
      destruct Hq' as [?|[? (k & ? & ? & ?)]]; [by left|right].
      split; [done|]. exists k. split_and!; [done|lia|lia|done].
  - intros q1 q2 cq1 cq2 cq1' cq2' [->|H1]%elem_of_cons [->|H2]%elem_of_cons Hne
           Hc1 Hc1' Hn1 Hc2 Hc2' Hn2; [done| | |].
    + rewrite Hc in Hc1. rewrite Hp' in Hc1'. injection Hc1 as <-. injection Hc1' as <-.
      destruct Hhead as [Hsame|(_ & Hk & Hlt & _)].
      { rewrite Hsame in Hn1. by apply Name_suffix_ne in Hn1. }
      destruct (Htail q2 cq2 cq2' H2 Hc2 Hc2' Hn2) as (k & Hk' & Hrange & _).
      rewrite Hk, Hk'. intros [= <-]. lia.
    + rewrite Hc in Hc2. rewrite Hp' in Hc2'. injection Hc2 as <-. injection Hc2' as <-.
      destruct Hhead as [Hsame|(_ & Hk & Hlt & _)].
      { rewrite Hsame in Hn2. by apply Name_suffix_ne in Hn2. }
      destruct (Htail q1 cq1 cq1' H1 Hc1 Hc1' Hn1) as (k & Hk' & Hrange & _).
      rewrite Hk, Hk'. intros [= ->]. lia.
    + apply (Hdistinct q1 q2 cq1 cq2 cq1' cq2'); try done.
      * rewrite lookup_insert_ne; [done|]. by intros ->.
      * rewrite lookup_insert_ne; [done|]. by intros ->.
Qed.

(* ===================================================================== *)
(** * construct.go: [NewCube] and [StartPulsing]                          *)
(* ===================================================================== *)

(** With both bounds at zero the clamped value is a zero, or the NaN that
    came in. *)
Lemma clamp_zero (v : float64) :
  isNaN (clamp zero zero v) = true
  ∨ clamp zero zero v = S754_zero false ∨ clamp zero zero v = S754_zero true.
Proof. destruct v as [[]|[]| |[] m e]; vm_compute; auto. Qed.

Lemma zero_force (output : list float64) :
  existsb unsupportedFloat (clamp zero zero <$> output) = false →
  Forall (λ f, f = S754_zero false ∨ f = S754_zero true) (clamp zero zero <$> output).
Proof.
  induction output as [|v output IH]; [constructor|].
  rewrite fmap_cons. cbn [existsb]. intros [Hv Hrest]%orb_false_iff.
  constructor; [|by apply IH].
  apply orb_false_iff in Hv as [Hnan _].
  destruct (clamp_zero v) as [?|?]; [congruence|done].
Qed.

(** X21: [NewCube] does not set the clamp bounds, so both are zero, and
    neither [Spawn] nor [PulseWithModel] changes them.  A cube with zero
    bounds never sends a force other than zero: its [PulseWithModel]
    leaves the trace as it was, or the first frame it writes is the
    [apply_force] command with three components that are all zero. *)
Theorem NewCube_zero_force :
  (∀ name unitName pos (model : option Network) server pass delim,
     let c := NewCube name unitName pos model server pass delim in
     ClampMin c = zero ∧ ClampMax c = zero) ∧
  (∀ c w, ClampMin (Spawn c w).1.2 = ClampMin c ∧ ClampMax (Spawn c w).1.2 = ClampMax c) ∧
  (∀ c w,
     ClampMin c = zero → ClampMax c = zero →
     ClampMin (PulseWithModel c w).1.2 = zero ∧
     ClampMax (PulseWithModel c w).1.2 = zero ∧
     ((PulseWithModel c w).2 = w
      ∨ ∃ k force evs ok,
          conn c = Some k ∧
          (PulseWithModel c w).2
          = (evs ++ Wrote k (Encode (applyForce force) +:+ Delimiter c) ok :: w)%list ∧
          length force = 3%nat ∧
          Forall (λ f, f = S754_zero false ∨ f = S754_zero true) force)).
Proof.
  split_and!.
  - done.
  - intros c w.
    destruct (Spawn_cases c w)
      as [[_ ->]|[[_ ->]|[[_ (i & evs & _ & ->)]|(_ & _ & i & ->)]]]; done.
  - intros c w Hmin Hmax.
    destruct (PulseWithModel c w) as [[r c'] w'] eqn:Hpulse. cbn [fst snd].
    destruct (conn c) as [k|] eqn:Hconn.
    2:{ unfold PulseWithModel in Hpulse. rewrite Hconn in Hpulse.
        injection Hpulse as <- <- <-. split_and!; [done..|by left]. }
    destruct (PulseWithModel_cases c w k Hconn)
      as [[_ E]|[_ [[_ E]|(net & _ & [[_ E]|[Hout [[_ E]|[Hsup [E|E]]]]])]]];
      rewrite E in Hpulse;
      try (injection Hpulse as <- <- <-; split_and!; [done..|by left]).
    + injection Hpulse as <- <- <-. split_and!; [done..|right].
      rewrite Hmin, Hmax in *.
      eexists k, _, [], false. split_and!; [done|done| |by apply zero_force].
      rewrite length_fmap, length_take. lia.
    + match type of Hpulse with
      | RefreshPosition ?c1 _ = _ =>
          destruct (RefreshPosition_effect c1 _ r c' w' k Hconn Hpulse)
            as (Hc' & _ & _ & _ & evs & -> & _)
      end.
      split_and!; [by rewrite Hc'..|right].
      rewrite Hmin, Hmax in *.
      eexists k, _, evs, true. split_and!; [done|done| |by apply zero_force].
      rewrite length_fmap, length_take. lia.
Qed.

(** With [hi < lo], a clamped output that can be encoded is the lower bound
    all through. *)
Lemma inverted_force lo hi (output : list float64) :
  SFltb hi lo = true →
  existsb unsupportedFloat (clamp lo hi <$> output) = false →
  clamp lo hi <$> output = replicate (length output) lo.
Proof.
  intros Hr. induction output as [|v output IH]; [done|].
  rewrite fmap_cons. cbn [existsb length replicate].
  intros [Hv Hrest]%orb_false_iff. rewrite IH by done. f_equal.
  apply orb_false_iff in Hv as [Hnan _].
  destruct (isNaN v) eqn:Hv.
  - by rewrite clamp_nan, Hv in Hnan.
  - by apply clamp_inverted.
Qed.

(** X28: the bounds the wrong way round.  Nothing checks that [ClampMin]
    is not above [ClampMax]; when it is, the output of the model no longer
    matters: [PulseWithModel] leaves the trace as it was, or the first
    frame it writes is the [apply_force] command with [ClampMin] in all
    three components. *)
Theorem inverted_range_force c w :
  SFltb (ClampMax c) (ClampMin c) = true →
  (PulseWithModel c w).2 = w
  ∨ ∃ k evs ok,
      conn c = Some k ∧
      (PulseWithModel c w).2
      = (evs ++ Wrote k (Encode (applyForce [ClampMin c; ClampMin c; ClampMin c])
                         +:+ Delimiter c) ok :: w)%list.
Proof.
  intros Hr.
  destruct (PulseWithModel c w) as [[r c'] w'] eqn:Hpulse. cbn [snd].
  destruct (conn c) as [k|] eqn:Hconn.
  2:{ unfold PulseWithModel in Hpulse. rewrite Hconn in Hpulse.
      injection Hpulse as <- <- <-. by left. }
  destruct (PulseWithModel_cases c w k Hconn)
    as [[_ E]|[_ [[_ E]|(net & _ & [[_ E]|[Hout [[_ E]|[Hsup [E|E]]]]])]]];
    rewrite E in Hpulse;
    try (injection Hpulse as <- <- <-; by left).
  - injection Hpulse as <- <- <-. right.
    rewrite (inverted_force _ _ _ Hr Hsup), length_take, Nat.min_l by done.
    by eexists k, [], false.
  - match type of Hpulse with
    | RefreshPosition ?c1 _ = _ =>
        destruct (RefreshPosition_effect c1 _ r c' w' k Hconn Hpulse)
          as (_ & _ & _ & _ & evs & -> & _)
    end.
    right. rewrite (inverted_force _ _ _ Hr Hsup), length_take, Nat.min_l by done.
    by eexists k, evs, true.
Qed.

(** X22: the ticker of [StartPulsing]. The first statement panics
    exactly when [actionsPerSecond] is zero, negative or above 1e9;
    otherwise the period is the largest whole number of nanoseconds that
    fits [actionsPerSecond] times into a second. *)
Theorem tickerPeriod_panics actionsPerSecond :
  (tickerPeriod actionsPerSecond = None
   ↔ (actionsPerSecond ≤ 0 ∨ Second < actionsPerSecond)%Z) ∧
  (∀ period, tickerPeriod actionsPerSecond = Some period →
     (0 < period ∧
      period * actionsPerSecond ≤ Second < (period + 1) * actionsPerSecond)%Z).
Proof.
  unfold tickerPeriod, Second. split.
  - case_decide as Hz; [split; [lia|done]|].
    cbv zeta. case_decide as Hp.
    + split; [|done]. intros _.
      destruct (decide (0 < actionsPerSecond)%Z) as [Hpos|]; [right|lia].
      rewrite Z.quot_div_nonneg in Hp by lia.
      destruct (decide (actionsPerSecond ≤ 1000000000)%Z) as [Hle|]; [|lia].
      assert (1 ≤ 1000000000 `div` actionsPerSecond)%Z; [|lia].
      apply Z.div_le_lower_bound; lia.
    + split; [done|]. intros [Hneg|Hbig]; exfalso; apply Hp.
      * assert (actionsPerSecond < 0)%Z as Hlt by lia.
        rewrite <- (Z.opp_involutive actionsPerSecond), Z.quot_opp_r by lia.
        rewrite Z.quot_div_nonneg by lia.
        assert (0 ≤ 1000000000 `div` (- actionsPerSecond))%Z; [|lia].
        apply Z.div_pos; lia.
      * rewrite Z.quot_small; lia.
  - intros period. case_decide as Hz; [done|]. cbv zeta.
    case_decide as Hp; [done|]. intros [= <-].
    assert (0 < actionsPerSecond)%Z as Hpos.
    { destruct (decide (0 < actionsPerSecond)%Z) as [|Hneg]; [done|exfalso].
      apply Hp. assert (actionsPerSecond < 0)%Z as Hlt by lia.
      rewrite <- (Z.opp_involutive actionsPerSecond), Z.quot_opp_r by lia.
      rewrite Z.quot_div_nonneg by lia.
      assert (0 ≤ 1000000000 `div` (- actionsPerSecond))%Z; [|lia].
      apply Z.div_pos; lia. }
    rewrite Z.quot_div_nonneg in * by lia.
    pose proof (Z.mul_div_le 1000000000 actionsPerSecond Hpos).
    pose proof (Z.mul_succ_div_gt 1000000000 actionsPerSecond Hpos).
    split; [lia|]. nia.
Qed.

End construct.

Arguments Spawn Encode {Network}.
Arguments Despawn Encode {Network}.
Arguments RefreshPosition Encode Unmarshal {Network}.
Arguments PulseWithModel Encode Unmarshal {Network}.
Arguments DestroyAllCubes Encode Unmarshal {Network}.
Arguments UnfreezeAll Encode Unmarshal {Network}.
Arguments GetAllCubeNames Encode Unmarshal {Network}.
Arguments SpawnAll Encode {Network}.
Arguments spawnCommand {Network}.

(* ===================================================================== *)
(** * The theorems at work                                                *)
(* ===================================================================== *)

(** ** The instances *)

Example exEncode_list_request :
  exEncode {[ "type" := Str "get_cube_list" ]} = json "{'type':'get_cube_list'}".
Proof. by vm_compute. Qed.

Example exEncode_apply_force :
  exEncode {[ "type" := Str "apply_force";
              "force" := Float64s [ofZ 20; ofZ (-3); ofZ 0] ]}
  = json "{'force':[20,-3,0],'type':'apply_force'}".
Proof. by vm_compute. Qed.

Example exUnmarshal_position :
  exUnmarshal (json "{'position': [1, null, -3], 'name': 'cube_0_BASE'}")
  = Some {[ "position" := Slice [Float64 (ofZ 1); Nil; Float64 (ofZ (-3))];
            "name" := Str "cube_0_BASE" ]}.
Proof. by vm_compute. Qed.

Example exUnmarshal_truncated : exUnmarshal (json "{'position': [1, 2") = None.
Proof. by vm_compute. Qed.

Example exUnmarshal_empty : exUnmarshal "" = None.
Proof. by vm_compute. Qed.

(** ** Framing *)

Lemma framing_round_trip_witness :
  (sendJSONMessage exEncode exServer 1 {[ "type" := Str "get_cube_list" ]}
     exDelimiter []).2
  = [Wrote 1 (json "{'type':'get_cube_list'}" +:+ exDelimiter) true] ∧
  readResponse (json "{'type':'get_cube_list'}" +:+ exDelimiter) exDelimiter
  = (json "{'type':'get_cube_list'}", None).
Proof.
  apply (framing_round_trip exEncode exServer 1
           {[ "type" := Str "get_cube_list" ]} "<???DONE???--"
           (json "{'type':'get_cube_list'}") (json "'type':'get_cube_list'") []);
    by vm_compute.
Defined.

(** C1 fails as stated.  With a delimiter that has no ['-'] the message
    and the delimiter are behind the last ['-'] of the stream and are
    dropped; with the delimiter "-1}-" and the text of [{"x": -1}], which
    does not contain it, the first occurrence in the stream starts inside
    the text, and cutting it out damages the text. *)
Lemma framing_round_trip_fails :
  (let data := json "{'type':'get_cube_list'}" in
   Marshal exEncode {[ "type" := Str "get_cube_list" ]} = Some data ∧
   Contains data "<END>" = false ∧
   readResponse (data +:+ "<END>") "<END>" = ("", None) ∧
   exUnmarshal "" = None ∧
   ¬ round_trip_as_stated exEncode exUnmarshal exServer "<END>"
       {[ "type" := Str "get_cube_list" ]}) ∧
  (let data := json "{'x':-1}" in
   Marshal exEncode {[ "x" := Float64 (ofZ (-1)) ]} = Some data ∧
   Contains data "-1}-" = false ∧
   readResponse (data +:+ "-1}-") "-1}-" = (json "{'x':1}-", None) ∧
   exUnmarshal (json "{'x':1}-") = None ∧
   ¬ round_trip_as_stated exEncode exUnmarshal exServer "-1}-"
       {[ "x" := Float64 (ofZ (-1)) ]}).
Proof.
  split; (split_and!; [by vm_compute..|]); intros H.
  - destruct (H (json "{'type':'get_cube_list'}") {[ "type" := Str "get_cube_list" ]} 1 [])
      as (bytes & Hw & Hp); [by vm_compute..|].
    vm_compute in Hw. injection Hw as <-. by vm_compute in Hp.
  - destruct (H (json "{'x':-1}") {[ "x" := Float64 (ofZ (-1)) ]} 1 [])
      as (bytes & Hw & Hp); [by vm_compute..|].
    vm_compute in Hw. injection Hw as <-. by vm_compute in Hp.
Qed.

Lemma truncated_receive_witness :
  ∃ taken rest,
    json "{'position':[1,-2" = taken +:+ rest ∧
    (taken = "" ∨ ∃ q, taken = q +:+ "-") ∧
    Contains rest "-" = false ∧
    ReplaceAll taken exDelimiter = taken ∧
    readResponse (json "{'position':[1,-2") exDelimiter = (TrimSpace taken, None).
Proof.
  apply (proj2 (truncated_receive (json "{'position':[1,-2") exDelimiter)).
  by vm_compute.
Defined.

(** C2 fails as stated: a response that arrives whole but without its
    delimiter, and has no ['-'] in it, is dropped; the empty string comes
    back. *)
Lemma truncated_receive_drops_tail :
  let incoming := json "{'cubes':[]}" in
  Contains incoming exDelimiter = false ∧
  TrimSpace (ReplaceAll incoming exDelimiter) = incoming ∧
  readResponse incoming exDelimiter = ("", None) ∧
  ¬ partial_buffer_as_stated incoming exDelimiter.
Proof.
  split_and!; [by vm_compute..|]. intros H.
  specialize (H eq_refl). by vm_compute in H.
Qed.

Lemma delimiter_never_seen_witness :
  dashBeforeLast exDelimiter ∧
  let incoming := json "{'cubes':[]}" +:+ exDelimiter in
  (readLoop incoming exDelimiter "").2 = ReadFailed ∧
  ∃ taken rest,
    incoming = taken +:+ rest ∧
    (taken = "" ∨ ∃ q, taken = q +:+ "-") ∧
    Contains rest "-" = false ∧
    (readLoop incoming exDelimiter "").1 = taken ∧
    ∃ d0 c pieces last,
      exDelimiter = d0 +:+ String c "" ∧
      taken = framed exDelimiter pieces +:+ last ∧
      Forall (λ p, Contains (p +:+ d0) exDelimiter = false) pieces ∧
      Contains last exDelimiter = false ∧
      readResponse incoming exDelimiter = (TrimSpace (joined pieces +:+ last), None).
Proof.
  assert (dashBeforeLast exDelimiter) as H.
  { exists "<???DONE???", "--". by split. }
  split; [exact H|].
  exact (proj2 (proj2 (delimiter_never_seen exDelimiter) H)
           (json "{'cubes':[]}" +:+ exDelimiter)).
Defined.

(** C9 fails as stated: cutting an occurrence out joins the bytes on its
    two sides, and they can make up the delimiter again.  With the
    delimiter "a-b" the stream "aa-b-b-" comes back as "a-b-"; with the
    delimiter of the example, a stream that holds it behind its own first
    thirteen bytes comes back as the delimiter itself. *)
Lemma delimiter_never_seen_leaves_delimiter :
  (dashBeforeLast "a-b" ∧
   readResponse "aa-b-b-" "a-b" = ("a-b-", None) ∧
   ¬ delimiters_removed_as_stated "aa-b-b-" "a-b") ∧
  (dashBeforeLast exDelimiter ∧
   readResponse ("<???DONE???--" +:+ exDelimiter +:+ "-") exDelimiter = (exDelimiter, None) ∧
   ¬ delimiters_removed_as_stated ("<???DONE???--" +:+ exDelimiter +:+ "-") exDelimiter).
Proof.
  split; split_and!.
  - exists "a", "b". by split.
  - by vm_compute.
  - by vm_compute.
  - exists "<???DONE???", "--". by split.
  - by vm_compute.
  - by vm_compute.
Qed.

(** ** The cube handle *)

Lemma clamp_correct_witness :
  let c := setConn exCube (Some 1) in
  let force := [ofZ 0; ofZ 20; ofZ 10] in
  Forall (λ f, SFleb (ofZ (-20)) f && SFleb f (ofZ 20) = true) force ∧
  ∃ ok c1,
    PulseWithModel exEncode exUnmarshal exForward exGetOutput exServer c []
    = if ok : bool
      then RefreshPosition exEncode exUnmarshal exServer c1
             [Wrote 1 (json "{'force':[0,20,10],'type':'apply_force'}" +:+ exDelimiter) ok]
      else ((Return (Some (CubeError ApplyForceFailed "cube_hello_0")), c1),
            [Wrote 1 (json "{'force':[0,20,10],'type':'apply_force'}" +:+ exDelimiter) ok]).
Proof.
  intros c force.
  destruct (clamp_correct exEncode exUnmarshal (list float64) exForward exGetOutput
              exServer c [] 1 (ofZ 0) (ofZ 120) (ofZ 10) [] []
              (ofZ 0) (ofZ 120) (ofZ 10) []
              eq_refl eq_refl eq_refl eq_refl eq_refl)
    as [_ [Hnone|[Hin (ok & Hsent)]]].
  - by vm_compute in Hnone.
  - split; [exact Hin|]. eexists ok, _. exact Hsent.
Defined.

(** C4 fails on the code.  On a server whose connection breaks when the
    spawn command is written, [Spawn] returns the spawn-failed error, the
    name is unchanged and the connection is closed, but the cube still holds
    that connection: [PulseWithModel] passes its nil check and writes to
    it. *)
Lemma Spawn_failure_keeps_connection :
  let spawned := Spawn exEncode exBrokenServer exCube [] in
  let c := spawned.1.2 in
  let pulsed :=
    PulseWithModel exEncode exUnmarshal exForward exGetOutput exBrokenServer
      c spawned.2 in
  spawned.1.1 = Return (Some (CubeError SpawnFailed "cube_hello_0")) ∧
  Name c = "cube_hello_0" ∧
  isClosed spawned.2 1 = true ∧
  conn c = Some 1 ∧
  pulsed.1.1 = Return (Some (CubeError ApplyForceFailed "cube_hello_0")) ∧
  pulsed.2 =
    Wrote 1 (json "{'force':[0,20,10],'type':'apply_force'}" +:+ exDelimiter) false
    :: spawned.2.
Proof. by vm_compute. Qed.

Lemma no_connection_witness :
  PulseWithModel exEncode exUnmarshal exForward exGetOutput exServer exCube []
  = ((Return (Some (CubeError NoConnection "cube_hello_0")), exCube), []) ∧
  RefreshPosition exEncode exUnmarshal exServer exCube []
  = ((Return (Some (CubeError NoConnection "cube_hello_0")), exCube), []).
Proof.
  apply (no_connection exEncode exUnmarshal (list float64) exForward exGetOutput
           exServer exCube []).
  reflexivity.
Defined.

(** C5 fails as stated for a cube that was spawned and then despawned:
    [Despawn] works on a connection of its own and leaves the cube's
    connection in place and open, so the next [PulseWithModel] writes the
    force and the state request, reads the answer and returns nil. *)
Lemma despawned_cube_still_pulses :
  let spawned := Spawn exEncode exServer exCube [] in
  let despawned := Despawn exEncode exServer spawned.1.2 spawned.2 in
  let c := despawned.1.2 in
  let pulsed :=
    PulseWithModel exEncode exUnmarshal exForward exGetOutput exServer
      c despawned.2 in
  spawned.1.1 = Return None ∧
  despawned.1.1 = Return None ∧
  conn c = Some 1 ∧
  isClosed despawned.2 1 = false ∧
  pulsed.1.1 = Return None ∧
  pulsed.1.1 ≠ Return (Some (CubeError NoConnection (Name c))) ∧
  ∃ answer,
    pulsed.2 =
      Received 1 answer
      :: Wrote 1 (json "{'type':'get_cube_state'}" +:+ exDelimiter) true
      :: Wrote 1 (json "{'force':[0,20,10],'type':'apply_force'}" +:+ exDelimiter) true
      :: despawned.2.
Proof.
  split_and!; [by vm_compute..|]. eexists. by vm_compute.
Qed.

Lemma Spawn_renames_witness :
  let spawned := Spawn exEncode exServer exCube [] in
  Name spawned.1.2 = "cube_hello_0" +:+ "_BASE" ∧
  conn spawned.1.2 = Some (fresh []) ∧
  Dialed "localhost:14000" (Some (fresh [])) ∈ spawned.2 ∧
  (∀ e, e ∈ [] → connOf e ≠ fresh []) ∧
  isClosed spawned.2 (fresh []) = false.
Proof.
  intros spawned.
  apply (Spawn_renames exEncode (list float64) exServer exCube [] spawned.1.2 spawned.2).
  by vm_compute.
Defined.

Lemma RefreshPosition_lenient_witness :
  let spawned := Spawn exEncode exServer exCube [] in
  let c := spawned.1.2 in
  ∃ c' w',
    RefreshPosition exEncode exUnmarshal exServer c spawned.2 = ((Return None, c'), w') ∧
    Name c' = Name c ∧ conn c' = conn c ∧
    length (Position c') = length (Position c) ∧
    ∀ i, Position c' !! i =
         match [Float64 (ofZ 1); Nil; Float64 (ofZ (-3))] !! i with
         | Some (Float64 val) => Some val
         | _ => Position c !! i
         end.
Proof.
  intros spawned c.
  destruct (RefreshPosition_lenient exEncode exUnmarshal (list float64) exServer
              c spawned.2 1
              {[ "position" := Slice [Float64 (ofZ 1); Nil; Float64 (ofZ (-3))] ]}
              (Float64 (ofZ 1)) Nil (Float64 (ofZ (-3))))
    as (c' & H); [by vm_compute..| |].
  - intros [|[|[|i]]] val; [|done| |done]; intros _; vm_compute; lia.
  - eexists c', _. exact H.
Defined.

(** ** DestroyAllCubes *)

Lemma DestroyAllCubes_attempts_witness :
  let run := DestroyAllCubes exEncode exUnmarshal exServer exConstruct [] in
  run.1 = Some (5%nat, Exhausted) ∧
  reads run.2 = (reads [] + 6)%nat ∧
  ∃ handshake rounds,
    length rounds = 5%nat ∧
    Forall (λ round, listsCubes exUnmarshal exDelimiter round.1 round.2 ∧ round.2 ≠ [])
      rounds ∧
    exchange run.2
    = (exchange [] ++ Sent ("my_secure_password" +:+ exDelimiter) :: Got handshake
                      :: concat (despawnRound exEncode exDelimiter <$> rounds))%list.
Proof.
  intros run.
  apply (proj2 (proj2 (proj2 (DestroyAllCubes_attempts exEncode exUnmarshal (list float64)
                                exServer exConstruct)))).
  - done.
  - done.
  - intros w k. eexists. split; by vm_compute.
  - done.
Defined.

(** ** Frames and clamping *)

Lemma readResponse_first_frame_witness :
  readLoop (json "{'x':-1}" +:+ ("<END" +:+ "-") +:+ json "{'y':2}<END-") ("<END" +:+ "-") ""
  = (json "{'x':-1}" +:+ "<END" +:+ "-", DelimiterSeen) ∧
  readResponse (json "{'x':-1}" +:+ ("<END" +:+ "-") +:+ json "{'y':2}<END-") ("<END" +:+ "-")
  = (TrimSpace (json "{'x':-1}"), None).
Proof.
  apply (readResponse_first_frame (json "{'x':-1}") "<END" (json "{'y':2}<END-"));
    by vm_compute.
Defined.

Lemma readResponse_merges_witness :
  readResponse
    (framed exDelimiter [json "{'status':'ok'}"; json "{'cubes':[]}"] +:+ json "{'cub")
    exDelimiter
  = (TrimSpace (joined [json "{'status':'ok'}"; json "{'cubes':[]}"]), None).
Proof.
  apply (readResponse_merges exDelimiter "<???DONE???--"
           [json "{'status':'ok'}"; json "{'cubes':[]}"] (json "{'cub")).
  - reflexivity.
  - by vm_compute.
  - repeat constructor; by vm_compute.
  - by vm_compute.
Defined.

Lemma readResponse_no_dash_witness :
  readLoop (json "{'cubes':[]}" +:+ "<END>") "<END>" "" = ("", ReadFailed) ∧
  readResponse (json "{'cubes':[]}" +:+ "<END>") "<END>" = ("", None).
Proof.
  apply (readResponse_no_dash (json "{'cubes':[]}" +:+ "<END>") "<END>").
  by vm_compute.
Defined.

Lemma readResponse_reads_on_witness :
  readLoop (json "{'cubes':[]}" +:+ "<END>" +:+ json "{'x':" +:+ String "-" "1}<END>")
    "<END>" ""
  = (json "{'cubes':[]}" +:+ "<END>" +:+ json "{'x':" +:+ "-", DelimiterSeen) ∧
  readResponse (json "{'cubes':[]}" +:+ "<END>" +:+ json "{'x':" +:+ String "-" "1}<END>")
    "<END>"
  = (TrimSpace (json "{'cubes':[]}" +:+ json "{'x':" +:+ "-"), None).
Proof.
  apply (readResponse_reads_on "<END>" "<END" ">"%char (json "{'cubes':[]}")
           (json "{'x':") "1}<END>");
    by vm_compute.
Defined.

Lemma readResponse_empty_delimiter_witness :
  readLoop (json "{'x':" +:+ String "-" "1}") "" "" = (json "{'x':" +:+ "-", DelimiterSeen) ∧
  readResponse (json "{'x':" +:+ String "-" "1}") "" = (TrimSpace (json "{'x':" +:+ "-"), None).
Proof.
  apply (readResponse_empty_delimiter (json "{'x':") "1}"). by vm_compute.
Defined.

Lemma clampAny_range_witness :
  SFleb (ofZ (-20)) (clampAny (ofZ 120) (ofZ (-20)) (ofZ 20)) = true ∧
  SFleb (clampAny (ofZ 120) (ofZ (-20)) (ofZ 20)) (ofZ 20) = true.
Proof.
  destruct (clampAny_range (ofZ 120) (ofZ (-20)) (ofZ 20)) as (H & _ & _);
    [by vm_compute|].
  by apply H.
Defined.

(** ** The life of a cube *)

Lemma Spawn_failure_witness :
  let spawned := Spawn exEncode exBrokenServer exCube [] in
  Name spawned.1.2 = "cube_hello_0" ∧
  spawned.1.2 = setConn exCube (Some 1%nat) ∧
  isClosed spawned.2 1 = true.
Proof.
  intros spawned.
  destruct (Spawn_failure exEncode (list float64) exBrokenServer exCube []
              (CubeError SpawnFailed "cube_hello_0") spawned.1.2 spawned.2)
    as [Hname [(E & _)|[(E & _)|(_ & Hc & Hclosed)]]];
    [by vm_compute| | |]; try discriminate E.
  by split_and!.
Defined.

Lemma Spawn_ignores_handshake_witness :
  Spawn exEncode exStubbornServer exCube []
  = ((Return None, setName (setConn exCube (Some 1%nat)) "cube_hello_0_BASE"),
     [Wrote 1 (exEncode (spawnCommand exCube) +:+ exDelimiter) true;
      Received 1 (json "{'cubes':['cube_hello_0_BASE']}" +:+ exDelimiter);
      Wrote 1 ("my_secure_password" +:+ exDelimiter) true;
      Dialed "localhost:14000" (Some 1%nat)]).
Proof.
  apply (Spawn_ignores_handshake exEncode (list float64) exStubbornServer exCube []).
  - done.
  - done.
  - by vm_compute.
  - vm_compute. lia.
Defined.

Lemma Spawn_short_position_witness :
  let spawned := Spawn exEncode exServer exFlatCube [] in
  spawned.1.1 = Panic ∧
  Name spawned.1.2 = "cube_hello_0" +:+ "_BASE" ∧
  conn spawned.1.2 = Some (fresh []) ∧
  isClosed spawned.2 (fresh []) = false ∧
  ∃ evs, spawned.2
         = Wrote (fresh []) (exEncode (spawnCommand exFlatCube) +:+ exDelimiter) true
           :: evs ++ [].
Proof.
  intros spawned. split; [by vm_compute|].
  apply (Spawn_short_position exEncode (list float64) exServer exFlatCube []
           Panic spawned.1.2 spawned.2); [vm_compute; lia|by vm_compute|done].
Defined.

Lemma Spawn_twice_witness :
  let first := Spawn exEncode exServer exCube [] in
  let second := Spawn exEncode exServer first.1.2 first.2 in
  Name second.1.2 = "cube_hello_0" +:+ "_BASE" +:+ "_BASE" ∧
  conn first.1.2 = Some (fresh []) ∧
  conn second.1.2 = Some (fresh first.2) ∧
  (fresh [] < fresh first.2)%nat ∧
  isClosed second.2 (fresh []) = false ∧
  isClosed second.2 (fresh first.2) = false ∧
  dials second.2 = (dials [] + 2)%nat.
Proof.
  intros first second.
  apply (Spawn_twice exEncode (list float64) exServer exCube []
           first.1.2 first.2 second.1.2 second.2); by vm_compute.
Defined.

Lemma Despawn_effect_witness :
  let spawned := Spawn exEncode exServer exCube [] in
  let despawned := Despawn exEncode exServer spawned.1.2 spawned.2 in
  despawned.1.2 = spawned.1.2 ∧
  despawned.1.1 ≠ Panic ∧
  dials despawned.2 = S (dials spawned.2) ∧
  (∀ k, k ≠ fresh spawned.2 → isClosed despawned.2 k = isClosed spawned.2 k) ∧
  (dial_ok exServer spawned.2 "localhost:14000" = true →
   isClosed despawned.2 (fresh spawned.2) = true) ∧
  (despawned.1.1 = Return None →
   Wrote (fresh spawned.2)
     (exEncode {[ "type" := Str "despawn_cube";
                  "cube_name" := Str "cube_hello_0_BASE" ]} +:+ exDelimiter) true
   ∈ despawned.2).
Proof.
  intros spawned despawned.
  apply (Despawn_effect exEncode (list float64) exServer spawned.1.2 spawned.2
           despawned.1.1 despawned.1.2 despawned.2).
  by vm_compute.
Defined.

Lemma Spawn_then_Despawn_witness :
  let spawned := Spawn exEncode exServer exCube [] in
  let despawned := Despawn exEncode exServer spawned.1.2 spawned.2 in
  despawned.1.2 = spawned.1.2 ∧
  conn despawned.1.2 = Some (fresh []) ∧
  isClosed despawned.2 (fresh []) = false ∧
  Wrote (fresh []) (exEncode (spawnCommand exCube) +:+ exDelimiter) true ∈ despawned.2 ∧
  (despawned.1.1 = Return None →
   fresh [] ≠ fresh spawned.2 ∧
   isClosed despawned.2 (fresh spawned.2) = true ∧
   Wrote (fresh spawned.2)
     (exEncode {[ "type" := Str "despawn_cube";
                  "cube_name" := Str ("cube_hello_0" +:+ "_BASE") ]} +:+ exDelimiter) true
   ∈ despawned.2).
Proof.
  intros spawned despawned.
  apply (Spawn_then_Despawn exEncode (list float64) exServer exCube []
           spawned.1.2 spawned.2 despawned.1.1 despawned.1.2 despawned.2);
    by vm_compute.
Defined.

Lemma RefreshPosition_rejects_witness :
  RefreshPosition exEncode exUnmarshal exStubbornServer (setConn exCube (Some 1%nat)) []
  = ((Return (Some (CubeError InvalidPosition "cube_hello_0")), setConn exCube (Some 1%nat)),
     [Received 1 (json "{'cubes':['cube_hello_0_BASE']}" +:+ exDelimiter);
      Wrote 1 (json "{'type':'get_cube_state'}" +:+ exDelimiter) true]).
Proof.
  apply (proj2 (proj2 (RefreshPosition_rejects exEncode exUnmarshal (list float64)
                         exStubbornServer (setConn exCube (Some 1%nat)) [] 1%nat
                         eq_refl) eq_refl)
           {[ "cubes" := Slice [Str "cube_hello_0_BASE"] ]}).
  - by vm_compute.
  - intros a0 a1 a2. by vm_compute.
Defined.

Lemma RefreshPosition_panics_witness :
  let c := setConn (setPosition exCube []) (Some 1%nat) in
  ∃ c', (RefreshPosition exEncode exUnmarshal exServer c []).1 = (Panic, c') ∧
        length (Position c') = 0%nat.
Proof.
  intros c.
  destruct (RefreshPosition_panics exEncode exUnmarshal (list float64) exServer c [] 1%nat
              {[ "position" := Slice [Float64 (ofZ 1); Nil; Float64 (ofZ (-3))] ]}
              (Float64 (ofZ 1)) Nil (Float64 (ofZ (-3))) 0%nat (ofZ 1))
    as (c' & H & Hlen); [by vm_compute..| |].
  - vm_compute. lia.
  - exists c'. split; [by rewrite H|done].
Defined.

Lemma PulseWithModel_effect_witness :
  let spawned := Spawn exEncode exServer exCube [] in
  let c := spawned.1.2 in
  let pulsed := PulseWithModel exEncode exUnmarshal exForward exGetOutput exServer
                  c spawned.2 in
  pulsed.1.1 = Return None ∧
  pulsed.1.2 = setPosition (setModel c (Model pulsed.1.2)) (Position pulsed.1.2) ∧
  length (Position pulsed.1.2) = length (Position c) ∧
  ∃ evs, pulsed.2 = (evs ++ spawned.2)%list ∧ (length evs ≤ 3)%nat.
Proof.
  intros spawned c pulsed. split; [by vm_compute|].
  destruct (PulseWithModel_effect exEncode exUnmarshal (list float64) exForward
              exGetOutput exServer c spawned.2 pulsed.1.1 pulsed.1.2 pulsed.2)
    as (Hc & Hlen & _ & _ & evs & Hw & Hn & _); [by vm_compute|].
  split; [exact Hc|]. split; [exact Hlen|]. exists evs. split; [exact Hw|exact Hn].
Defined.

Lemma PulseWithModel_panics_witness :
  let c := setConn exFlatCube (Some 1%nat) in
  PulseWithModel exEncode exUnmarshal exForward exGetOutput exServer c []
  = ((Panic, c), []).
Proof.
  intros c.
  apply (proj2 (PulseWithModel_panics exEncode exUnmarshal (list float64) exForward
                  exGetOutput exServer c [] 1%nat [] eq_refl eq_refl)).
  vm_compute. lia.
Defined.

Lemma closed_connection_fails_witness :
  let spawned := Spawn exEncode exBrokenServer exCube [] in
  let c := spawned.1.2 in
  let pulsed := PulseWithModel exEncode exUnmarshal exForward exGetOutput exBrokenServer
                  c spawned.2 in
  RefreshPosition exEncode exUnmarshal exBrokenServer c spawned.2
  = ((Return (Some (CubeError StateRequestFailed "cube_hello_0")), c),
     Wrote 1 (json "{'type':'get_cube_state'}" +:+ exDelimiter) false :: spawned.2) ∧
  pulsed.1.1 ≠ Return None ∧
  conn pulsed.1.2 = Some 1%nat ∧
  isClosed pulsed.2 1 = true ∧
  reads pulsed.2 = reads spawned.2 ∧
  dials pulsed.2 = dials spawned.2.
Proof.
  intros spawned c pulsed.
  apply (closed_connection_fails exEncode exUnmarshal (list float64) exForward
           exGetOutput exBrokenServer c spawned.2 1%nat); by vm_compute.
Defined.

(** A cube made by [NewCube], spawned and pulsed: the model answers with
    the position, and the force on the wire is zero. *)
Example NewCube_zero_force_ex :
  let c := NewCube "cube_0" "HelloUnit" [ofZ 0; ofZ 120; ofZ 10] (Some [])
             "localhost:14000" "my_secure_password" exDelimiter in
  let spawned := Spawn exEncode exServer c [] in
  let pulsed := PulseWithModel exEncode exUnmarshal exForward exGetOutput exServer
                  spawned.1.2 spawned.2 in
  ∃ answer,
    pulsed.2 =
      Received 1 answer
      :: Wrote 1 (json "{'type':'get_cube_state'}" +:+ exDelimiter) true
      :: Wrote 1 (json "{'force':[0,0,0],'type':'apply_force'}" +:+ exDelimiter) true
      :: spawned.2.
Proof. eexists. by vm_compute. Qed.

Lemma inverted_range_force_witness :
  let pulsed := PulseWithModel exEncode exUnmarshal exForward exGetOutput exServer
                  exInvertedCube [] in
  pulsed.2 = []
  ∨ ∃ k evs ok,
      conn exInvertedCube = Some k ∧
      pulsed.2
      = (evs ++ [Wrote k (exEncode (applyForce [ofZ 20; ofZ 20; ofZ 20]) +:+ exDelimiter)
                   ok])%list.
Proof.
  intros pulsed.
  apply (inverted_range_force exEncode exUnmarshal (list float64) exForward exGetOutput
           exServer exInvertedCube []).
  vm_compute. reflexivity.
Defined.

(** ** The calls of a construct *)

Lemma GetAllCubeNames_result_witness :
  let got := GetAllCubeNames exEncode exUnmarshal exServer exConstruct [] in
  got.1 = (Some ["cube_hello_0_BASE"], None) ∧
  ∃ incoming rest cubeData,
    got.2 = Closed (fresh []) :: Received (fresh []) incoming :: rest ∧
    exUnmarshal (readResponse incoming exDelimiter).1 = Some cubeData ∧
    Str <$> ["cube_hello_0_BASE"]
    = match cubeData !! "cubes" with
      | Some (Slice vv) => List.filter isStr vv
      | _ => []
      end.
Proof.
  intros got. split; [by vm_compute|].
  apply (proj2 (GetAllCubeNames_result exEncode exUnmarshal (list float64) exServer
                  exConstruct [] (Some ["cube_hello_0_BASE"]) None got.2
                  ltac:(by vm_compute))).
  done.
Defined.



Lemma SpawnAll_connections_witness :
  let all := SpawnAll exEncode exServer [0; 1]%nat exHeap [] in
  all.1.1 = Return None ∧
  (∀ p, p ∈ [0; 1]%nat →
        ∃ c c', exHeap !! p = Some c ∧ all.1.2 !! p = Some c' ∧
                (Name c' = Name c
                 ∨ Name c' = Name c +:+ "_BASE" ∧
                   ∃ k, conn c' = Some k ∧ (fresh [] ≤ k < fresh all.2)%nat ∧
                        isClosed all.2 k = false)) ∧
  (∀ c0 c1, all.1.2 !! 0%nat = Some c0 → all.1.2 !! 1%nat = Some c1 →
            conn c0 ≠ conn c1).
Proof.
  intros all. split; [by vm_compute|].
  destruct (SpawnAll_connections exEncode (list float64) exServer [0; 1]%nat exHeap []
              all.1.2 all.2)
    as (_ & _ & _ & _ & Hcubes & Hdistinct).
  - apply NoDup_cons. split; [by intros ?%list_elem_of_singleton|].
    apply NoDup_singleton.
  - vm_compute. reflexivity.
  - split; [exact Hcubes|].
    assert (all.1.2 !! 0%nat
            = Some (setName (setConn exCube (Some 1%nat)) "cube_hello_0_BASE")) as E0
      by (vm_compute; reflexivity).
    assert (all.1.2 !! 1%nat
            = Some (setName (setConn exCube (Some 2%nat)) "cube_hello_1_BASE")) as E1
      by (vm_compute; reflexivity).
    assert (exHeap !! 0%nat = Some exCube) as F0 by (vm_compute; reflexivity).
    assert (exHeap !! 1%nat = Some (setName exCube "cube_hello_1")) as F1
      by (vm_compute; reflexivity).
    assert (0%nat ∈ [0; 1]%nat) as H0 by (apply elem_of_cons; by left).
    assert (1%nat ∈ [0; 1]%nat) as H1
      by (apply elem_of_cons; right; apply elem_of_cons; by left).
    assert (0%nat ≠ 1%nat) as Hne by discriminate.
    intros c0 c1 G0 G1.
    assert (Name c0 = Name exCube +:+ "_BASE") as N0.
    { rewrite E0 in G0. by injection G0 as <-. }
    assert (Name c1 = Name (setName exCube "cube_hello_1") +:+ "_BASE") as N1.
    { rewrite E1 in G1. by injection G1 as <-. }
    exact (Hdistinct 0%nat 1%nat _ _ _ _ H0 H1 Hne F0 G0 N0 F1 G1 N1).
Defined.
